(** * go-rst: the lexer and the tree-building parser

    A shallow embedding of [parse/lex.go] (the rune-level lexer) and of the
    parser with its seven-slot token window and its section-level registry,
    followed by the properties of the specification that were checked
    against them.

    Go strings are byte sequences: they are modelled as [string], one
    [ascii] per byte.  Go's [int], [Pos] and [rune] values are modelled as
    [Z]; every value the lexer computes is bounded by the input length plus
    one, so no wrap-around is involved.  A run-time panic of the Go program
    (slice bounds, index out of range, nil dereference) is the outcome
    [Panic]; a loop that has used up its iteration budget is [Timeout]. *)

From stdpp Require Import base tactics option list strings.
From Stdlib Require Import ZArith Ascii String List Lia Bool.
Import ListNotations.

Open Scope string_scope.
Open Scope list_scope.
Open Scope Z_scope.

Set Warnings "-register-all".

(* ===================================================================== *)
(** ** Outcomes and the state monad of the embedding *)
(* ===================================================================== *)

Inductive outcome (A : Type) : Type :=
| Ok (a : A)
| Panic
| Timeout
| Blocked.
Arguments Ok {A} a.
Arguments Panic {A}.
Arguments Timeout {A}.
Arguments Blocked {A}.

(** A computation over a mutable object of type [St].  The state is kept
    when the computation fails: what the lexer has emitted before a panic
    has already been handed to the consumer. *)
Definition M (St A : Type) : Type := St -> outcome A * St.

Definition ret {St A} (a : A) : M St A := fun s => (Ok a, s).

Definition bind {St A B} (m : M St A) (f : A -> M St B) : M St B :=
  fun s =>
    match m s with
    | (Ok a, s') => f a s'
    | (Panic, s') => (Panic, s')
    | (Timeout, s') => (Timeout, s')
    | (Blocked, s') => (Blocked, s')
    end.

Definition panic {St A} : M St A := fun s => (Panic, s).
Definition gets {St A} (f : St -> A) : M St A := fun s => (Ok (f s), s).
Definition modify {St} (f : St -> St) : M St unit := fun s => (Ok tt, f s).

Notation "x <- m ;; k" := (bind m (fun x => k))
  (at level 100, m at next level, right associativity).
Notation "m ;; k" := (bind m (fun _ => k))
  (at level 100, right associativity).

(** [for { ... }]: the body either continues with a new value of the
    loop-carried variables ([inl]) or leaves the loop with a result
    ([inr]).  [fuel] bounds the number of iterations. *)
Fixpoint loop {St A B} (fuel : nat) (body : A -> M St (A + B)) (a : A)
  : M St B :=
  fun s =>
    match fuel with
    | O => (Timeout, s)
    | S fuel' =>
        match body a s with
        | (Ok (inl a'), s') => loop fuel' body a' s'
        | (Ok (inr b), s') => (Ok b, s')
        | (Panic, s') => (Panic, s')
        | (Timeout, s') => (Timeout, s')
        | (Blocked, s') => (Blocked, s')
        end
    end.

(** [for i := 0; i < n; i++ { ... }] with a body that may return early
    ([inr]); [inl] carries the loop variables to the next round. *)
Fixpoint for_count {St A B} (n : nat) (i : Z) (body : Z -> A -> M St (A + B))
  (a : A) : M St (A + B) :=
  match n with
  | O => ret (inl a)
  | S n' =>
      r <- body i a ;;
      match r with
      | inl a' => for_count n' (i + 1) body a'
      | inr b => ret (inr b)
      end
  end.

(* ===================================================================== *)
(** ** Go strings *)
(* ===================================================================== *)

Definition len (s : string) : Z := Z.of_nat (String.length s).

(** [s[a:b]]; [None] stands for the slice-bounds panic. *)
Definition slice (s : string) (a b : Z) : option string :=
  if (0 <=? a) && (a <=? b) && (b <=? len s)
  then Some (substring (Z.to_nat a) (Z.to_nat (b - a)) s)
  else None.

Definition byteZ (c : ascii) : Z := Z.of_N (N_of_ascii c).

Definition LF : Z := 10.
Definition nl : string := String (ascii_of_nat 10) EmptyString.

(** [strings.Count(s, "\n")] *)
Fixpoint count_nl (s : string) : Z :=
  match s with
  | EmptyString => 0
  | String c t => (if byteZ c =? LF then 1 else 0) + count_nl t
  end.

(** *** [unicode/utf8.DecodeRuneInString]

    The decoder of Go's standard library, which the lexer calls for every
    rune: the rune and its width in bytes; [(RuneError, 0)] on the empty
    string and [(RuneError, 1)] on an invalid encoding. *)

Definition RuneError : Z := 65533.

Definition acceptRange (s0 : Z) : Z * Z :=
  if s0 =? 0xE0 then (0xA0, 0xBF)
  else if s0 =? 0xED then (0x80, 0x9F)
  else if s0 =? 0xF0 then (0x90, 0xBF)
  else if s0 =? 0xF4 then (0x80, 0x8F)
  else (0x80, 0xBF).

Definition contByte (lo hi : Z) (c : ascii) : bool :=
  (lo <=? byteZ c) && (byteZ c <=? hi).

Definition DecodeRuneInString (s : string) : Z * Z :=
  match s with
  | EmptyString => (RuneError, 0)
  | String c0 t =>
      let s0 := byteZ c0 in
      if s0 <? 0x80 then (s0, 1)
      else if (s0 <? 0xC2) || (0xF4 <? s0) then (RuneError, 1)
      else
        let '(lo, hi) := acceptRange s0 in
        match t with
        | EmptyString => (RuneError, 1)
        | String c1 t1 =>
            if negb (contByte lo hi c1) then (RuneError, 1)
            else if s0 <? 0xE0 then
              (Z.lor (Z.shiftl (Z.land s0 0x1F) 6) (Z.land (byteZ c1) 0x3F), 2)
            else
              match t1 with
              | EmptyString => (RuneError, 1)
              | String c2 t2 =>
                  if negb (contByte 0x80 0xBF c2) then (RuneError, 1)
                  else if s0 <? 0xF0 then
                    (Z.lor (Z.lor (Z.shiftl (Z.land s0 0x0F) 12)
                                  (Z.shiftl (Z.land (byteZ c1) 0x3F) 6))
                           (Z.land (byteZ c2) 0x3F), 3)
                  else
                    match t2 with
                    | EmptyString => (RuneError, 1)
                    | String c3 _ =>
                        if negb (contByte 0x80 0xBF c3) then (RuneError, 1)
                        else
                          (Z.lor (Z.lor (Z.lor
                             (Z.shiftl (Z.land s0 0x07) 18)
                             (Z.shiftl (Z.land (byteZ c1) 0x3F) 12))
                             (Z.shiftl (Z.land (byteZ c2) 0x3F) 6))
                             (Z.land (byteZ c3) 0x3F), 4)
                    end
              end
        end
  end.

(* ===================================================================== *)
(** ** The lexer ([parse/lex.go]) *)
(* ===================================================================== *)

Inductive itemElement : Type :=
| itemEOF
| itemError
| itemTitle
| itemSectionAdornment
| itemParagraph
| itemBlockquote
| itemLiteralBlock
| itemSystemMessage
| itemSpace
| itemBlankLine.

Global Instance itemElement_eq_dec : EqDecision itemElement.
Proof. solve_decision. Defined.

Definition itemElement_String (t : itemElement) : string :=
  match t with
  | itemEOF => "itemEOF"
  | itemError => "itemError"
  | itemTitle => "itemTitle"
  | itemSectionAdornment => "itemSectionAdornment"
  | itemParagraph => "itemParagraph"
  | itemBlockquote => "itemBlockquote"
  | itemLiteralBlock => "itemLiteralBlock"
  | itemSystemMessage => "itemSystemMessage"
  | itemSpace => "itemSpace"
  | itemBlankLine => "itemBlankLine"
  end.

(** Valid section adornment runes. *)
Definition sectionAdornments : list Z :=
  [33; 34; 35; 36; 39; 37; 38; 40; 41; 42; 43; 44; 45; 46; 47; 58; 59; 60;
   61; 62; 63; 64; 91; 92; 93; 94; 95; 96; 123; 124; 125; 126].

Definition eof : Z := -1.

(** Tokens emitted by the scanning process.  [Value] is an [interface{}]:
    [None] is the nil interface, [Some s] a string.  The parser names the
    fields [ElementType] and [Value] of this struct [Type] and [Text]. *)
Record item : Type := mkItem {
  ElementName : string;
  ElementType : itemElement;
  Position : Z;
  Line : Z;
  Length : Z;
  Value : option string
}.

Global Instance item_eq_dec : EqDecision item.
Proof. solve_decision. Defined.

(** The state of the lexer.  [items] is what has been sent on the channel,
    oldest first.  The [state] field is the argument of [run_loop] below. *)
Record lexer : Type := mkLexer {
  name : string;
  input : string;
  pos : Z;
  start : Z;
  width : Z;
  items : list item;
  lastItem : option item
}.

Definition set_pos (p : Z) (l : lexer) : lexer :=
  mkLexer (name l) (input l) p (start l) (width l) (items l) (lastItem l).
Definition set_start (p : Z) (l : lexer) : lexer :=
  mkLexer (name l) (input l) (pos l) p (width l) (items l) (lastItem l).
Definition set_width (w : Z) (l : lexer) : lexer :=
  mkLexer (name l) (input l) (pos l) (start l) w (items l) (lastItem l).
Definition send (i : item) (l : lexer) : lexer :=
  mkLexer (name l) (input l) (pos l) (start l) (width l)
          (items l ++ [i]) (Some i).

Definition LexM := M lexer.

(** [l.input[a:b]] inside the lexer. *)
Definition input_slice (a b : Z) : LexM string :=
  fun l => match slice (input l) a b with
           | Some s => (Ok s, l)
           | None => (Panic, l)
           end.

(** [l.lineNumber()] *)
Definition lineNumber : LexM Z :=
  p <- gets pos ;;
  s <- input_slice 0 (p - 1) ;;
  ret (1 + count_nl s).

(** emit passes an item back to the client. *)
Definition emit (t : itemElement) : LexM unit :=
  st <- gets start ;; p <- gets pos ;; n <- gets (fun l => len (input l)) ;;
  (if (st =? p) && (p <? n) then modify (set_pos (p + 1)) else ret tt) ;;
  p <- gets pos ;;
  v <- input_slice st p ;;
  ln <- lineNumber ;;
  modify (send (mkItem (itemElement_String t) t (st + 1) ln (len v) (Some v))) ;;
  modify (set_start p).

(** backup backs up the lexer by one position using the width of the last
    rune retrieved from the input. *)
Definition backup : LexM unit :=
  p <- gets pos ;; w <- gets width ;; modify (set_pos (p - w)).

(** current returns the rune at the current position in the input. *)
Definition current : LexM Z :=
  p <- gets pos ;; n <- gets (fun l => len (input l)) ;;
  s <- input_slice p n ;;
  ret (fst (DecodeRuneInString s)).

(** next advances the position of the lexer by one rune and returns that
    rune. *)
Definition next : LexM Z :=
  p <- gets pos ;; n <- gets (fun l => len (input l)) ;;
  if n <=? p then modify (set_width 0) ;; ret eof
  else
    s <- input_slice p n ;;
    let '(r, w) := DecodeRuneInString s in
    modify (set_width w) ;;
    modify (set_pos (p + w)) ;;
    ret r.

(** peek looks ahead in the input by one position and returns the rune. *)
Definition peek : LexM Z :=
  r <- next ;; backup ;; ret r.

(** advance fast forwards the lexer to the next rune [to]. *)
Definition advance (fuel : nat) (to : Z) : LexM unit :=
  loop fuel (fun _ : unit =>
    r <- next ;;
    if r =? eof then ret (inr tt)
    else c <- current ;; if to =? c then ret (inr tt) else ret (inl tt)) tt.

Definition isSpace (r : Z) : bool :=
  (r =? 32) || (r =? 9) || (r =? 10) || (r =? 13).

Definition isEndOfLine (r : Z) : bool :=
  (r =? 13) || (r =? 10).

Definition isSectionAdornment (r : Z) : bool :=
  existsb (fun a => a =? r) sectionAdornments.

(** The local variables of [isSection]. *)
Record sectionScan : Type := mkScan {
  lastAdornment : Z;
  newLineNum : Z;
  runePositions : list Z;
  matchCount : Z
}.

(** The inner [for isSpace(l.current())] loop of [isSection]; [inr false]
    is the early [return exit(false)] on a second newline. *)
Definition isSection_spaces (fuel : nat) (newLines : Z) : LexM (Z + bool) :=
  loop fuel (fun nln : Z =>
    c <- current ;;
    if isSpace c then
      c <- current ;;
      if isEndOfLine c then
        if nln =? 1 then ret (inr (inr false))
        else next ;; ret (inl (nln + 1))
      else next ;; ret (inl nln)
    else ret (inr (inl nln))) newLines.

Definition lookPositions : Z := 2.

(** isSection looks ahead to decide whether the runes at the cursor start
    a section. *)
Definition isSection (fuel : nat) : LexM bool :=
  cPos <- gets pos ;;
  let exit (value : bool) : LexM bool :=
    modify (set_pos cPos) ;; ret value in
  c <- current ;;
  two <- (if isSectionAdornment c then
            p <- peek ;;
            if isSectionAdornment p then
              c <- current ;; p <- peek ;; ret (c =? p)
            else ret false
          else ret false) ;;
  if two : bool then ret true
  else
    advance fuel LF ;;
    c <- current ;;
    if c =? eof then ret false
    else
      r <- for_count (Z.to_nat lookPositions) 0 (fun _ (v : sectionScan) =>
             sp <- isSection_spaces fuel (newLineNum v) ;;
             match sp with
             | inr b => ret (inr b)
             | inl nln =>
                 let v := mkScan (lastAdornment v) nln (runePositions v)
                                 (matchCount v) in
                 c <- current ;;
                 if isSectionAdornment c then
                   c <- current ;;
                   if negb (lastAdornment v =? 0)
                      && negb (c =? lastAdornment v)
                   then ret (inr false)
                   else
                     c <- current ;;
                     next ;;
                     ret (inl (mkScan c (newLineNum v)
                                      (runePositions v ++ [c])
                                      (matchCount v + 1)))
                 else next ;; ret (inl v)
             end) (mkScan 0 0 [] 0) ;;
      match r with
      | inr b => exit b
      | inl v =>
          if (Z.of_nat (length (runePositions v)) =? 0)
             || negb (matchCount v =? lookPositions)
          then exit false
          else exit true
      end.

Inductive stateFn : Type :=
| lexStartFn
| lexSpaceFn
| lexSectionFn
| lexTitleFn
| lexSectionAdornmentFn.

(** One round of the [for] loop of [lexStart]: [inl tt] goes round again,
    [inr (Some f)] is [return f], [inr None] is the [break] at eof. *)
Definition lexStart_body (fuel : nat) (_ : unit)
  : LexM (unit + option stateFn) :=
  p <- gets pos ;; st <- gets start ;;
  let tokenLength := p - st in
  r <- current ;;
  let advance_or_break : LexM (unit + option stateFn) :=
    n <- next ;; if n =? eof then ret (inr None) else ret (inl tt) in
  if tokenLength =? 1 then
    if isEndOfLine r then
      emit itemBlankLine ;;
      st <- gets start ;; modify (set_start (st + 1)) ;;
      advance_or_break
    else if isSpace r then ret (inr (Some lexSpaceFn))
    else
      b <- isSection fuel ;;
      if b : bool then ret (inr (Some lexSectionFn)) else advance_or_break
  else if isEndOfLine r then
    p <- gets pos ;; st <- gets start ;;
    (if st <? p then
       emit itemParagraph ;;
       st <- gets start ;; modify (set_start (st + 1))
     else if st =? p then emit itemBlankLine
     else ret tt) ;;
    advance_or_break
  else advance_or_break.

(** lexStart is the first stateFn called by run(). *)
Definition lexStart (fuel : nat) : LexM (option stateFn) :=
  r <- loop fuel (lexStart_body fuel) tt ;;
  match r with
  | Some f => ret (Some f)
  | None =>
      p <- gets pos ;; st <- gets start ;;
      (if st <? p then emit itemParagraph else ret tt) ;;
      emit itemEOF ;;
      ret None
  end.

(** lexSpace consumes space characters and emits an itemSpace token. *)
Definition lexSpace (fuel : nat) : LexM (option stateFn) :=
  loop fuel (fun _ : unit =>
    c <- current ;;
    if isSpace c then next ;; ret (inl tt) else ret (inr tt)) tt ;;
  st <- gets start ;; p <- gets pos ;;
  (if st <? p then emit itemSpace ;; next ;; ret tt else ret tt) ;;
  ret (Some lexStartFn).

(** One round of the loop shared by [lexTitle] and [lexSectionAdornment]:
    [true] when the token has been emitted and the loop is left. *)
Definition lexLine_body (t : itemElement) (_ : unit) : LexM (unit + unit) :=
  next ;;
  p <- peek ;;
  if p =? LF then
    emit t ;;
    st <- gets start ;; modify (set_start (st + 1)) ;;
    p <- gets pos ;; modify (set_pos (p + 1)) ;;
    ret (inr tt)
  else ret (inl tt).

(** lexTitle consumes input until newline and emits an itemTitle token. *)
Definition lexTitle (fuel : nat) : LexM (option stateFn) :=
  loop fuel (lexLine_body itemTitle) tt ;;
  ret (Some lexSectionFn).

(** lexSectionAdornment advances the lexer until a newline is encountered
    and emits an itemSectionAdornment token. *)
Definition lexSectionAdornment (fuel : nat) : LexM (option stateFn) :=
  loop fuel (lexLine_body itemSectionAdornment) tt ;;
  ret (Some lexSectionFn).

(** [unicode.IsPrint] below [unicode.MaxASCII]: U+0020 to U+007E. *)
Definition MaxASCII : Z := 127.
Definition IsPrint (r : Z) : bool := (32 <=? r) && (r <=? 126).

(** lexSection is used after isSection() has determined that the next
    runes of input are a section. *)
Definition lexSection (fuel : nat) : LexM (option stateFn) :=
  r <- next ;;
  if isSectionAdornment r then
    li <- gets lastItem ;;
    match li with
    | None => panic
    | Some it =>
        if negb (bool_decide (ElementType it = itemTitle))
        then ret (Some lexSectionAdornmentFn)
        else lexSectionAdornment fuel ;; ret (Some lexStartFn)
    end
  else if isSpace r then ret (Some lexSpaceFn)
  else if (r <=? MaxASCII) && IsPrint r then ret (Some lexTitleFn)
  else if isEndOfLine r then
    st <- gets start ;; modify (set_start (st + 1)) ;; ret (Some lexStartFn)
  else ret (Some lexStartFn).

Definition call (f : stateFn) (fuel : nat) : LexM (option stateFn) :=
  match f with
  | lexStartFn => lexStart fuel
  | lexSpaceFn => lexSpace fuel
  | lexSectionFn => lexSection fuel
  | lexTitleFn => lexTitle fuel
  | lexSectionAdornmentFn => lexSectionAdornment fuel
  end.

(** run is the engine of the lexing process. *)
Definition run (fuel : nat) : LexM unit :=
  loop fuel (fun f : stateFn =>
    r <- call f fuel ;;
    match r with
    | Some f' => ret (inl f')
    | None => ret (inr tt)
    end) lexStartFn.

(** lex is the entry point of the lexer: the lexer it creates, after
    [run] has been given [fuel] rounds for each of its loops. *)
Definition lex (fuel : nat) (name input : string) : outcome unit * lexer :=
  run fuel (mkLexer name input 0 0 0 [] None).

(* ===================================================================== *)
(** ** Nodes *)
(* ===================================================================== *)

Inductive systemMessageLevel : Type :=
| levelInfo
| levelWarning
| levelError
| levelSevere.

Definition systemMessageLevel_String (s : systemMessageLevel) : string :=
  match s with
  | levelInfo => "INFO"
  | levelWarning => "WARNING"
  | levelError => "ERROR"
  | levelSevere => "SEVERE"
  end.

Inductive parserMessage : Type :=
| warningShortUnderline
| errorUnexpectedSectionTitle
| errorUnexpectedSectionTitleOrTransition.

Definition Message (p : parserMessage) : string :=
  match p with
  | warningShortUnderline => "Title underline too short."
  | errorUnexpectedSectionTitle => "Unexpected section title."
  | errorUnexpectedSectionTitleOrTransition =>
      "Unexpected section title or transition."
  end.

Definition Level_of (p : parserMessage) : systemMessageLevel :=
  match p with
  | warningShortUnderline => levelWarning
  | errorUnexpectedSectionTitle => levelSevere
  | errorUnexpectedSectionTitleOrTransition => levelSevere
  end.

Inductive NodeType : Type :=
| NodeSection
| NodeBlockQuote
| NodeSystemMessage
| NodeLiteralBlock
| NodeParagraph
| NodeBlankLine
| NodeAdornment.

(** Section and block-quote nodes are shared and updated in place (the
    tree, the section-level registry and the insertion target all point to
    them): they live in a heap and are named by their address.  The other
    nodes are never changed once built and are carried by value. *)
Definition addr : Type := nat.

Record AdornmentNode : Type := mkAdornment {
  adorn_Id : Z;
  Rune : Z;
  adorn_Length : Z;
  adorn_Line : Z;
  adorn_StartPosition : Z
}.

Record ParagraphNode : Type := mkParagraph {
  para_Id : Z;
  para_Text : string;
  para_Length : Z;
  para_Line : Z;
  para_StartPosition : Z
}.

Record LiteralBlockNode : Type := mkLiteralBlock {
  lit_Id : Z;
  lit_Text : string;
  lit_Length : Z;
  lit_Line : Z;
  lit_StartPosition : Z
}.

Inductive Node : Type :=
| SectionRef (a : addr)
| BlockQuoteRef (a : addr)
| Paragraph (p : ParagraphNode)
| LiteralBlock (b : LiteralBlockNode)
| SystemMessage (msg_Id : Z) (severity : systemMessageLevel) (msg_Line : Z)
                (msg_NodeList : list Node).

Definition NodeList : Type := list Node.

Record SectionNode : Type := mkSection {
  sec_Id : Z;
  Text : string;
  Level : Z;
  sec_Length : Z;
  sec_StartPosition : Z;
  sec_Line : Z;
  OverLine : option AdornmentNode;
  UnderLine : AdornmentNode;
  sec_NodeList : NodeList
}.

Record BlockQuoteNode : Type := mkBlockQuote {
  quote_Id : Z;
  quote_Level : Z;
  quote_Line : Z;
  quote_StartPosition : Z;
  quote_NodeList : NodeList
}.

Inductive cell : Type :=
| SectionCell (s : SectionNode)
| BlockQuoteCell (b : BlockQuoteNode).

Definition Node_NodeType (n : Node) : NodeType :=
  match n with
  | SectionRef _ => NodeSection
  | BlockQuoteRef _ => NodeBlockQuote
  | Paragraph _ => NodeParagraph
  | LiteralBlock _ => NodeLiteralBlock
  | SystemMessage _ _ _ _ => NodeSystemMessage
  end.

Definition set_Level (v : Z) (s : SectionNode) : SectionNode :=
  mkSection (sec_Id s) (Text s) v (sec_Length s) (sec_StartPosition s)
            (sec_Line s) (OverLine s) (UnderLine s) (sec_NodeList s).

Definition cell_append (n : Node) (c : cell) : cell :=
  match c with
  | SectionCell s =>
      SectionCell (mkSection (sec_Id s) (Text s) (Level s) (sec_Length s)
                     (sec_StartPosition s) (sec_Line s) (OverLine s)
                     (UnderLine s) (sec_NodeList s ++ [n]))
  | BlockQuoteCell b =>
      BlockQuoteCell (mkBlockQuote (quote_Id b) (quote_Level b) (quote_Line b)
                        (quote_StartPosition b) (quote_NodeList b ++ [n]))
  end.

(* ===================================================================== *)
(** ** The parser *)
(* ===================================================================== *)

(** What the parser can still receive from the lexer: the tokens the lexer
    sends, and what becomes of the lexer after the last of them. *)
Inductive ending : Type :=
| Finished
| Crashed
| Spinning.

Record tokens : Type := mkTokens {
  pending : list item;
  after : ending
}.

(** The tokens of a lexer run. *)
Definition tokens_of (r : outcome unit * lexer) : tokens :=
  mkTokens (items (snd r))
           (match fst r with
            | Ok _ => Finished
            | Panic => Crashed
            | Timeout => Spinning
            | Blocked => Finished
            end).

(** Where [t.nodeTarget] points: to the root list [t.Nodes], to the
    [NodeList] field of a node in the heap, or to the list [New] creates
    for it, which nothing else refers to. *)
Inductive target : Type :=
| toOwn (l : NodeList)
| toRoot
| toNodeList (a : addr).

(** The diagnostics [errorf] appends to [t.Errors].  The formatted text
    starts with the tree's name and the line the running lexer has reached;
    only the message and its arguments are kept here. *)
Inductive diagnostic : Type :=
| NotImplemented (t : itemElement)
| OverLineLength
| OverLineMismatch
| PreviouslyParsed (text : string) (rune : Z).

Definition tokenZero : Z := 3.
Definition indentWidth_default : Z := 4.

Record Tree : Type := mkTree {
  Name : string;
  Nodes : NodeList;
  nodeTarget : target;
  Errors : list diagnostic;
  text : string;
  lex_tokens : option tokens;
  tokenBackupCount : Z;
  tokenPeekCount : Z;
  token : list (option item);
  sectionLevels : list addr;
  id : Z;
  indentWidth : Z;
  indentLevel : Z;
  heap : list cell
}.

Definition ParseM := M Tree.

Definition set_Nodes v t := mkTree (Name t) v (nodeTarget t) (Errors t)
  (text t) (lex_tokens t) (tokenBackupCount t) (tokenPeekCount t) (token t)
  (sectionLevels t) (id t) (indentWidth t) (indentLevel t) (heap t).
Definition set_nodeTarget v t := mkTree (Name t) (Nodes t) v (Errors t)
  (text t) (lex_tokens t) (tokenBackupCount t) (tokenPeekCount t) (token t)
  (sectionLevels t) (id t) (indentWidth t) (indentLevel t) (heap t).
Definition set_Errors v t := mkTree (Name t) (Nodes t) (nodeTarget t) v
  (text t) (lex_tokens t) (tokenBackupCount t) (tokenPeekCount t) (token t)
  (sectionLevels t) (id t) (indentWidth t) (indentLevel t) (heap t).
Definition set_text v t := mkTree (Name t) (Nodes t) (nodeTarget t) (Errors t)
  v (lex_tokens t) (tokenBackupCount t) (tokenPeekCount t) (token t)
  (sectionLevels t) (id t) (indentWidth t) (indentLevel t) (heap t).
Definition set_lex v t := mkTree (Name t) (Nodes t) (nodeTarget t) (Errors t)
  (text t) v (tokenBackupCount t) (tokenPeekCount t) (token t)
  (sectionLevels t) (id t) (indentWidth t) (indentLevel t) (heap t).
Definition set_tokenBackupCount v t := mkTree (Name t) (Nodes t)
  (nodeTarget t) (Errors t) (text t) (lex_tokens t) v (tokenPeekCount t)
  (token t) (sectionLevels t) (id t) (indentWidth t) (indentLevel t) (heap t).
Definition set_tokenPeekCount v t := mkTree (Name t) (Nodes t)
  (nodeTarget t) (Errors t) (text t) (lex_tokens t) (tokenBackupCount t) v
  (token t) (sectionLevels t) (id t) (indentWidth t) (indentLevel t) (heap t).
Definition set_token v t := mkTree (Name t) (Nodes t) (nodeTarget t)
  (Errors t) (text t) (lex_tokens t) (tokenBackupCount t) (tokenPeekCount t) v
  (sectionLevels t) (id t) (indentWidth t) (indentLevel t) (heap t).
Definition set_sectionLevels v t := mkTree (Name t) (Nodes t) (nodeTarget t)
  (Errors t) (text t) (lex_tokens t) (tokenBackupCount t) (tokenPeekCount t)
  (token t) v (id t) (indentWidth t) (indentLevel t) (heap t).
Definition set_id v t := mkTree (Name t) (Nodes t) (nodeTarget t) (Errors t)
  (text t) (lex_tokens t) (tokenBackupCount t) (tokenPeekCount t) (token t)
  (sectionLevels t) v (indentWidth t) (indentLevel t) (heap t).
Definition set_indentLevel v t := mkTree (Name t) (Nodes t) (nodeTarget t)
  (Errors t) (text t) (lex_tokens t) (tokenBackupCount t) (tokenPeekCount t)
  (token t) (sectionLevels t) (id t) (indentWidth t) v (heap t).
Definition set_heap v t := mkTree (Name t) (Nodes t) (nodeTarget t)
  (Errors t) (text t) (lex_tokens t) (tokenBackupCount t) (tokenPeekCount t)
  (token t) (sectionLevels t) (id t) (indentWidth t) (indentLevel t) v.

Definition New (name : string) : Tree :=
  mkTree name [] (toOwn []) [] "" None 0 0 (replicate 7 None) [] 0
         indentWidth_default 0 [].

(** [t.errorf(format, args...)] *)
Definition errorf (d : diagnostic) : ParseM unit :=
  e <- gets Errors ;; modify (set_Errors (e ++ [d])).

(** Dereferencing a pointer that may be nil. *)
Definition deref {St A} (p : option A) : M St A :=
  match p with
  | Some a => ret a
  | None => panic
  end.

(** [x.(string)] on an [interface{}]. *)
Definition assert_string {St} (v : option string) : M St string := deref v.

(** [a[i]] and [a[i] = v] on an array or slice with a run-time index. *)
Definition at_index {St A} (a : list A) (i : Z) : M St A :=
  if 0 <=? i then deref (a !! Z.to_nat i) else panic.

(** [t.token[i]] read and written. *)
Definition token_get (i : Z) : ParseM (option item) :=
  tk <- gets token ;; at_index tk i.

Definition token_set (i : Z) (v : option item) : ParseM unit :=
  tk <- gets token ;;
  at_index tk i ;;
  modify (set_token (<[Z.to_nat i := v]> tk)).

(** nextItem returns the next item from the input: a receive on the
    lexer's channel.  When nothing is pending, the parser shares the fate
    of the lexer; after a lexer that has returned it waits for ever. *)
Definition nextItem : ParseM item :=
  lx <- gets lex_tokens ;;
  toks <- deref lx ;;
  match pending toks with
  | i :: rest => modify (set_lex (Some (mkTokens rest (after toks)))) ;; ret i
  | [] =>
      match after toks with
      | Finished => fun t => (Blocked, t)
      | Crashed => panic
      | Spinning => fun t => (Timeout, t)
      end
  end.

(** A round of a counted loop that has no early return: its value goes to
    the next round. *)
Definition keep {St A} (m : M St A) : M St (A + Empty_set) :=
  x <- m ;; ret (inl x).

(** What such a loop leaves in its variables. *)
Definition result_of {St A} (r : A + Empty_set) : M St A :=
  match r with
  | inl a => ret a
  | inr e => match e with end
  end.

(** [t.backup()]: the lexer has a [backup] of its own. *)
Definition backup_tok : ParseM (option item) :=
  bc <- gets tokenBackupCount ;;
  modify (set_tokenBackupCount (bc + 1)) ;;
  r <- for_count 6 0 (fun k (_ : unit) =>
         let i := 6 - k in
         v <- token_get (i - 1) ;;
         token_set i v ;;
         keep (token_set (i - 1) None)) tt ;;
  result_of r ;;
  bc <- gets tokenBackupCount ;;
  token_get (tokenZero - bc).

(** [t.peekBack(pos)] *)
Definition peekBack (p : Z) : ParseM (option item) :=
  token_get (tokenZero - p).

(** [t.peek(pos)] *)
Definition peek_tok (p : Z) : ParseM (option item) :=
  if p <? 1 then panic
  else
    r <- for_count (Z.to_nat p) 0 (fun i (_ : option item) =>
           pc <- gets tokenPeekCount ;;
           if i <? pc then keep (token_get (tokenZero + i))
           else
             x <- token_get (tokenZero + pc + i + 1) ;;
             match x with
             | None =>
                 modify (set_tokenPeekCount (pc + 1)) ;;
                 pc <- gets tokenPeekCount ;;
                 it <- nextItem ;;
                 token_set (tokenZero + pc + i) (Some it) ;;
                 keep (token_get (tokenZero + pc + i))
             | Some _ => keep (token_get (tokenZero + pc + i))
             end) None ;;
    result_of r.

(** skip shifts the pointers left in t.token. *)
Definition skip (num : Z) : ParseM unit :=
  r <- for_count (Z.to_nat num) 0 (fun _ (_ : unit) =>
         r <- for_count 6 0 (fun x (_ : unit) =>
                v <- token_get (x + 1) ;;
                token_set x v ;;
                keep (token_set (x + 1) None)) tt ;;
         keep (result_of r)) tt ;;
  result_of r.

(** [t.next()] *)
Definition next_tok : ParseM (option item) :=
  pc <- gets tokenPeekCount ;;
  (if 0 <? pc then skip pc
   else skip 1 ;; it <- nextItem ;; token_set tokenZero (Some it)) ;;
  modify (set_tokenBackupCount 0) ;;
  modify (set_tokenPeekCount 0) ;;
  token_get tokenZero.

(** *** Node constructors *)

Definition fresh_id : ParseM Z :=
  i <- gets id ;; modify (set_id (i + 1)) ;; ret (i + 1).

Definition alloc (c : cell) : ParseM addr :=
  h <- gets heap ;; modify (set_heap (h ++ [c])) ;; ret (length h).

Definition load_section (a : addr) : ParseM SectionNode :=
  h <- gets heap ;;
  match h !! a with
  | Some (SectionCell s) => ret s
  | _ => panic
  end.

Definition store_section (a : addr) (s : SectionNode) : ParseM unit :=
  h <- gets heap ;; modify (set_heap (<[a := SectionCell s]> h)).

(** [rune(s[0])] *)
Definition first_byte {St} (s : string) : M St Z :=
  match s with
  | EmptyString => panic
  | String c _ => ret (byteZ c)
  end.

Definition newAdornment (i : item) : ParseM AdornmentNode :=
  s <- assert_string (Value i) ;;
  r <- first_byte s ;;
  n <- fresh_id ;;
  ret (mkAdornment n r (Length i) (Line i) (Position i)).

(** Modelled from the spec: the constructor [newSection(title, overAdorn,
    underAdorn, &t.id)] the parser calls is not among the sources (the
    [newSection] of [parse/node.go] belongs to an earlier parser and takes
    the level as an argument).  The section takes text, length, position
    and line from the title token; the overline is optional and the
    underline required; the level is left for the registry to assign;
    every node built draws the next identifier from the shared counter. *)
Definition newSection (title overAdorn : option item) (underAdorn : item)
  : ParseM addr :=
  ti <- deref title ;;
  txt <- assert_string (Value ti) ;;
  n <- fresh_id ;;
  over <- match overAdorn with
          | Some o =>
              match Value o with
              | Some _ => a <- newAdornment o ;; ret (Some a)
              | None => ret None
              end
          | None => ret None
          end ;;
  under <- newAdornment underAdorn ;;
  alloc (SectionCell (mkSection n txt 0 (Length ti) (Position ti) (Line ti)
                        over under [])).

(** Modelled from the spec: [newParagraph(i, &t.id)], absent from the
    sources like the three constructors after it; [parse/node.go] has the
    earlier one, without the identifier. *)
Definition newParagraph (i : item) : ParseM ParagraphNode :=
  txt <- assert_string (Value i) ;;
  n <- fresh_id ;;
  ret (mkParagraph n txt (Length i) (Line i) (Position i)).

(** Modelled from the spec: [newLiteralBlock(i, &t.id)]. *)
Definition newLiteralBlock (i : item) : ParseM LiteralBlockNode :=
  txt <- assert_string (Value i) ;;
  n <- fresh_id ;;
  ret (mkLiteralBlock n txt (Length i) (Line i) (Position i)).

(** Modelled from the spec: [newSystemMessage(i, level, &t.id)], a node
    with a severity, the line of [i] and no children yet. *)
Definition newSystemMessage (i : item) (level : systemMessageLevel)
  : ParseM (Z * systemMessageLevel * Z) :=
  n <- fresh_id ;;
  ret (n, level, Line i).

(** Modelled from the spec: [newBlockQuote(i, level, &t.id)]. *)
Definition newBlockQuote (i : item) (level : Z) : ParseM addr :=
  n <- fresh_id ;;
  alloc (BlockQuoteCell (mkBlockQuote n level (Line i) (Position i) [])).

(** An item literal [&item{...}]: the fields left out are zero. *)
Definition item_lit (t : itemElement) (line length : Z) (v : option string)
  : item := mkItem "" t 0 line length v.

(** *** The section-level registry *)

Fixpoint FindByRune_from (s : list addr) (adornChar : Z)
  : ParseM (option addr) :=
  match s with
  | [] => ret None
  | a :: rest =>
      sec <- load_section a ;;
      if Rune (UnderLine sec) =? adornChar then ret (Some a)
      else FindByRune_from rest adornChar
  end.

(** Returns nil if not found *)
Definition FindByRune (adornChar : Z) : ParseM (option addr) :=
  s <- gets sectionLevels ;; FindByRune_from s adornChar.

(** If exists == true, a section node with the same text and underline has
    been found in sectionLevels, sec is the matching SectionNode.  If
    exists == false, then the sec return value is the similarly leveled
    SectionNode.  If exists == false and sec == nil, then the SectionNode
    added to sectionLevels is a new Node. *)
Definition Add (section : addr) : ParseM (bool * option addr) :=
  new <- load_section section ;;
  found <- FindByRune (Rune (UnderLine new)) ;;
  match found with
  | Some a =>
      sec <- load_section a ;;
      if String.eqb (Text sec) (Text new) then ret (true, Some a)
      else
        store_section section (set_Level (Level sec) new) ;;
        s <- gets sectionLevels ;;
        modify (set_sectionLevels (s ++ [section])) ;;
        ret (false, Some a)
  | None =>
      s <- gets sectionLevels ;;
      store_section section (set_Level (Z.of_nat (length s) + 1) new) ;;
      modify (set_sectionLevels (s ++ [section])) ;;
      ret (false, None)
  end.

(** *** Building the tree *)

Definition is_type (t : itemElement) (i : item) : bool :=
  bool_decide (ElementType i = t).

(** [t.systemMessage(err)]: the message node, with its explanation and
    the offending text. *)
Definition systemMessage (err : parserMessage) : ParseM Node :=
  cur <- token_get tokenZero ;;
  cur <- deref cur ;;
  s <- newSystemMessage (item_lit itemSystemMessage (Line cur) 0 None)
                        (Level_of err) ;;
  msg <- newParagraph (item_lit itemEOF 0 (len (Message err))
                                (Some (Message err))) ;;
  lb <- match err with
        | warningShortUnderline | errorUnexpectedSectionTitle =>
            b <- peekBack 1 ;;
            b <- deref b ;;
            let backToken :=
              if is_type itemSpace b then tokenZero - 2 else tokenZero - 1 in
            bt <- token_get backToken ;;
            bt <- deref bt ;;
            t1 <- assert_string (Value bt) ;;
            t2 <- assert_string (Value cur) ;;
            let lbText := (t1 ++ nl ++ t2)%string in
            ret (lbText, len lbText + 1)
        | errorUnexpectedSectionTitleOrTransition =>
            t2 <- assert_string (Value cur) ;;
            ret (t2, len t2)
        end ;;
  lb <- newLiteralBlock (item_lit itemLiteralBlock 0 (snd lb) (Some (fst lb))) ;;
  let '(n, level, line) := s in
  ret (SystemMessage n level line [Paragraph msg; LiteralBlock lb]).

(** The first part of [section]: the look behind the adornment.  [inr] is
    an early return, [inl] the values of [overline] and [overAdorn]. *)
Definition section_lookback : ParseM (bool * option item + Node) :=
  pb <- peekBack 1 ;;
  match pb with
  | Some b =>
      if is_type itemSpace b then
        b2 <- peekBack 2 ;;
        b2 <- deref b2 ;;
        if is_type itemTitle b2 then
          n <- systemMessage errorUnexpectedSectionTitle ;; ret (inr n)
        else
          n <- systemMessage errorUnexpectedSectionTitleOrTransition ;;
          ret (inr n)
      else if is_type itemTitle b then
        b2 <- peekBack 2 ;;
        match b2 with
        | Some b2 =>
            if is_type itemSectionAdornment b2 then ret (inl (true, Some b))
            else ret (inl (false, None))
        | None => ret (inl (false, None))
        end
      else ret (inl (false, None))
  | None => ret (inl (false, None))
  end.

(** [t.section(i)], called with the adornment token just consumed. *)
Definition section (i : item) : ParseM Node :=
  r <- section_lookback ;;
  match r with
  | inr n => ret n
  | inl (overline, overAdorn) =>
      title <- peekBack 1 ;;
      let underAdorn := i in
      if is_type itemSpace underAdorn then
        backup_tok ;; systemMessage errorUnexpectedSectionTitle
      else
        (if overline : bool then
           ti <- deref title ;;
           oa <- deref overAdorn ;;
           if negb (Length ti =? Length oa) then errorf OverLineLength
           else if negb (bool_decide (Value oa = Value underAdorn))
                then errorf OverLineMismatch
                else ret tt
         else ret tt) ;;
        sec <- newSection title overAdorn underAdorn ;;
        added <- Add sec ;;
        let '(exists_, eSec) := added in
        (match eSec with
         | Some _ =>
             s <- load_section sec ;;
             if exists_ : bool then
               errorf (PreviouslyParsed (Text s) (Rune (UnderLine s)))
             else
               levels <- gets sectionLevels ;;
               a <- at_index levels (Level s - 2) ;;
               modify (set_nodeTarget (toNodeList a))
         | None => ret tt
         end) ;;
        ti <- deref title ;;
        (if negb (Length ti =? Length underAdorn) then
           sysMessage <- systemMessage warningShortUnderline ;;
           s <- load_section sec ;;
           store_section sec
             (mkSection (sec_Id s) (Text s) (Level s) (sec_Length s)
                (sec_StartPosition s) (sec_Line s) (OverLine s) (UnderLine s)
                (sec_NodeList s ++ [sysMessage]))
         else ret tt) ;;
        ret (SectionRef sec)
  end.

(** [t.indent(i)]: [None] is the nil node. *)
Definition indent (i : item) : ParseM (option Node) :=
  w <- gets indentWidth ;;
  if w =? 0 then panic
  else
    let level := Z.quot (Length i) w in
    b <- peekBack 1 ;;
    b <- deref b ;;
    if is_type itemBlankLine b then
      il <- gets indentLevel ;;
      if il =? level then ret None
      else
        modify (set_indentLevel level) ;;
        a <- newBlockQuote (item_lit itemBlockquote (Line i) 0 None) level ;;
        ret (Some (BlockQuoteRef a))
    else ret None.

(** [t.nodeTarget.append(n)] *)
Definition append_to_target (n : Node) : ParseM unit :=
  tg <- gets nodeTarget ;;
  match tg with
  | toOwn l => modify (set_nodeTarget (toOwn (l ++ [n])))
  | toRoot => ns <- gets Nodes ;; modify (set_Nodes (ns ++ [n]))
  | toNodeList a =>
      h <- gets heap ;;
      c <- deref (h !! a) ;;
      modify (set_heap (<[a := cell_append n c]> h))
  end.

(** The end of a round of [parse] that has produced the node [n]. *)
Definition parse_append (n : Node) : ParseM (unit + unit) :=
  append_to_target n ;;
  match n with
  | SectionRef a | BlockQuoteRef a =>
      modify (set_nodeTarget (toNodeList a)) ;; ret (inl tt)
  | _ => ret (inl tt)
  end.

(** One round of the loop of [parse]: [inr tt] leaves the loop. *)
Definition parse_body (_ : unit) : ParseM (unit + unit) :=
  p <- peek_tok 1 ;;
  p <- deref p ;;
  if is_type itemEOF p then ret (inr tt)
  else
    tk <- next_tok ;;
    tk <- deref tk ;;
    match ElementType tk with
    | itemSectionAdornment => n <- section tk ;; parse_append n
    | itemParagraph => n <- newParagraph tk ;; parse_append (Paragraph n)
    | itemSpace =>
        n <- indent tk ;;
        match n with
        | None => ret (inl tt)
        | Some n => parse_append n
        end
    | itemTitle | itemBlankLine => ret (inl tt)
    | itemEOF => ret (inr tt)
    | e => errorf (NotImplemented e) ;; ret (inl tt)
    end.

(** [t.parse(tree)] *)
Definition parse (fuel : nat) : ParseM unit :=
  modify (set_nodeTarget toRoot) ;;
  loop fuel parse_body tt.

(** [t.Parse(text, treeSet)]: starts the lexer and parses its tokens. *)
Definition Tree_Parse (fuel : nat) (txt : string) : ParseM (list diagnostic) :=
  nm <- gets Name ;;
  modify (set_lex (Some (tokens_of (lex fuel nm txt)))) ;;
  modify (set_text txt) ;;
  parse fuel ;;
  gets Errors.

(** *** The entry point

    [Parse] brings the text to the normalization form NFC with
    [golang.org/x/text/unicode/norm] before anything else; the two
    functions of that package it calls are parameters here. *)
Record normalizer : Type := mkNormalizer {
  IsNormalString : string -> bool;
  NFC_String : string -> string
}.

(** Parse is the entry point for the reStructuredText parser. *)
Definition Parse (NFC : normalizer) (fuel : nat) (name txt : string)
  : outcome (list diagnostic) * Tree :=
  let t := New name in
  let txt := if negb (IsNormalString NFC txt) then NFC_String NFC txt
             else txt in
  let t := set_text txt t in
  Tree_Parse fuel txt t.

(** A model of [norm.NFC] on the texts of the examples: the letter e followed
    by the combining acute accent U+0301 (bytes 65 CC 81) is composed to
    U+00E9 (bytes C3 A9); everything else, all ASCII text in particular, is
    left as it is. *)
Fixpoint compose_e_acute (s : string) : string :=
  match s with
  | EmptyString => EmptyString
  | String c rest =>
      match rest with
      | String c1 (String c2 rest2) =>
          if (byteZ c =? 0x65) && (byteZ c1 =? 0xCC) && (byteZ c2 =? 0x81)
          then String (ascii_of_nat 195) (String (ascii_of_nat 169)
                                            (compose_e_acute rest2))
          else String c (compose_e_acute rest)
      | _ => String c (compose_e_acute rest)
      end
  end.

Definition NFC_model : normalizer :=
  mkNormalizer (fun s => String.eqb (compose_e_acute s) s) compose_e_acute.

(** The texts of the scenarios. *)
Definition scenario1 : string := ("Title" ++ nl ++ "=====" ++ nl)%string.
Definition scenario2 : string := ("Title" ++ nl ++ "===" ++ nl)%string.
Definition scenario3 : string := ("=====" ++ nl)%string.
Definition scenario4 : string :=
  ("A" ++ nl ++ "=" ++ nl ++ nl ++ "B" ++ nl ++ "=" ++ nl)%string.
Definition no_final_newline : string := ("Title" ++ nl ++ "=====")%string.

(** The title token of ["Title\n====="], and what the lexer can have sent
    of that text: the title token at most. *)
Definition title_token : item := mkItem "itemTitle" itemTitle 1 1 5 (Some "Title").
Definition sent_before_spin (l : lexer) : Prop :=
  items l = [] \/ items l = [title_token].

(** Two sections with the same rune and titles long enough to be lexed as
    titles: registering the second one makes [section] index the registry
    at [sec.Level-2], which is -1. *)
Definition two_sections : string :=
  ("AAA" ++ nl ++ "===" ++ nl ++ nl ++ "BBB" ++ nl ++ "===" ++ nl)%string.

(** [wp F m Q s]: run from [s], [m] returns a value and a state that
    satisfy [Q]; when it does not return, [F] holds.  With [F := True] this
    is partial correctness, with [F := False] the computation returns. *)
Definition wp {St A} (F : Prop) (m : M St A) (Q : A -> St -> Prop) (s : St)
  : Prop :=
  match m s with
  | (Ok a, s') => Q a s'
  | _ => F
  end.

(** [keeps I m]: [m] leaves the state within [I], whether it returns or
    not. *)
Definition keeps {St A} (I : St -> Prop) (m : M St A) : Prop :=
  forall s, I s -> I (snd (m s)).

(** The node [systemMessage err] builds. *)
Definition is_message (err : parserMessage) (n : Node) : Prop :=
  exists i line p lb,
    n = SystemMessage i (Level_of err) line [Paragraph p; LiteralBlock lb]
    /\ para_Text p = Message err.

(** What [emit] records of a token cut from [inp]: [Position] is the offset
    of its first byte in the whole input plus one, [Length] its length in
    bytes, and [Line] one plus the number of newlines of the input before
    the last byte of the token. *)
Definition token_ok (inp : string) (it : item) : Prop :=
  exists v before,
    Value it = Some v /\
    slice inp (Position it - 1) (Position it - 1 + Length it) = Some v /\
    slice inp 0 (Position it + Length it - 2) = Some before /\
    Line it = 1 + count_nl before.

Definition lexer_inv (inp : string) (l : lexer) : Prop :=
  input l = inp /\ Forall (token_ok inp) (items l).

(** The column, counted from 1, of the byte at offset [off] within its
    line, and the line, counted from 1, that byte is on. *)
Fixpoint column_from (col : Z) (off : nat) (s : string) : Z :=
  match off, s with
  | S n, String c rest =>
      column_from (if byteZ c =? LF then 1 else col + 1) n rest
  | _, _ => col
  end.

Definition column_of (s : string) (off : Z) : Z :=
  column_from 1 (Z.to_nat off) s.

Definition line_of (s : string) (off : Z) : Z :=
  1 + count_nl (substring 0 (Z.to_nat off) s).

(** Positions as columns and lines as the line of the first byte: what the
    specification says of every token, for the offset [off] the token
    starts at. *)
Definition column_positions : Prop :=
  forall fuel name txt it,
    In it (items (snd (lex fuel name txt))) ->
    exists off,
      slice txt off (off + Length it) = Value it /\
      Position it = column_of txt off /\
      Line it = line_of txt off.

Definition scenario1_adornment : item :=
  mkItem "itemSectionAdornment" itemSectionAdornment 7 2 5 (Some "=====").

(** A run of white space that spans two newlines. *)
Definition spaced : string := ("a " ++ nl ++ nl ++ " b")%string.

(** Text that is not in the form NFC: "cafe" followed by the combining
    acute accent U+0301, and a newline. *)
Definition decomposed : string :=
  ("cafe" ++ String (ascii_of_nat 204) (String (ascii_of_nat 129) nl))%string.

(** The text [Parse] hands to the lexer and stores in the tree. *)
Definition normalized (NFC : normalizer) (txt : string) : string :=
  if IsNormalString NFC txt then txt else NFC_String NFC txt.

(** The claim that the stored text is the argument, whatever it is. *)
Definition never_normalizes : Prop :=
  forall NFC fuel name txt, text (snd (Parse NFC fuel name txt)) = txt.

(** The tree of scenario 2 at the call of [section]: title and underline
    are in the window. *)
Definition scenario2_title : item :=
  mkItem "itemTitle" itemTitle 1 1 5 (Some "Title").
Definition scenario2_adornment : item :=
  mkItem "itemSectionAdornment" itemSectionAdornment 7 2 3 (Some "===").
Definition scenario2_at_section : Tree :=
  snd ((peek_tok 1 ;; next_tok ;; peek_tok 1 ;; next_tok)
         (set_nodeTarget toRoot
            (set_lex (Some (tokens_of (lex 20 "doc" scenario2)))
               (set_text scenario2 (New "doc"))))).

(** *** The token window during a parse *)

(** The token [j] places behind the one to come, when [k] tokens of
    [toks] have been consumed. *)
Definition behind (toks : list item) (k j : nat) : option item :=
  if (j <=? k)%nat then toks !! (k - j)%nat else None.

(** The window after [k] tokens: the last four consumed, the newest in
    slot [tokenZero], nothing ahead, and the lexer about to send token
    [k]. *)
Definition window (toks : list item) (e : ending) (k : nat) (t : Tree)
  : Prop :=
  tokenPeekCount t = 0 /\
  lex_tokens t = Some (mkTokens (drop k toks) e) /\
  token t = [behind toks k 4; behind toks k 3; behind toks k 2;
             behind toks k 1; None; None; None].

(** The states in which a round of the loop of [parse] begins, when the
    lexer sends [toks] and then ends as [e]: the tree [parse] starts
    from, its window empty, and the tree each completed round leaves.
    The index counts the rounds made. *)
Inductive parsing (toks : list item) (e : ending) : nat -> Tree -> Prop :=
| parsing_start (t : Tree) :
    token t = replicate 7 None ->
    tokenPeekCount t = 0 ->
    lex_tokens t = Some (mkTokens toks e) ->
    parsing toks e 0 t
| parsing_round (k : nat) (t t' : Tree) :
    parsing toks e k t ->
    parse_body tt t = (Ok (inl tt), t') ->
    parsing toks e (S k) t'.

(** What a part of [parse] that does not touch the window leaves alone. *)
Definition same_window (t0 t : Tree) : Prop :=
  token t = token t0 /\
  tokenPeekCount t = tokenPeekCount t0 /\
  lex_tokens t = lex_tokens t0.

(** The tree [Tree_Parse] has made when [parse] enters its loop on
    scenario 1. *)
Definition scenario1_start : Tree :=
  set_nodeTarget toRoot
    (set_text scenario1
       (set_lex (Some (tokens_of (lex 20 "doc" scenario1)))
          (set_text scenario1 (New "doc")))).

(** *** The cursor of the lexer *)

Definition in_range (l : lexer) : Prop := 0 <= pos l <= len (input l).

(** [l'] is [l] with the cursor further on, nothing else changed. *)
Definition moved (l l' : lexer) : Prop :=
  exists p w, l' = set_width w (set_pos p l) /\ pos l <= p <= len (input l).

(** The lexer of scenario 1 at the first call of [isSection]. *)
Definition scenario1_lookahead : lexer :=
  mkLexer "doc" scenario1 1 0 1 [] None.

(** *** The registry, read as a table *)

(** Every address of the registry names a section. *)
Definition registered (t : Tree) : Prop :=
  forall a, In a (sectionLevels t) ->
            exists s, heap t !! a = Some (SectionCell s).

(** The first section of the registry [s] whose underline has the rune
    [r], with its address. *)
Fixpoint find_rune (h : list cell) (s : list addr) (r : Z)
  : option (addr * SectionNode) :=
  match s with
  | [] => None
  | a :: rest =>
      match h !! a with
      | Some (SectionCell sec) =>
          if Rune (UnderLine sec) =? r then Some (a, sec)
          else find_rune h rest r
      | _ => None
      end
  end.

(** The tree after [Add] has registered the section at [a] with the
    level [v]. *)
Definition register (a : addr) (new : SectionNode) (v : Z) (t : Tree) : Tree :=
  set_sectionLevels (sectionLevels t ++ [a])
    (set_heap (<[a := SectionCell (set_Level v new)]> (heap t)) t).

(** The underline runes of the registered sections, in registration
    order. *)
Definition registered_runes (t : Tree) : list Z :=
  omap (fun a => match heap t !! a with
                 | Some (SectionCell s) => Some (Rune (UnderLine s))
                 | _ => None
                 end) (sectionLevels t).

(** The sections of a heap, in the order in which they were built. *)
Definition sections_of (h : list cell) : list SectionNode :=
  omap (fun c => match c with
                 | SectionCell s => Some s
                 | BlockQuoteCell _ => None
                 end) h.

(** Levels by first use, as the specification has them: a rune has the
    rank of its first appearance among the distinct runes. *)
Fixpoint first_use_rank (seen : list Z) (r : Z) : Z :=
  match seen with
  | [] => 1
  | x :: rest => if x =? r then 1 else 1 + first_use_rank rest r
  end.

Fixpoint first_use_levels (seen runes : list Z) : list Z :=
  match runes with
  | [] => []
  | r :: rest =>
      first_use_rank seen r
      :: first_use_levels (if existsb (Z.eqb r) seen then seen else seen ++ [r])
           rest
  end.

Definition levels_by_first_use : Prop :=
  forall fuel name txt errs t,
    Tree_Parse fuel txt (set_text txt (New name)) = (Ok errs, t) ->
    map Level (sections_of (heap t))
    = first_use_levels [] (map (fun s => Rune (UnderLine s))
                               (sections_of (heap t))).

(** Four sections with four titles, set apart by blank lines: a first
    rune, a second rune used twice, a third rune. *)
Definition four_sections : string :=
  ("AAA" ++ nl ++ "===" ++ nl ++ nl ++ "BBB" ++ nl ++ "---" ++ nl ++ nl ++
   "CCC" ++ nl ++ "---" ++ nl ++ nl ++ "DDD" ++ nl ++ "~~~" ++ nl)%string.

(** The same title under the same rune, twice. *)
Definition same_title_twice : string :=
  ("AAA" ++ nl ++ "===" ++ nl ++ nl ++ "AAA" ++ nl ++ "===" ++ nl)%string.


(** A title of two characters and an underline without final newline. *)
Definition short_title : string := ("AA" ++ nl ++ "==")%string.

(** [refines m m']: whatever [m] returns, [m'] returns as well. *)
Definition refines {St A} (m m' : M St A) : Prop :=
  forall s a s', m s = (Ok a, s') -> m' s = (Ok a, s').
(* ===================================================================== *)
(** ** Further properties: definitions *)
(* ===================================================================== *)

(** The ASCII punctuation: the code points between the blocks of space,
    digits, capitals, small letters and DEL. *)
Definition ascii_punctuation (r : Z) : Prop :=
  33 <= r <= 47 \/ 58 <= r <= 64 \/ 91 <= r <= 96 \/ 123 <= r <= 126.

(** *** The tokens as slices of the input *)

(** The offset just behind a token. *)
Definition token_end (it : item) : Z := Position it - 1 + Length it.

(** The tokens lie in the input one after the other, from offset [from]
    on: each begins where the one before it ends, or later. *)
Fixpoint laid_out (from : Z) (its : list item) : Prop :=
  match its with
  | [] => True
  | it :: rest =>
      from <= Position it - 1 /\ 0 <= Length it /\ laid_out (token_end it) rest
  end.

(** The offset just behind the last of the tokens. *)
Fixpoint end_of (from : Z) (its : list item) : Z :=
  match its with
  | [] => from
  | it :: rest => end_of (token_end it) rest
  end.

(** The tokens sent lie in order, the start of the token in the making
    behind them. *)
Definition in_order (l : lexer) : Prop :=
  laid_out 0 (items l) /\ end_of 0 (items l) <= start l.

(** A token without bytes sits at the end of the input. *)
Definition empty_at_end (inp : string) (it : item) : Prop :=
  Length it = 0 -> Position it - 1 = len inp.

(** No token sent is an EOF token; the last token sent is an EOF token and
    the only one. *)
Definition no_EOF (l : lexer) : Prop :=
  Forall (fun it => ElementType it <> itemEOF) (items l).

Definition ends_with_EOF (l : lexer) : Prop :=
  exists before last,
    items l = before ++ [last] /\ ElementType last = itemEOF /\
    Forall (fun it => ElementType it <> itemEOF) before.

(** *** The token window, slot by slot *)

(** A window with the current token in slot [tokenZero], three tokens
    behind it and nothing ahead, the lexer about to send [toks]. *)
Definition clean_window (w0 w1 w2 w3 : option item) (toks : list item)
    (e : ending) (t : Tree) : Prop :=
  token t = [w0; w1; w2; w3; None; None; None] /\
  tokenPeekCount t = 0 /\
  lex_tokens t = Some (mkTokens toks e).

(** What [skip] makes of a window of seven slots. *)
Definition shifted (num : Z) (tk : list (option item)) : list (option item) :=
  take 7 (drop (Z.to_nat num) tk ++ replicate 7 None).

(** The tree of scenario 1 when [parse] has consumed the title: the
    underline and the EOF token are still to come. *)
Definition scenario1_after_title : Tree :=
  snd ((peek_tok 1 ;; next_tok) scenario1_start).

(** *** Parses that come to an end *)

(** An outcome that is a return or a panic: the computation has neither
    run out of rounds nor is it left waiting for the lexer. *)
Definition settled {A} (o : outcome A) : Prop :=
  match o with
  | Ok _ | Panic => True
  | Timeout | Blocked => False
  end.

Definition settles {St A} (m : M St A) : Prop :=
  forall s, settled (fst (m s)).

(** A text that begins with two spaces. *)
Definition indented : string := ("  a" ++ nl)%string.

Definition indented_start : Tree :=
  set_lex (Some (tokens_of (lex 20 "doc" indented)))
    (set_text indented (New "doc")).

(** *** Texts without sections *)

(** The tokens of plain text: paragraphs, and the titles and blank lines
    [parse] passes over. *)
Definition plain (x : item) : bool :=
  match ElementType x with
  | itemParagraph => match Value x with Some _ => true | None => false end
  | itemTitle | itemBlankLine => true
  | _ => false
  end.

(** The paragraph nodes of the paragraph tokens among [toks], numbered
    from [i + 1] on. *)
Fixpoint paragraphs_of (i : Z) (toks : list item) : list Node :=
  match toks with
  | [] => []
  | x :: rest =>
      match ElementType x, Value x with
      | itemParagraph, Some v =>
          Paragraph (mkParagraph (i + 1) v (Length x) (Line x) (Position x))
          :: paragraphs_of (i + 1) rest
      | _, _ => paragraphs_of i rest
      end
  end.

(** Two paragraphs with a blank line between them. *)
Definition two_paragraphs : string :=
  ("ab" ++ nl ++ nl ++ "cd" ++ nl)%string.

Definition two_paragraphs_start : Tree :=
  set_lex (Some (tokens_of (lex 20 "doc" two_paragraphs)))
    (set_text two_paragraphs (New "doc")).

(** *** Runes and levels *)


(** The tree of [two_sections] when [section] is called for the second
    underline: four tokens consumed, the first section registered. *)
Definition two_sections_at_second : Tree :=
  snd ((peek_tok 1 ;; next_tok)
         (snd (loop 4 parse_body tt
                 (set_nodeTarget toRoot
                    (set_lex (Some (tokens_of (lex 20 "doc" two_sections)))
                       (set_text two_sections (New "doc"))))))).

Definition second_underline : item :=
  mkItem "itemSectionAdornment" itemSectionAdornment 14 5 3 (Some "===").

(** *** What a parse only adds to *)

(** From [t0] to [t] the diagnostics, the root list and the registry have
    only been appended to, the heap has not shrunk and the identifier
    counter has not gone back. *)
Definition grows (t0 t : Tree) : Prop :=
  Errors t0 `prefix_of` Errors t /\
  Nodes t0 `prefix_of` Nodes t /\
  sectionLevels t0 `prefix_of` sectionLevels t /\
  (length (heap t0) <= length (heap t))%nat /\
  id t0 <= id t.

(** The token made of the first byte of a text, as a blank line. *)
Definition first_byte_as_blank_line (c : ascii) : item :=
  mkItem "itemBlankLine" itemBlankLine 1 1 1 (Some (String c EmptyString)).

(** The tokens sent begin with [it]. *)
Definition begins_with (it : item) (l : lexer) : Prop :=
  exists more, items l = it :: more.

(** The EOF token of scenario 1. *)
Definition scenario1_EOF : item :=
  mkItem "itemEOF" itemEOF 13 2 0 (Some EmptyString).

(** The tokens of [indented] and of [two_paragraphs]. *)
Definition indented_space : item :=
  mkItem "itemSpace" itemSpace 1 1 2 (Some "  ").
Definition indented_rest : list item :=
  [mkItem "itemBlankLine" itemBlankLine 3 1 1 (Some "a");
   mkItem "itemEOF" itemEOF 5 1 0 (Some EmptyString)].

Definition two_paragraphs_tokens : list item :=
  [mkItem "itemParagraph" itemParagraph 1 1 2 (Some "ab");
   mkItem "itemBlankLine" itemBlankLine 4 2 1 (Some nl);
   mkItem "itemParagraph" itemParagraph 5 3 2 (Some "cd")].
Definition two_paragraphs_EOF : item :=
  mkItem "itemEOF" itemEOF 8 3 0 (Some EmptyString).

(** The second title of [two_sections], the blank line before it and the
    section registered for the first title. *)
Definition second_title : item :=
  mkItem "itemTitle" itemTitle 10 4 3 (Some "BBB").
Definition blank_line_between : item :=
  mkItem "itemBlankLine" itemBlankLine 9 3 1 (Some nl).
Definition first_section : SectionNode :=
  mkSection 1 "AAA" 1 3 1 1 None (mkAdornment 2 61 3 2 5) [].
(* ===================================================================== *)
(** ** Reasoning about computations *)
(* ===================================================================== *)


Section WP.
Context {St : Type} (F : Prop).

Lemma wp_ret {A} (a : A) (Q : A -> St -> Prop) s : Q a s -> wp F (ret a) Q s.
Proof. intros H; exact H. Qed.

Lemma wp_gets {A} (f : St -> A) (Q : A -> St -> Prop) s :
  Q (f s) s -> wp F (gets f) Q s.
Proof. intros H; exact H. Qed.

Lemma wp_modify (f : St -> St) (Q : unit -> St -> Prop) s :
  Q tt (f s) -> wp F (modify f) Q s.
Proof. intros H; exact H. Qed.

Lemma wp_panic {A} (Q : A -> St -> Prop) s : F -> wp F (@panic St A) Q s.
Proof. intros H; exact H. Qed.

Lemma wp_bind {A B} (m : M St A) (f : A -> M St B) (Q : B -> St -> Prop) s :
  wp F m (fun a s1 => wp F (f a) Q s1) s -> wp F (bind m f) Q s.
Proof.
  unfold wp, bind. destruct (m s) as [[a| | |] s1]; auto.
Qed.

Lemma wp_mono {A} (m : M St A) (Q Q' : A -> St -> Prop) s :
  wp F m Q s -> (forall a s', Q a s' -> Q' a s') -> wp F m Q' s.
Proof.
  unfold wp. destruct (m s) as [[a| | |] s1]; auto.
Qed.

Lemma wp_eq {A} (m : M St A) (Q : A -> St -> Prop) s a s' :
  m s = (Ok a, s') -> Q a s' -> wp F m Q s.
Proof. unfold wp. intros ->. auto. Qed.

Lemma wp_deref {A} (p : option A) (Q : A -> St -> Prop) s :
  (forall a, p = Some a -> Q a s) -> (p = None -> F) -> wp F (deref p) Q s.
Proof. destruct p; cbn; auto. Qed.

Lemma wp_for_count {A B} (I : Z -> A -> St -> Prop) (Q : A + B -> St -> Prop)
    (body : Z -> A -> M St (A + B)) n :
  (forall i a s, I i a s ->
     wp F (body i a)
        (fun r s' => match r with
                     | inl a' => I (i + 1) a' s'
                     | inr b => Q (inr b) s'
                     end) s) ->
  (forall i a s, I i a s -> Q (inl a) s) ->
  forall i a s, I i a s -> wp F (for_count n i body a) Q s.
Proof.
  intros Hbody Hend. induction n as [|n IH]; intros i a s HI.
  - apply wp_ret. eauto.
  - cbn [for_count]. apply wp_bind.
    eapply wp_mono; [apply Hbody; exact HI|].
    intros [a'|b] s' H; [apply IH; exact H | apply wp_ret; exact H].
Qed.
End WP.

Lemma wp_use {St A} (m : M St A) (Q : A -> St -> Prop) s a s' :
  wp True m Q s -> m s = (Ok a, s') -> Q a s'.
Proof. unfold wp. intros H E. rewrite E in H. exact H. Qed.

Lemma wp_returns {St A} (m : M St A) (Q : A -> St -> Prop) s :
  wp False m Q s -> exists a s', m s = (Ok a, s') /\ Q a s'.
Proof.
  unfold wp. destruct (m s) as [[a| | |] s1]; try tauto. eauto.
Qed.

Lemma wp_weaken {St A} (F : Prop) (m : M St A) (Q : A -> St -> Prop) s :
  wp False m Q s -> wp F m Q s.
Proof. unfold wp. destruct (m s) as [[a| | |] s1]; tauto. Qed.

(** Partial correctness of a loop from an invariant. *)
Lemma wp_loop {St A B} (I : A -> St -> Prop) (Q : B -> St -> Prop)
    (body : A -> M St (A + B)) fuel :
  (forall a s, I a s ->
     wp True (body a)
        (fun r s' => match r with inl a' => I a' s' | inr b => Q b s' end) s) ->
  forall a s, I a s -> wp True (loop fuel body a) Q s.
Proof.
  intros Hbody. induction fuel as [|fuel IH]; intros a s HI; [exact Logic.I|].
  specialize (Hbody a s HI). unfold wp in *. cbn [loop].
  destruct (body a s) as [[[a'|b]| | |] s1]; auto.
  apply IH. exact Hbody.
Qed.

(** A loop returns when a measure of its state decreases at each round. *)
Lemma wp_loop_total {St A B} (I : A -> St -> Prop) (mu : A -> St -> nat)
    (Q : B -> St -> Prop) (body : A -> M St (A + B)) :
  (forall a s, I a s ->
     wp False (body a)
        (fun r s' => match r with
                     | inl a' => I a' s' /\ (mu a' s' < mu a s)%nat
                     | inr b => Q b s'
                     end) s) ->
  forall fuel a s, I a s -> (mu a s < fuel)%nat ->
                   wp False (loop fuel body a) Q s.
Proof.
  intros Hbody. induction fuel as [|fuel IH]; intros a s HI Hlt; [lia|].
  specialize (Hbody a s HI). unfold wp in *. cbn [loop].
  destruct (body a s) as [[[a'|b]| | |] s1]; auto.
  destruct Hbody as [HI' Hmu]. apply IH; [exact HI'|lia].
Qed.

Ltac wp_step :=
  lazymatch goal with
  | |- wp _ (bind _ _) _ _ => apply wp_bind
  | |- wp _ (ret _) _ _ => apply wp_ret
  | |- wp _ (gets _) _ _ => apply wp_gets
  | |- wp _ (modify _) _ _ => apply wp_modify
  | |- wp True panic _ _ => exact Logic.I
  end; cbn beta.

Ltac wp_steps := repeat wp_step.

Ltac wp_inv E :=
  lazymatch goal with
  | |- wp _ ?m _ ?s =>
      unfold wp at 1; destruct (m s) as [[?| | |] ?] eqn:E;
      [|try exact Logic.I ..]
  end.

Ltac monad_unfold :=
  unfold assert_string, at_index, deref, bind, gets, modify, panic, ret in *.

Ltac monad_crush := monad_unfold; repeat (case_match; simplify_eq/=).

(** *** Invariants *)

Section Keeps.
Context {St : Type} (I : St -> Prop).

Lemma keeps_ret {A} (a : A) : keeps I (@ret St A a).
Proof. intros s H; exact H. Qed.

Lemma keeps_gets {A} (f : St -> A) : keeps I (gets f).
Proof. intros s H; exact H. Qed.

Lemma keeps_panic {A} : keeps I (@panic St A).
Proof. intros s H; exact H. Qed.

Lemma keeps_modify (f : St -> St) :
  (forall s, I s -> I (f s)) -> keeps I (modify f).
Proof. intros Hf s H. apply Hf, H. Qed.

Lemma keeps_bind {A B} (m : M St A) (f : A -> M St B) :
  keeps I m -> (forall a, keeps I (f a)) -> keeps I (bind m f).
Proof.
  intros Hm Hf s H. specialize (Hm s H). unfold bind.
  destruct (m s) as [[a| | |] s1]; cbn [snd] in *; auto.
  apply Hf, Hm.
Qed.

Lemma keeps_loop {A B} (body : A -> M St (A + B)) fuel :
  (forall a, keeps I (body a)) -> forall a, keeps I (loop fuel body a).
Proof.
  intros Hb. induction fuel as [|fuel IH]; intros a s H; [exact H|].
  specialize (Hb a s H). cbn [loop].
  destruct (body a s) as [[[a'|b]| | |] s1]; cbn [snd] in *; auto.
  apply IH, Hb.
Qed.

Lemma keeps_for_count {A B} (body : Z -> A -> M St (A + B)) n :
  (forall i a, keeps I (body i a)) ->
  forall i a, keeps I (for_count n i body a).
Proof.
  intros Hb. induction n as [|n IH]; intros i a; [apply keeps_ret|].
  cbn [for_count]. apply keeps_bind; [apply Hb|].
  intros [a'|b]; [apply IH | apply keeps_ret].
Qed.

Lemma keeps_deref {A} (p : option A) : keeps I (@deref St A p).
Proof. destruct p; [apply keeps_ret | apply keeps_panic]. Qed.

Lemma keeps_const {A} (r : outcome A) : keeps I (fun s : St => (r, s)).
Proof. intros s H; exact H. Qed.
End Keeps.

Ltac head_of t :=
  lazymatch t with
  | ?f _ => head_of f
  | _ => t
  end.

(** Decomposes a computation down to the [modify] steps it is made of,
    where [side] must show that the invariant is kept; [known] closes the
    computations for which a lemma is at hand. *)
Ltac keeps_with known side :=
  repeat
    (intros;
     lazymatch goal with
     | |- keeps _ (bind _ _) => apply keeps_bind
     | |- keeps _ (ret _) => apply keeps_ret
     | |- keeps _ (gets _) => apply keeps_gets
     | |- keeps _ panic => apply keeps_panic
     | |- keeps _ (deref _) => apply keeps_deref
     | |- keeps _ (fun s => (_, s)) => apply keeps_const
     | |- keeps _ (modify _) => apply keeps_modify; solve [side]
     | |- keeps _ (loop _ _ _) => apply keeps_loop
     | |- keeps _ (for_count _ _ _ _) => apply keeps_for_count
     | |- keeps _ (if ?b then _ else _) => destruct b eqn:?
     | |- keeps _ (match ?x with _ => _ end) => destruct x eqn:?
     | |- keeps _ ?m =>
         first [ solve [known]
               | let h := head_of m in unfold h ]
     end).


Lemma fuel_from (k fuel : nat) : (k <= fuel)%nat -> exists n, fuel = (k + n)%nat.
Proof. intros H. exists (fuel - k)%nat. lia. Qed.

(** C3.  On ["Title\n=====\n"], given twelve rounds or more for each loop,
    the parse returns without error: the list of diagnostics is empty, the
    root list holds one node, a Section, and that Section has level 1,
    text "Title", length 5, no overline, an underline of rune 61 (the
    equals sign) and length 5, and no child. *)
Theorem scenario1_section (NFC : normalizer) (name : string) (fuel : nat) :
  IsNormalString NFC scenario1 = true ->
  (12 <= fuel)%nat ->
  let r := Parse NFC fuel name scenario1 in
  fst r = Ok [] /\
  Errors (snd r) = [] /\
  Nodes (snd r) = [SectionRef 0%nat] /\
  heap (snd r) =
    [SectionCell (mkSection 1 "Title" 1 5 1 1 None (mkAdornment 2 61 5 2 7) [])].
Proof.
  intros HN Hf. destruct (fuel_from _ _ Hf) as [n ->].
  unfold Parse. rewrite HN. cbn [negb].
  vm_compute. auto.
Qed.

(** ** Running loops on concrete states *)

Ltac run_concrete :=
  lazymatch goal with
  | |- ?L = _ =>
      let v := eval vm_compute in L in
      transitivity v; [vm_compute; reflexivity | reflexivity]
  end.

Lemma loop_timeout_via {St A B} (P : St -> Prop) (body : A -> M St (A + B))
    a s a' s' :
  body a s = (Ok (inl a'), s') ->
  P s ->
  (forall fuel, exists s2, loop fuel body a' s' = (Timeout, s2) /\ P s2) ->
  forall fuel, exists s2, loop fuel body a s = (Timeout, s2) /\ P s2.
Proof.
  intros Hb HP Hrest [|fuel]; [exists s; split; [reflexivity|exact HP]|].
  cbn [loop]. rewrite Hb. apply Hrest.
Qed.

Lemma loop_timeout_fix {St A B} (P : St -> Prop) (body : A -> M St (A + B))
    a s :
  body a s = (Ok (inl a), s) ->
  P s ->
  forall fuel, exists s2, loop fuel body a s = (Timeout, s2) /\ P s2.
Proof.
  intros Hb HP fuel. induction fuel as [|fuel IH].
  - exists s. split; [reflexivity|exact HP].
  - cbn [loop]. rewrite Hb. exact IH.
Qed.

Lemma loop_timeout_now {St A B} (P : St -> Prop) (body : A -> M St (A + B))
    a s s' :
  body a s = (Timeout, s') ->
  P s -> P s' ->
  forall fuel, exists s2, loop fuel body a s = (Timeout, s2) /\ P s2.
Proof.
  intros Hb HP HP' [|fuel]; [exists s; split; [reflexivity|exact HP]|].
  cbn [loop]. rewrite Hb. exists s'. split; [reflexivity|exact HP'].
Qed.

Lemma bind_timeout {St A B} (m : M St A) (f : A -> M St B) s s' :
  m s = (Timeout, s') -> bind m f s = (Timeout, s').
Proof. intros H. unfold bind. rewrite H. reflexivity. Qed.


(** The adornment loop entered on ["Title\n====="] passes the end of the
    input and then repeats one and the same state. *)
Lemma lexSectionAdornment_spins (name : string) :
  forall fuel, exists l',
    lexSectionAdornment fuel
      (mkLexer name no_final_newline 7 6 1 [title_token] (Some title_token))
    = (Timeout, l') /\ items l' = [title_token].
Proof.
  intros fuel. unfold lexSectionAdornment.
  destruct (loop_timeout_via (B := unit) (fun l => items l = [title_token])
              (lexLine_body itemSectionAdornment) tt
              (mkLexer name no_final_newline 7 6 1 [title_token]
                 (Some title_token))
              tt (mkLexer name no_final_newline 8 6 1 [title_token]
                 (Some title_token))) with (fuel := fuel) as (l' & Hl & Hi).
  - vm_compute. reflexivity.
  - reflexivity.
  - eapply loop_timeout_via; [run_concrete | reflexivity |].
    eapply loop_timeout_via; [run_concrete | reflexivity |].
    eapply loop_timeout_via; [run_concrete | reflexivity |].
    eapply loop_timeout_fix; [vm_compute; reflexivity | reflexivity].
  - exists l'. split; [|exact Hi]. apply bind_timeout. exact Hl.
Qed.


Lemma lex_no_final_newline_spins (name : string) (fuel : nat) :
  exists l', lex fuel name no_final_newline = (Timeout, l')
             /\ sent_before_spin l'.
Proof.
  do 4 (destruct fuel as [|fuel];
        [eexists; split; [vm_compute; reflexivity | vm_compute; auto]|]).
  unfold lex, run.
  remember (S (S (S (S fuel)))) as F eqn:HF.
  destruct (lexSectionAdornment_spins name F) as (l' & Hl & Hi).
  revert F HF Hl. intros F HF Hl.
  refine (loop_timeout_via sent_before_spin _ _ _ _ _ _ _ _ F).
  - subst F. run_concrete.
  - left; reflexivity.
  - eapply (loop_timeout_via sent_before_spin);
      [subst F; run_concrete | left; reflexivity |].
    eapply (loop_timeout_via sent_before_spin);
      [subst F; run_concrete | left; reflexivity |].
    eapply (loop_timeout_now sent_before_spin) with (s' := l').
    + apply bind_timeout. cbn [call].
      transitivity
        (bind (lexSectionAdornment F) (fun _ => ret (Some lexStartFn))
           (mkLexer name no_final_newline 7 6 1 [title_token]
              (Some title_token))); [reflexivity|].
      apply bind_timeout. exact Hl.
    + right; reflexivity.
    + right; exact Hi.
Qed.

(** On ["AA\n=="] it is the loop of [lexTitle] that runs past the end of
    the input: its first [l.next()] steps over the newline of the title. *)
Lemma lexTitle_spins (name : string) :
  forall fuel, exists l',
    lexTitle fuel (mkLexer name short_title 2 0 1 [] None) = (Timeout, l')
    /\ items l' = [].
Proof.
  intros fuel. unfold lexTitle.
  destruct (loop_timeout_via (B := unit) (fun l => items l = [])
              (lexLine_body itemTitle) tt
              (mkLexer name short_title 2 0 1 [] None)
              tt (mkLexer name short_title 3 0 1 [] None))
    with (fuel := fuel) as (l' & Hl & Hi).
  - vm_compute. reflexivity.
  - reflexivity.
  - eapply loop_timeout_via; [run_concrete | reflexivity |].
    eapply loop_timeout_via; [run_concrete | reflexivity |].
    eapply loop_timeout_fix; [vm_compute; reflexivity | reflexivity].
  - exists l'. split; [|exact Hi]. apply bind_timeout. exact Hl.
Qed.

Lemma lex_short_title_spins (name : string) (fuel : nat) :
  exists l', lex fuel name short_title = (Timeout, l') /\ items l' = [].
Proof.
  do 3 (destruct fuel as [|fuel];
        [eexists; split; [vm_compute; reflexivity | reflexivity]|]).
  unfold lex, run.
  remember (S (S (S fuel))) as F eqn:HF.
  destruct (lexTitle_spins name F) as (l' & Hl & Hi).
  refine (loop_timeout_via (fun l => items l = []) _ _ _ _ _ _ _ _ F).
  - subst F. run_concrete.
  - reflexivity.
  - eapply (loop_timeout_via (fun l => items l = []));
      [subst F; run_concrete | reflexivity |].
    eapply (loop_timeout_now (fun l => items l = [])) with (s' := l').
    + apply bind_timeout. cbn [call]. exact Hl.
    + reflexivity.
    + exact Hi.
Qed.

Lemma Parse_normal (NFC : normalizer) (fuel : nat) (name txt : string) :
  IsNormalString NFC txt = true ->
  Parse NFC fuel name txt = Tree_Parse fuel txt (set_text txt (New name)).
Proof. intros H. unfold Parse. rewrite H. reflexivity. Qed.

Lemma scenario1_section_witness :
  IsNormalString NFC_model scenario1 = true /\ (12 <= 20)%nat /\
  fst (Parse NFC_model 20 "doc" scenario1) = Ok [].
Proof.
  split; [vm_compute; reflexivity|]. split; [lia|].
  apply (scenario1_section NFC_model "doc" 20%nat); [vm_compute; reflexivity|lia].
Defined.

(** C6.  On the bare adornment line ["=====\n"] the lexer dereferences
    [l.lastItem], which is still nil, in [lexSection]: the lexer panics
    before it has sent a token, and with it the parse; no SystemMessage is
    built. *)
Theorem bare_adornment_panics (NFC : normalizer) (name : string) (fuel : nat) :
  IsNormalString NFC scenario3 = true ->
  (2 <= fuel)%nat ->
  fst (lex fuel name scenario3) = Panic /\
  items (snd (lex fuel name scenario3)) = [] /\
  fst (Parse NFC fuel name scenario3) = Panic /\
  Nodes (snd (Parse NFC fuel name scenario3)) = [].
Proof.
  intros HN Hf. destruct (fuel_from _ _ Hf) as [n ->].
  rewrite (Parse_normal _ _ _ _ HN).
  vm_compute. auto.
Qed.

Lemma bare_adornment_panics_witness :
  IsNormalString NFC_model scenario3 = true /\ (2 <= 5)%nat /\
  fst (Parse NFC_model 5 "doc" scenario3) = Panic.
Proof.
  split; [vm_compute; reflexivity|]. split; [lia|].
  apply (bare_adornment_panics NFC_model "doc" 5%nat);
    [vm_compute; reflexivity|lia].
Defined.

(** C4.  On ["A\n=\n\nB\n=\n"] every line is one character long, and
    [lexStart] emits a one-character line as an itemBlankLine: the lexer
    sends five blank-line tokens and EOF, and the parser builds no Section
    at all. *)
Theorem scenario4_no_sections (NFC : normalizer) (name : string) (fuel : nat) :
  IsNormalString NFC scenario4 = true ->
  (10 <= fuel)%nat ->
  map ElementType (items (snd (lex fuel name scenario4))) =
    [itemBlankLine; itemBlankLine; itemBlankLine; itemBlankLine;
     itemBlankLine; itemEOF] /\
  fst (Parse NFC fuel name scenario4) = Ok [] /\
  Nodes (snd (Parse NFC fuel name scenario4)) = [] /\
  heap (snd (Parse NFC fuel name scenario4)) = [] /\
  sectionLevels (snd (Parse NFC fuel name scenario4)) = [].
Proof.
  intros HN Hf. destruct (fuel_from _ _ Hf) as [n ->].
  rewrite (Parse_normal _ _ _ _ HN).
  vm_compute. auto 6.
Qed.

Lemma scenario4_no_sections_witness :
  IsNormalString NFC_model scenario4 = true /\ (10 <= 20)%nat /\
  Nodes (snd (Parse NFC_model 20 "doc" scenario4)) = [].
Proof.
  split; [vm_compute; reflexivity|]. split; [lia|].
  apply (scenario4_no_sections NFC_model "doc" 20%nat);
    [vm_compute; reflexivity|lia].
Defined.


Lemma same_rune_sections_panic (name : string) (fuel : nat) :
  (10 <= fuel)%nat ->
  map ElementType (items (snd (lex fuel name two_sections))) =
    [itemTitle; itemSectionAdornment; itemBlankLine; itemTitle;
     itemSectionAdornment; itemEOF] /\
  fst (Tree_Parse fuel two_sections (set_text two_sections (New name)))
  = Panic.
Proof.
  intros Hf. destruct (fuel_from _ _ Hf) as [n ->].
  vm_compute. auto.
Qed.

Lemma empty_input_panics (name : string) (fuel : nat) :
  (1 <= fuel)%nat ->
  fst (lex fuel name "") = Panic /\
  fst (Tree_Parse fuel "" (set_text "" (New name))) = Panic.
Proof.
  intros Hf. destruct (fuel_from _ _ Hf) as [n ->].
  vm_compute. auto.
Qed.

(** C2.  On ["Title\n====="], which has no final newline, the loop of
    [lexSectionAdornment] never meets the newline it waits for: at the end
    of the input [l.next()] returns eof for ever.  Whatever the number of
    rounds allowed, the lexer has not returned, it has sent at most the
    title token, and the parse has no result. *)
Theorem parse_spins_without_final_newline
    (NFC : normalizer) (name : string) (fuel : nat) :
  IsNormalString NFC no_final_newline = true ->
  fst (lex fuel name no_final_newline) = Timeout /\
  fst (Parse NFC fuel name no_final_newline) = Timeout.
Proof.
  intros HN. rewrite (Parse_normal _ _ _ _ HN).
  destruct (lex_no_final_newline_spins name fuel) as (l' & Hl & Hi).
  split; [rewrite Hl; reflexivity|].
  unfold Tree_Parse, bind at 1, gets at 1. cbn [set_text New Name].
  unfold bind at 1, modify at 1. rewrite Hl. unfold tokens_of. cbn [fst snd].
  destruct Hi as [-> | ->].
  - destruct fuel as [|fuel]; vm_compute; reflexivity.
  - destruct fuel as [|[|fuel]]; vm_compute; reflexivity.
Qed.

Lemma parse_spins_without_final_newline_witness :
  IsNormalString NFC_model no_final_newline = true /\
  fst (Parse NFC_model 1000 "doc" no_final_newline) = Timeout.
Proof.
  split; [vm_compute; reflexivity|].
  apply (parse_spins_without_final_newline NFC_model "doc" 1000%nat).
  vm_compute; reflexivity.
Defined.


(** ** The text a tree holds *)

Ltac frame_side := intros ? ?; cbn; assumption.

Lemma FindByRune_from_keeps (I : Tree -> Prop) (s : list addr) (r : Z) :
  keeps I (FindByRune_from s r).
Proof.
  induction s as [|a s IH]; cbn [FindByRune_from];
    keeps_with ltac:(exact IH) frame_side.
Qed.

Lemma backup_tok_keeps_text (txt : string) :
  keeps (fun t => text t = txt) backup_tok.
Proof. keeps_with fail frame_side. Qed.

Lemma parse_keeps_text (txt : string) (fuel : nat) :
  keeps (fun t => text t = txt) (parse fuel).
Proof.
  keeps_with ltac:(apply FindByRune_from_keeps) frame_side.
Qed.

Lemma Tree_Parse_text (fuel : nat) (txt : string) (t : Tree) :
  text (snd (Tree_Parse fuel txt t)) = txt.
Proof.
  unfold Tree_Parse.
  assert (H : keeps (fun t => text t = txt)
                (parse fuel ;; gets Errors)).
  { apply keeps_bind; [apply parse_keeps_text | intros; apply keeps_gets]. }
  unfold bind at 1, gets at 1, bind at 1, modify at 1, bind at 1, modify at 1.
  apply H. reflexivity.
Qed.

(** ** The tokens the lexer emits *)

Lemma substring_len (s : string) (a n : nat) :
  (a + n <= String.length s)%nat -> String.length (substring a n s) = n.
Proof.
  revert a n. induction s as [|c s IH]; intros [|a] [|n] H; cbn in *;
    try reflexivity; try lia.
  - f_equal. apply IH. lia.
  - apply IH. lia.
  - apply IH. lia.
Qed.

Lemma slice_len (s : string) (a b : Z) (v : string) :
  slice s a b = Some v -> 0 <= a /\ a <= b /\ b <= len s /\ len v = b - a.
Proof.
  unfold slice. intros H. case_match; [|discriminate]. simplify_eq.
  repeat match goal with
         | H : _ && _ = true |- _ => apply andb_prop in H as [? ?]
         end.
  repeat split; try lia.
  unfold len in *. rewrite substring_len; lia.
Qed.

Lemma emit_keeps (inp : string) (t : itemElement) :
  keeps (lexer_inv inp) (emit t).
Proof.
  intros l [Hin Hall].
  destruct (emit t l) as [o l'] eqn:E. cbn [snd].
  unfold emit, lineNumber, input_slice in E. monad_crush.
  all: try (split; [assumption|assumption]).
  all: split; [reflexivity|]; cbn [items send set_start set_pos input] in *.
  all: try assumption.
  all: apply Forall_app; split; [assumption|]; constructor; [|constructor].
  all: repeat match goal with
         | H : slice _ _ _ = Some _ |- _ =>
             let H' := fresh in
             pose proof (slice_len _ _ _ _ H) as H'; revert H
         end; intros.
  all: unfold token_ok; cbn [Value Position Length Line];
    do 2 eexists; split; [reflexivity|].
  all: split; [|split; [|reflexivity]].
  all: match goal with
       | H : slice ?s ?a ?b = Some ?v |- slice ?s ?a' ?b' = Some ?v =>
           rewrite <- H; f_equal; lia
       end.
Qed.

Lemma input_slice_keeps (I : lexer -> Prop) (a b : Z) :
  keeps I (input_slice a b).
Proof.
  intros l H. unfold input_slice. destruct (slice (input l) a b); exact H.
Qed.

Lemma run_keeps (inp : string) (fuel : nat) : keeps (lexer_inv inp) (run fuel).
Proof.
  keeps_with ltac:(first [apply emit_keeps | apply input_slice_keeps])
             ltac:(intros ? [? ?]; split; cbn; assumption).
Qed.

(** C9 (as amended).  Every token the lexer emits, on any text and after
    any number of rounds, carries in [Position] the offset of its first
    byte in the whole input plus one (not a column of its line), in
    [Length] its length in bytes, in [Value] the bytes themselves, and in
    [Line] one plus the number of newlines among the bytes of the input
    that precede the last byte of the token. *)
Theorem emitted_token_position_and_line
    (fuel : nat) (name txt : string) (it : item) :
  In it (items (snd (lex fuel name txt))) ->
  token_ok txt it.
Proof.
  intros Hin.
  assert (H : lexer_inv txt (snd (lex fuel name txt))).
  { apply run_keeps. split; [reflexivity|constructor]. }
  destruct H as [_ H]. rewrite List.Forall_forall in H. apply H. exact Hin.
Qed.

Lemma emitted_token_position_and_line_witness :
  In scenario1_adornment (items (snd (lex 20 "doc" scenario1))) /\
  token_ok scenario1 scenario1_adornment.
Proof.
  assert (H : In scenario1_adornment (items (snd (lex 20 "doc" scenario1)))).
  { vm_compute. right; left; reflexivity. }
  split; [exact H|].
  exact (emitted_token_position_and_line 20 "doc" scenario1
           scenario1_adornment H).
Defined.

(** The underline of ["Title\n=====\n"] starts its line, yet its position is
    7: no byte of that text is at column 7. *)
Lemma positions_are_not_columns : ~ column_positions.
Proof.
  intros H.
  destruct (H 20%nat "doc" scenario1 scenario1_adornment) as (off & Hs & Hp & _).
  { vm_compute. right; left; reflexivity. }
  cbn [Length Value Position scenario1_adornment] in Hs, Hp.
  destruct (slice_len _ _ _ _ Hs) as (H0 & _ & H1 & _).
  change (len scenario1) with 12 in H1.
  assert (Hoff : off = 0 \/ off = 1 \/ off = 2 \/ off = 3 \/ off = 4 \/
                 off = 5 \/ off = 6 \/ off = 7) by lia.
  repeat (destruct Hoff as [-> | Hoff]; [vm_compute in Hp; discriminate|]).
  subst off. vm_compute in Hp. discriminate.
Qed.

(** A token that spans newlines reports the line its last byte is on: the
    white space token of ["a \n\n b"] starts on line 1 and has [Line] 3. *)
Lemma line_of_a_token_spanning_newlines :
  exists it,
    In it (items (snd (lex 20 "doc" spaced))) /\
    ElementType it = itemSpace /\ Position it = 1 /\ Length it = 5 /\
    Line it = 3 /\ line_of spaced 0 = 1.
Proof.
  eexists. split; [vm_compute; left; reflexivity|].
  vm_compute. auto 6.
Qed.

(** ** Normalization *)

(** C8 (as amended).  [Parse] does normalize: the text it hands to the
    lexer and stores in the tree is the argument when
    [norm.NFC.IsNormalString] accepts it, and [norm.NFC.String] of the
    argument otherwise. *)
Theorem Parse_normalizes
    (NFC : normalizer) (fuel : nat) (name txt : string) :
  Parse NFC fuel name txt
  = Tree_Parse fuel (normalized NFC txt)
      (set_text (normalized NFC txt) (New name)) /\
  text (snd (Parse NFC fuel name txt)) = normalized NFC txt /\
  input (snd (lex fuel name (normalized NFC txt))) = normalized NFC txt.
Proof.
  assert (E : Parse NFC fuel name txt
              = Tree_Parse fuel (normalized NFC txt)
                  (set_text (normalized NFC txt) (New name))).
  { unfold Parse, normalized. destruct (IsNormalString NFC txt); reflexivity. }
  split; [exact E|]. split.
  - rewrite E. apply Tree_Parse_text.
  - assert (H : lexer_inv (normalized NFC txt)
                  (snd (lex fuel name (normalized NFC txt)))).
    { apply run_keeps. split; [reflexivity|constructor]. }
    apply H.
Qed.

(** The text "cafe" + U+0301 is stored composed, one byte shorter. *)
Lemma Parse_changes_decomposed_text : ~ never_normalizes.
Proof.
  intros H. specialize (H NFC_model 20%nat "doc" decomposed).
  vm_compute in H. discriminate.
Qed.

(** ** Sections and their diagnostics *)

Lemma systemMessage_spec (err : parserMessage) (t : Tree) :
  wp True (systemMessage err)
     (fun n t' =>
        heap t' = heap t /\ token t' = token t /\
        sectionLevels t' = sectionLevels t /\
        exists i line p lb,
          n = SystemMessage i (Level_of err) line [Paragraph p; LiteralBlock lb]
          /\ para_Text p = Message err) t.
Proof.
  unfold wp. destruct (systemMessage err t) as [[n| | |] t'] eqn:E; auto.
  unfold systemMessage, token_get, peekBack, token_get, newSystemMessage, newParagraph,
    newLiteralBlock, fresh_id, item_lit in E.
  monad_crush; repeat split; eauto 10.
Qed.

Lemma newSection_spec title over under (t : Tree) :
  wp True (newSection title over under)
     (fun a t' =>
        a = length (heap t) /\ token t' = token t /\
        sectionLevels t' = sectionLevels t /\ 
        nodeTarget t' = nodeTarget t /\
        exists s0, heap t' = heap t ++ [SectionCell s0] /\ sec_NodeList s0 = []) t.
Proof.
  unfold wp. destruct (newSection title over under t) as [[n| | |] t'] eqn:E; auto.
  unfold newSection, newAdornment, first_byte, alloc, fresh_id in E.
  monad_crush; repeat split; eauto 10.
Qed.

Lemma FindByRune_from_spec (s : list addr) (r : Z) (t : Tree) :
  wp True (FindByRune_from s r) (fun _ t' => t' = t) t.
Proof.
  induction s as [|a s IH]; [reflexivity|].
  cbn [FindByRune_from]. apply wp_bind.
  unfold wp at 1. destruct (load_section a t) as [[n| | |] t'] eqn:E; auto.
  unfold load_section in E. monad_crush; [reflexivity | apply IH].
Qed.

Lemma Add_spec (a : addr) (t : Tree) s0 :
  heap t !! a = Some (SectionCell s0) ->
  wp True (Add a)
     (fun _ t' =>
        token t' = token t /\ nodeTarget t' = nodeTarget t /\
        length (heap t') = length (heap t) /\
        exists s, heap t' !! a = Some (SectionCell s)
                  /\ sec_NodeList s = sec_NodeList s0) t.
Proof.
  intros Ha. unfold Add. apply wp_bind.
  apply wp_eq with (a := s0) (s' := t).
  { unfold load_section. monad_unfold. rewrite Ha. reflexivity. }
  apply wp_bind. unfold FindByRune. apply wp_bind, wp_gets.
  eapply wp_mono; [apply FindByRune_from_spec|]. cbn beta.
  intros found t0 Ht0. rewrite Ht0. clear t0 Ht0.
  wp_inv E.
  unfold load_section, store_section in E. monad_crush.
  all: rewrite ?length_insert; repeat split; eauto.
  all: eexists; (rewrite list_lookup_insert_eq by (eapply lookup_lt_Some; eauto));
    split; reflexivity.
Qed.

Lemma wp_token_get (i : Z) (Q : option item -> Tree -> Prop) (t : Tree) :
  (forall v, 0 <= i -> token t !! Z.to_nat i = Some v -> Q v t) ->
  wp True (token_get i) Q t.
Proof.
  intros H. unfold wp. destruct (token_get i t) as [[n| | |] t'] eqn:E; auto.
  unfold token_get in E. monad_crush. apply H; [lia|reflexivity].
Qed.

Lemma systemMessage_spec' (err : parserMessage) (t : Tree) :
  wp True (systemMessage err)
     (fun n t' => heap t' = heap t /\ is_message err n) t.
Proof.
  eapply wp_mono; [apply systemMessage_spec|]. cbn beta. intros n t' H.
  unfold is_message. tauto.
Qed.

Lemma section_lookback_spec (t : Tree) :
  wp True section_lookback
     (fun r t' => match r with
                  | inl _ => t' = t
                  | inr n => exists err, is_message err n
                  end) t.
Proof.
  unfold section_lookback, peekBack. wp_step.
  apply wp_token_get. intros [b|] _ _; [|wp_step; reflexivity].
  destruct (is_type itemSpace b).
  - wp_step. apply wp_token_get. intros b2 _ _. wp_step.
    apply wp_deref; [|auto]. intros b2' _.
    destruct (is_type itemTitle b2'); wp_step;
      (eapply wp_mono; [apply systemMessage_spec'|]); cbn beta;
      intros n t' [_ H]; wp_step; eauto.
  - destruct (is_type itemTitle b); [|wp_step; reflexivity].
    wp_step. apply wp_token_get. intros [b2|] _ _; [|wp_step; reflexivity].
    destruct (is_type itemSectionAdornment b2); wp_step; reflexivity.
Qed.

Lemma section_short_underline (i title : item) (t : Tree) :
  token t !! 2%nat = Some (Some title) ->
  Length title <> Length i ->
  wp True (section i)
     (fun n t' =>
        forall a, n = SectionRef a ->
          exists sec m, heap t' !! a = Some (SectionCell sec)
                        /\ sec_NodeList sec = [m]
                        /\ is_message warningShortUnderline m) t.
Proof.
  intros Htitle Hlen. unfold section. wp_step.
  eapply wp_mono; [apply section_lookback_spec|]. cbn beta.
  intros [[overline overAdorn]|n] t0 H.
  2:{ wp_step. intros a ->. destruct H as (err & ? & ? & ? & ? & ? & _). discriminate. }
  subst t0. wp_step. unfold peekBack. apply wp_token_get.
  intros v _ Hv. change (Z.to_nat (tokenZero - 1)) with 2%nat in Hv.
  rewrite Htitle in Hv. injection Hv as <-.
  destruct (is_type itemSpace i).
  { wp_step. unfold wp at 1. destruct (backup_tok t) as [[x| | |] t1]; auto.
    eapply wp_mono; [apply systemMessage_spec'|]. cbn beta.
    intros n t' [_ (? & ? & ? & ? & ? & _)] a ->. discriminate. }
  wp_step.
  set (pre := fun (_ : unit) (t' : Tree) => heap t' = heap t /\ token t' = token t).
  apply wp_mono with (Q := pre).
  { subst pre. destruct overline; [|wp_step; auto].
    wp_step. apply wp_deref; [|auto]. intros ? _. wp_step.
    apply wp_deref; [|auto]. intros oa _.
    unfold errorf. repeat case_match; wp_steps; auto. }
  subst pre. cbn beta. intros _ t1 [Hh1 Ht1]. wp_step.
  eapply wp_mono; [apply newSection_spec|]. cbn beta.
  intros a t2 (-> & Ht2 & _ & _ & s0 & Hh2 & Hs0). wp_step.
  assert (Ha2 : heap t2 !! length (heap t1) = Some (SectionCell s0)).
  { rewrite Hh2. apply list_lookup_middle. reflexivity. }
  eapply wp_mono; [apply (Add_spec _ _ _ Ha2)|]. cbn beta.
  intros [exists_ eSec] t3 (Ht3 & _ & Hl3 & s3 & Hh3 & Hs3). wp_step.
  set (pre := fun (_ : unit) (t' : Tree) => heap t' = heap t3 /\ token t' = token t3).
  apply wp_mono with (Q := pre).
  { subst pre. destruct eSec as [e|]; [|wp_step; auto]. wp_step.
    unfold load_section. wp_steps. rewrite Hh3.
    unfold errorf. destruct exists_; wp_steps; auto.
    unfold at_index. destruct (0 <=? Level s3 - 2); [|exact Logic.I].
    apply wp_deref; [|auto]. intros a _. wp_step. auto. }
  subst pre. cbn beta. intros _ t4 [Hh4 Ht4]. wp_step.
  apply wp_deref; [|auto]. intros ti [= <-]. wp_step.
  destruct (Z.eqb_spec (Length title) (Length i)) as [|_]; [contradiction|].
  cbn [negb]. wp_step.
  eapply wp_mono; [apply systemMessage_spec'|]. cbn beta.
  intros m t5 [Hh5 Hm]. wp_step.
  unfold load_section. wp_steps. rewrite Hh5, Hh4, Hh3.
  unfold store_section. wp_steps.
  intros a [= <-]. cbn [heap set_heap].
  eexists _, m. split; [|split; [|exact Hm]].
  - rewrite Hh5, Hh4. apply list_lookup_insert_eq.
    rewrite Hl3. eapply lookup_lt_Some; eauto.
  - cbn [sec_NodeList]. rewrite Hs3, Hs0. reflexivity.
Qed.

(** C5.  Whenever [section] builds a Section node from an underline token
    [i] whose length differs from the length of the title token (the token
    before it in the window, [t.token[tokenZero-1]]), the child list of
    that Section holds one node: a SystemMessage of severity
    [levelWarning] whose explanation paragraph reads "Title underline too
    short.", followed in that message by the literal block. *)
Theorem short_underline_message
    (i title : item) (t t' : Tree) (a : addr) :
  token t !! 2%nat = Some (Some title) ->
  Length title <> Length i ->
  section i t = (Ok (SectionRef a), t') ->
  exists sec n line p lb,
    heap t' !! a = Some (SectionCell sec) /\
    sec_NodeList sec
      = [SystemMessage n levelWarning line [Paragraph p; LiteralBlock lb]] /\
    para_Text p = "Title underline too short.".
Proof.
  intros Htitle Hlen Hrun.
  pose proof (wp_use _ _ _ _ _ (section_short_underline i title t Htitle Hlen)
                Hrun a eq_refl) as (sec & m & Hh & Hl & n & line & p & lb & -> & Hp).
  exists sec, n, line, p, lb. auto.
Qed.

Lemma short_underline_message_witness :
  token scenario2_at_section !! 2%nat = Some (Some scenario2_title) /\
  Length scenario2_title <> Length scenario2_adornment /\
  exists sec n line p lb,
    heap (snd (section scenario2_adornment scenario2_at_section)) !! 0%nat
      = Some (SectionCell sec) /\
    sec_NodeList sec
      = [SystemMessage n levelWarning line [Paragraph p; LiteralBlock lb]] /\
    para_Text p = "Title underline too short.".
Proof.
  split; [vm_compute; reflexivity|].
  split; [vm_compute; discriminate|].
  apply (short_underline_message scenario2_adornment scenario2_title
           scenario2_at_section).
  - vm_compute; reflexivity.
  - vm_compute; discriminate.
  - vm_compute; reflexivity.
Defined.

(** Scenario 2 as a whole: one Section in the root list, and in it the
    warning. *)
Lemma scenario2_short_underline (NFC : normalizer) (name : string) (fuel : nat) :
  IsNormalString NFC scenario2 = true ->
  (12 <= fuel)%nat ->
  fst (Parse NFC fuel name scenario2) = Ok [] /\
  Nodes (snd (Parse NFC fuel name scenario2)) = [SectionRef 0%nat] /\
  heap (snd (Parse NFC fuel name scenario2)) =
    [SectionCell
       (mkSection 1 "Title" 1 5 1 1 None (mkAdornment 2 61 3 2 7)
          [SystemMessage 3 levelWarning 2
             [Paragraph (mkParagraph 4 "Title underline too short." 26 0 0);
              LiteralBlock
                (mkLiteralBlock 5 ("Title" ++ nl ++ "===")%string 10 0 0)]])].
Proof.
  intros HN Hf. destruct (fuel_from _ _ Hf) as [n ->].
  rewrite (Parse_normal _ _ _ _ HN).
  vm_compute. auto.
Qed.

(** ** The token window *)

Lemma behind_S (toks : list item) (k j : nat) :
  (1 <= j)%nat -> behind toks (S k) (S j) = behind toks k j.
Proof.
  intros Hj. unfold behind. cbn [Nat.leb Nat.sub]. reflexivity.
Qed.

Lemma behind_1 (toks : list item) (k : nat) :
  behind toks (S k) 1 = toks !! k.
Proof.
  unfold behind. cbn [Nat.leb]. f_equal. lia.
Qed.

(** From a window with nothing ahead, [peek(1)] fetches the token the lexer
    sends next, and [next()] then makes that very token the current one. *)
Lemma peek_then_next_slots (t : Tree) (w0 w1 w2 w3 : option item)
    (x : item) (rest : list item) (e : ending) :
  token t = [w0; w1; w2; w3; None; None; None] ->
  tokenPeekCount t = 0 ->
  lex_tokens t = Some (mkTokens (x :: rest) e) ->
  exists t1,
    peek_tok 1 t = (Ok (Some x), t1) /\
    next_tok t1
    = (Ok (Some x),
       set_token [w1; w2; w3; Some x; None; None; None]
         (set_lex (Some (mkTokens rest e)) (set_tokenBackupCount 0 t))).
Proof.
  intros Htk Hpc Hlx.
  destruct t; cbn [tokenPeekCount lex_tokens token] in *. subst.
  eexists. split; vm_compute; reflexivity.
Qed.

Lemma peek_then_next (toks : list item) (e : ending) (k : nat) (t : Tree)
    (x : item) :
  window toks e k t ->
  toks !! k = Some x ->
  exists t1 t2,
    peek_tok 1 t = (Ok (Some x), t1) /\
    next_tok t1 = (Ok (Some x), t2) /\
    window toks e (S k) t2 /\
    t2 = set_token (token t2)
           (set_lex (lex_tokens t2) (set_tokenBackupCount 0 t)).
Proof.
  intros (Hpc & Hlx & Htk) Hx.
  rewrite (drop_S _ _ _ Hx) in Hlx.
  destruct (peek_then_next_slots _ _ _ _ _ _ _ _ Htk Hpc Hlx) as (t1 & Hp & Hn).
  eexists t1, _. split; [exact Hp|]. split; [exact Hn|]. split.
  - unfold window. cbn [tokenPeekCount lex_tokens token set_token set_lex
                          set_tokenBackupCount].
    rewrite !behind_S by lia. rewrite behind_1, Hx. auto.
  - reflexivity.
Qed.

Ltac window_side :=
  intros ? ?; unfold window in *;
  cbn [tokenPeekCount lex_tokens token set_Nodes set_nodeTarget set_Errors
       set_text set_sectionLevels set_id set_indentLevel set_heap] in *;
  assumption.

Lemma section_keeps_window (toks : list item) (e : ending) (k : nat)
    (i : item) :
  is_type itemSpace i = false ->
  keeps (window toks e k) (section i).
Proof.
  intros Hi. unfold section. cbv zeta.
  destruct (is_type itemSpace i); [discriminate|].
  keeps_with ltac:(apply FindByRune_from_keeps) window_side.
Qed.

(** A completed round of [parse] leaves the window one token further. *)
Lemma parse_round_window (toks : list item) (e : ending) (k : nat)
    (t t' : Tree) :
  window toks e k t ->
  parse_body tt t = (Ok (inl tt), t') ->
  window toks e (S k) t'.
Proof.
  intros Hw Hb.
  destruct (toks !! k) as [x|] eqn:Hx.
  - destruct (peek_then_next _ _ _ _ _ Hw Hx) as (t1 & t2 & Hp & Hn & Hw2 & _).
    unfold parse_body in Hb. unfold bind at 1 in Hb. rewrite Hp in Hb.
    unfold bind at 1, deref at 1, ret at 1 in Hb.
    destruct (is_type itemEOF x); [discriminate|].
    unfold bind at 1 in Hb. rewrite Hn in Hb.
    unfold bind at 1, deref at 1, ret at 1 in Hb.
    lazymatch type of Hb with
    | ?m t2 = _ => assert (Hk : keeps (window toks e (S k)) m)
    end.
    { destruct (ElementType x) eqn:Ex;
        keeps_with
          ltac:(first [ apply FindByRune_from_keeps
                      | apply section_keeps_window; unfold is_type;
                        rewrite Ex; reflexivity ])
          window_side. }
    specialize (Hk t2 Hw2). rewrite Hb in Hk. exact Hk.
  - exfalso. destruct Hw as (Hpc & Hlx & Htk).
    rewrite (drop_ge toks k) in Hlx by (apply lookup_ge_None; exact Hx).
    destruct t; cbn [tokenPeekCount lex_tokens token] in *. subst.
    generalize dependent (behind toks k 1). generalize (behind toks k 2).
    generalize (behind toks k 3). generalize (behind toks k 4).
    intros o0 o1 o2 o3 Hb.
    destruct e; vm_compute in Hb; discriminate.
Qed.

Lemma parsing_window (toks : list item) (e : ending) (k : nat) (t : Tree) :
  parsing toks e k t -> window toks e k t.
Proof.
  induction 1 as [t Htk Hpc Hlx | k t t' _ IH Hb].
  - repeat split; assumption.
  - eapply parse_round_window; eassumption.
Qed.

(** C10.  In every state in which a round of [parse] begins, after [k]
    rounds, the lexer is about to send its token number [k]; [peek(1)]
    returns that token, the [next()] that follows returns the same token,
    and the lexer is then about to send token [k+1]: round after round
    [next()] delivers the tokens of the lexer in their order, none skipped
    and none twice. *)
Theorem window_delivers_tokens_in_order
    (toks : list item) (e : ending) (k : nat) (t : Tree) (x : item) :
  parsing toks e k t ->
  toks !! k = Some x ->
  lex_tokens t = Some (mkTokens (drop k toks) e) /\
  exists t1 t2,
    peek_tok 1 t = (Ok (Some x), t1) /\
    next_tok t1 = (Ok (Some x), t2) /\
    lex_tokens t2 = Some (mkTokens (drop (S k) toks) e) /\
    token t2 !! 3%nat = Some (Some x).
Proof.
  intros Hp Hx. pose proof (parsing_window _ _ _ _ Hp) as Hw.
  split; [apply Hw|].
  destruct (peek_then_next _ _ _ _ _ Hw Hx) as (t1 & t2 & H1 & H2 & Hw2 & _).
  exists t1, t2. split; [exact H1|]. split; [exact H2|].
  destruct Hw2 as (_ & Hlx & Htk). split; [exact Hlx|].
  rewrite Htk, <- Hx, <- behind_1. reflexivity.
Qed.

Lemma window_delivers_tokens_in_order_witness :
  parsing (items (snd (lex 20 "doc" scenario1))) Finished 0 scenario1_start /\
  items (snd (lex 20 "doc" scenario1)) !! 0%nat = Some title_token /\
  exists t1 t2,
    peek_tok 1 scenario1_start = (Ok (Some title_token), t1) /\
    next_tok t1 = (Ok (Some title_token), t2).
Proof.
  assert (H : parsing (items (snd (lex 20 "doc" scenario1))) Finished 0
                scenario1_start).
  { apply parsing_start; vm_compute; reflexivity. }
  assert (Hx : items (snd (lex 20 "doc" scenario1)) !! 0%nat
               = Some title_token) by (vm_compute; reflexivity).
  split; [exact H|]. split; [exact Hx|].
  destruct (window_delivers_tokens_in_order _ _ _ _ _ H Hx)
    as (_ & t1 & t2 & H1 & H2 & _).
  exists t1, t2. split; assumption.
Defined.

(** ** The section lookahead *)

Lemma byteZ_range (c : ascii) : 0 <= byteZ c < 256.
Proof.
  unfold byteZ. pose proof (N_ascii_bounded c). lia.
Qed.

Lemma decode_empty : DecodeRuneInString "" = (RuneError, 0).
Proof. reflexivity. Qed.

Lemma decode_width (c : ascii) (s : string) :
  1 <= snd (DecodeRuneInString (String c s)) <= len (String c s).
Proof.
  unfold DecodeRuneInString, len.
  repeat (case_match; cbn [snd String.length]; try lia).
Qed.

Lemma decode_nonneg (s : string) : 0 <= fst (DecodeRuneInString s).
Proof.
  unfold DecodeRuneInString, RuneError.
  repeat (case_match; cbn [fst]; try lia);
    repeat first [ apply Z.lor_nonneg; split
                 | apply Z.shiftl_nonneg
                 | apply Z.land_nonneg; right; lia
                 | apply byteZ_range ].
Qed.

Lemma slice_suffix (s : string) (p : Z) :
  0 <= p <= len s ->
  exists v, slice s p (len s) = Some v /\ len v = len s - p.
Proof.
  intros H. unfold slice.
  destruct ((0 <=? p) && (p <=? len s) && (len s <=? len s)) eqn:E.
  - eexists. split; [reflexivity|]. unfold len in *.
    rewrite substring_len; lia.
  - exfalso. rewrite !andb_false_iff in E. lia.
Qed.

Lemma len_zero (s : string) : len s = 0 -> s = "".
Proof. destruct s; [reflexivity|]. unfold len. cbn. lia. Qed.

Lemma set_cursor_twice (l : lexer) (p p' w w' : Z) :
  set_width w' (set_pos p' (set_width w (set_pos p l)))
  = set_width w' (set_pos p' l).
Proof. reflexivity. Qed.

Lemma moved_refl (l : lexer) : in_range l -> moved l (set_width (width l) l).
Proof.
  intros H. exists (pos l), (width l). split; [destruct l; reflexivity|].
  unfold in_range in H. lia.
Qed.

Lemma moved_range (l l' : lexer) :
  moved l l' -> in_range l -> in_range l' /\ input l' = input l /\ pos l <= pos l'.
Proof.
  intros (p & w & -> & Hp) Hr. unfold in_range in *.
  cbn [pos input set_width set_pos]. repeat split; lia.
Qed.

Lemma moved_trans (l l1 l2 : lexer) :
  moved l l1 -> moved l1 l2 -> moved l l2.
Proof.
  intros (p & w & -> & Hp) (p' & w' & -> & Hp').
  cbn [pos input set_width set_pos] in Hp'.
  exists p', w'. split; [apply set_cursor_twice|]. lia.
Qed.

Lemma wp_input_slice (F : Prop) (a b : Z) (Q : string -> lexer -> Prop)
    (l : lexer) (v : string) :
  slice (input l) a b = Some v -> Q v l -> wp F (input_slice a b) Q l.
Proof. intros Hv HQ. unfold wp, input_slice. rewrite Hv. exact HQ. Qed.

Lemma current_spec (l : lexer) :
  in_range l ->
  wp False current
     (fun c l' => l' = l /\ 0 <= c /\ (pos l = len (input l) -> c = RuneError))
     l.
Proof.
  intros Hr. destruct (slice_suffix _ _ Hr) as (v & Hv & Hlen).
  unfold current. wp_steps. apply (wp_input_slice _ _ _ _ _ _ Hv).
  wp_step. split; [reflexivity|]. split; [apply decode_nonneg|].
  intros E. rewrite (len_zero v) by lia. reflexivity.
Qed.

Lemma next_spec (l : lexer) :
  in_range l ->
  wp False next
     (fun r l' =>
        exists w, l' = set_width w (set_pos (pos l + w) l) /\
                  pos l + w <= len (input l) /\
                  ((pos l < len (input l) /\ 1 <= w) \/
                   (pos l = len (input l) /\ w = 0 /\ r = eof))) l.
Proof.
  intros Hr. unfold next. wp_steps.
  destruct (Z.leb_spec (len (input l)) (pos l)) as [Hge|Hlt].
  - wp_steps. exists 0. unfold in_range in Hr.
    replace (pos l + 0) with (pos l) by lia.
    split; [destruct l; reflexivity|]. split; [lia|]. right. lia.
  - destruct (slice_suffix _ _ Hr) as (v & Hv & Hlen).
    wp_step. apply (wp_input_slice _ _ _ _ _ _ Hv).
    destruct v as [|c v]; [change (len "") with 0 in Hlen; lia|].
    pose proof (decode_width c v) as Hw.
    destruct (DecodeRuneInString (String c v)) as [r w]. cbn [snd] in Hw.
    wp_steps. exists w. split; [reflexivity|]. split; [lia|]. left. lia.
Qed.

Lemma peek_spec (l : lexer) :
  in_range l ->
  wp False peek (fun _ l' => exists w, l' = set_width w l) l.
Proof.
  intros Hr. unfold peek. wp_step.
  eapply wp_mono; [apply next_spec; exact Hr|]. cbn beta.
  intros r l1 (w & -> & _ & _). unfold backup. wp_steps.
  exists w. cbn [pos width set_width set_pos]. destruct l.
  unfold set_pos, set_width. cbn. f_equal. lia.
Qed.

Lemma next_moved (l0 l : lexer) :
  in_range l0 -> moved l0 l ->
  wp False next
     (fun r l' => moved l0 l' /\
                  (r <> eof \/ pos l < len (input l) ->
                   (Z.to_nat (len (input l') - pos l')
                    < Z.to_nat (len (input l) - pos l))%nat)) l.
Proof.
  intros Hr0 Hm. destruct (moved_range _ _ Hm Hr0) as (Hr & Hin & Hle).
  eapply wp_mono; [apply next_spec; exact Hr|]. cbn beta.
  intros r l' (w & -> & Hw & Hcase). split.
  - eapply moved_trans; [exact Hm|]. exists (pos l + w), w.
    split; [reflexivity|]. unfold in_range in Hr. lia.
  - intros Hne. cbn [pos input set_width set_pos].
    destruct Hcase as [[? ?]|(? & _ & ?)]; [lia|].
    destruct Hne as [Hne|Hne]; [contradiction|lia].
Qed.

Lemma current_moved (l0 l : lexer) :
  in_range l0 -> moved l0 l ->
  wp False current
     (fun c l' => l' = l /\ 0 <= c /\ (pos l = len (input l) -> c = RuneError))
     l.
Proof.
  intros Hr0 Hm. apply current_spec. eapply moved_range; eassumption.
Qed.

Lemma peek_moved (l0 l : lexer) :
  in_range l0 -> moved l0 l ->
  wp False peek (fun _ l' => moved l0 l' /\ pos l' = pos l) l.
Proof.
  intros Hr0 Hm. destruct (moved_range _ _ Hm Hr0) as (Hr & Hin & Hle).
  eapply wp_mono; [apply peek_spec; exact Hr|]. cbn beta.
  intros _ l' (w & ->). split; [|reflexivity].
  destruct Hm as (p & w0 & -> & Hp). exists p, w. split; [reflexivity|lia].
Qed.

Lemma advance_moved (fuel : nat) (to : Z) (l0 l : lexer) :
  in_range l0 -> moved l0 l ->
  (Z.to_nat (len (input l) - pos l) < fuel)%nat ->
  wp False (advance fuel to) (fun _ l' => moved l0 l') l.
Proof.
  intros Hr0 Hm Hfuel. unfold advance.
  apply (wp_loop_total (fun _ l' => moved l0 l')
           (fun _ l' => Z.to_nat (len (input l') - pos l')));
    [|exact Hm|exact Hfuel].
  clear l Hm Hfuel. intros _ l Hm. wp_step.
  eapply wp_mono; [apply (next_moved l0 l Hr0 Hm)|]. cbn beta.
  intros r l1 [Hm1 Hdec].
  destruct (Z.eqb_spec r eof) as [|Hne]; [wp_step; exact Hm1|].
  wp_step. eapply wp_mono; [apply (current_moved l0 l1 Hr0 Hm1)|]. cbn beta.
  intros c l2 (-> & _). destruct (to =? c); wp_step; auto.
Qed.

Lemma spaces_moved (fuel : nat) (n : Z) (l0 l : lexer) :
  in_range l0 -> moved l0 l ->
  (Z.to_nat (len (input l) - pos l) < fuel)%nat ->
  wp False (isSection_spaces fuel n) (fun _ l' => moved l0 l') l.
Proof.
  intros Hr0 Hm Hfuel. unfold isSection_spaces.
  apply (wp_loop_total (fun _ l' => moved l0 l')
           (fun _ l' => Z.to_nat (len (input l') - pos l')));
    [|exact Hm|exact Hfuel].
  clear l n Hm Hfuel. intros n l Hm. wp_step.
  destruct (moved_range _ _ Hm Hr0) as (Hr & _ & _).
  eapply wp_mono; [apply (current_moved l0 l Hr0 Hm)|]. cbn beta.
  intros c l1 (-> & _ & Hend).
  destruct (isSpace c) eqn:Hsp; [|wp_step; exact Hm].
  assert (Hlt : pos l < len (input l)).
  { destruct (Z.eq_dec (pos l) (len (input l))) as [E|E].
    - rewrite (Hend E) in Hsp. discriminate.
    - unfold in_range in Hr. lia. }
  wp_step. eapply wp_mono; [apply (current_moved l0 l Hr0 Hm)|]. cbn beta.
  intros c' l1 (-> & _).
  destruct (isEndOfLine c'); [destruct (n =? 1); [wp_step; exact Hm|]|];
    wp_step;
    (eapply wp_mono; [apply (next_moved l0 l Hr0 Hm)|]); cbn beta;
    intros r l1 [Hm1 Hdec]; wp_step; auto.
Qed.

Lemma isSection_returns (fuel : nat) (l : lexer) :
  in_range l ->
  (String.length (input l) < fuel)%nat ->
  wp False (isSection fuel) (fun _ l' => exists w, l' = set_width w l) l.
Proof.
  intros Hr Hfuel.
  assert (Hbudget : forall l', moved l l' ->
            (Z.to_nat (len (input l') - pos l') < fuel)%nat).
  { intros l' Hm. destruct (moved_range _ _ Hm Hr) as (Hr' & Hin & _).
    unfold in_range, len in *. rewrite Hin. lia. }
  assert (Hexit : forall (b : bool) l', moved l l' ->
            wp False (modify (set_pos (pos l)) ;; ret b)
               (fun _ l' => exists w, l' = set_width w l) l').
  { intros b l' (p & w & -> & _). wp_steps. exists w.
    destruct l; reflexivity. }
  assert (Hsame : forall w, moved l (set_width w l)).
  { intros w. exists (pos l), w. split; [destruct l; reflexivity|].
    unfold in_range in Hr. lia. }
  unfold isSection. wp_steps.
  eapply wp_mono; [apply (current_spec l Hr)|]. cbn beta.
  intros c l1 (-> & _). wp_step.
  apply wp_mono with
    (Q := fun (_ : bool) l' => exists w, l' = set_width w l).
  { destruct (isSectionAdornment c); [|wp_step; exists (width l);
                                        destruct l; reflexivity].
    wp_step. eapply wp_mono; [apply (peek_spec l Hr)|]. cbn beta.
    intros p l1 (w & ->).
    destruct (isSectionAdornment p); [|wp_step; eauto].
    wp_step.
    eapply wp_mono; [apply (current_moved l _ Hr (Hsame w))|]. cbn beta.
    intros c2 l2 (-> & _). wp_step.
    eapply wp_mono; [apply (peek_moved l _ Hr (Hsame w))|]. cbn beta.
    intros p2 l2 [(p' & w' & -> & _) Hpos]. wp_step.
    cbn [pos set_width set_pos] in Hpos. subst p'. exists w'.
    destruct l; reflexivity. }
  cbn beta. intros two l1 (w & ->).
  destruct two; [wp_step; eauto|].
  wp_step.
  eapply wp_mono;
    [apply (advance_moved fuel LF l _ Hr (Hsame w) (Hbudget _ (Hsame w)))|].
  cbn beta. intros _ l2 Hm2. wp_step.
  eapply wp_mono; [apply (current_moved l l2 Hr Hm2)|]. cbn beta.
  intros c3 l3 (-> & Hc3 & _).
  destruct (Z.eqb_spec c3 eof) as [E|_]; [unfold eof in E; lia|].
  wp_step.
  apply wp_mono with (Q := fun (_ : sectionScan + bool) l' => moved l l').
  { apply (wp_for_count False (fun _ _ l' => moved l l')); [|auto|exact Hm2].
    clear l2 Hm2. intros j v l2 Hm2. wp_step.
    eapply wp_mono;
      [apply (spaces_moved fuel _ l l2 Hr Hm2 (Hbudget _ Hm2))|].
    cbn beta. intros [nln|b] l3 Hm3; [|wp_step; exact Hm3].
    wp_step. eapply wp_mono; [apply (current_moved l l3 Hr Hm3)|]. cbn beta.
    intros c4 l4 (-> & _).
    destruct (isSectionAdornment c4).
    - wp_step. eapply wp_mono; [apply (current_moved l l3 Hr Hm3)|].
      cbn beta. intros c5 l4 (-> & _).
      match goal with |- wp _ (if ?b then _ else _) _ _ => destruct b end;
        [wp_step; exact Hm3|].
      wp_step. eapply wp_mono; [apply (current_moved l l3 Hr Hm3)|].
      cbn beta. intros c6 l4 (-> & _). wp_step.
      eapply wp_mono; [apply (next_moved l l3 Hr Hm3)|]. cbn beta.
      intros r l4 [Hm4 _]. wp_step. exact Hm4.
    - wp_step. eapply wp_mono; [apply (next_moved l l3 Hr Hm3)|]. cbn beta.
      intros r l4 [Hm4 _]. wp_step. exact Hm4. }
  cbn beta. intros [v|b] l3 Hm3; [|apply Hexit; exact Hm3].
  match goal with |- wp _ (if ?b then _ else _) _ _ => destruct b end;
    apply Hexit; exact Hm3.
Qed.

(** More rounds do not change what a loop returns. *)
Lemma refines_refl {St A} (m : M St A) : refines m m.
Proof. intros s a s' H; exact H. Qed.

Lemma refines_bind {St A B} (m m' : M St A) (f f' : A -> M St B) :
  refines m m' -> (forall a, refines (f a) (f' a)) ->
  refines (bind m f) (bind m' f').
Proof.
  intros Hm Hf s b s' H. unfold bind in *.
  destruct (m s) as [[a| | |] s1] eqn:E; try discriminate.
  rewrite (Hm _ _ _ E). apply Hf, H.
Qed.

Lemma refines_loop {St A B} (body : A -> M St (A + B)) (fuel fuel' : nat) :
  (fuel <= fuel')%nat ->
  forall a, refines (loop fuel body a) (loop fuel' body a).
Proof.
  revert fuel'. induction fuel as [|fuel IH]; intros fuel' Hle a s b s' H;
    [discriminate|].
  destruct fuel' as [|fuel']; [lia|]. cbn [loop] in *.
  destruct (body a s) as [[[a'|b']| | |] s1]; try discriminate; [|exact H].
  apply (IH fuel'); [lia|exact H].
Qed.

Lemma refines_for_count {St A B} (body body' : Z -> A -> M St (A + B)) n :
  (forall i a, refines (body i a) (body' i a)) ->
  forall i a, refines (for_count n i body a) (for_count n i body' a).
Proof.
  intros Hb. induction n as [|n IH]; intros i a; [apply refines_refl|].
  cbn [for_count]. apply refines_bind; [apply Hb|].
  intros [a'|b]; [apply IH|apply refines_refl].
Qed.

Lemma isSection_mono (fuel fuel' : nat) :
  (fuel <= fuel')%nat -> refines (isSection fuel) (isSection fuel').
Proof.
  intros Hle. unfold isSection, advance, isSection_spaces.
  repeat
    (intros;
     lazymatch goal with
     | |- refines ?m ?m => apply refines_refl
     | |- refines (bind _ _) (bind _ _) => apply refines_bind
     | |- refines (loop _ _ _) (loop _ _ _) => apply refines_loop; exact Hle
     | |- refines (for_count _ _ _ _) (for_count _ _ _ _) =>
         apply refines_for_count
     | |- refines (if ?b then _ else _) _ => destruct b
     | |- refines (match ?x with _ => _ end) _ => destruct x
     end).
Qed.

Lemma slice_out_of_range (s : string) (p : Z) :
  ~ (0 <= p <= len s) -> slice s p (len s) = None.
Proof.
  intros H. unfold slice.
  destruct ((0 <=? p) && (p <=? len s) && (len s <=? len s)) eqn:E;
    [|reflexivity].
  exfalso. apply H. rewrite !andb_true_iff in E. lia.
Qed.

Lemma isSection_out_of_range (fuel : nat) (l : lexer) :
  ~ in_range l -> isSection fuel l = (Panic, l).
Proof.
  intros H. unfold isSection, bind at 1, gets at 1. cbv zeta.
  unfold bind at 1, current, bind at 1, gets at 1, bind at 1, gets at 1.
  unfold bind at 1, input_slice. rewrite (slice_out_of_range _ _ H).
  reflexivity.
Qed.

(** C7.  Whenever [isSection] returns, whatever its answer, the lexer it
    leaves differs from the one it was given in the width of the last rune
    at most: [pos] is what it was, and so are [start], the input and the
    tokens sent.  And it does return when the cursor is within the input
    and each loop may make more rounds than the input has bytes. *)
Theorem isSection_restores_cursor (fuel : nat) (l : lexer) :
  (forall b l', isSection fuel l = (Ok b, l') -> exists w, l' = set_width w l)
  /\
  (0 <= pos l <= len (input l) ->
   (String.length (input l) < fuel)%nat ->
   exists b w, isSection fuel l = (Ok b, set_width w l)).
Proof.
  assert (Htotal : forall fuel, in_range l ->
            (String.length (input l) < fuel)%nat ->
            exists b w, isSection fuel l = (Ok b, set_width w l)).
  { intros fuel' Hr Hfuel.
    destruct (wp_returns _ _ _ (isSection_returns fuel' l Hr Hfuel))
      as (b & l' & E & w & ->).
    exists b, w. exact E. }
  split; [|apply Htotal].
  intros b l' H.
  destruct (Z_le_dec 0 (pos l)) as [H0|H0];
    [destruct (Z_le_dec (pos l) (len (input l))) as [H1|H1]|].
  - set (big := Nat.max fuel (S (String.length (input l)))).
    destruct (Htotal big) as (b0 & w & E); [split; assumption|lia|].
    rewrite (isSection_mono fuel big ltac:(lia) _ _ _ H) in E.
    injection E as _ ->. exists w. reflexivity.
  - rewrite isSection_out_of_range in H by (unfold in_range; lia).
    discriminate.
  - rewrite isSection_out_of_range in H by (unfold in_range; lia).
    discriminate.
Qed.

Lemma isSection_restores_cursor_witness :
  0 <= pos scenario1_lookahead <= len (input scenario1_lookahead) /\
  (String.length (input scenario1_lookahead) < 20)%nat /\
  isSection 20 scenario1_lookahead = (Ok true, set_width 1 scenario1_lookahead)
  /\
  exists b w,
    isSection 20 scenario1_lookahead = (Ok b, set_width w scenario1_lookahead).
Proof.
  split; [vm_compute; split; discriminate|].
  split; [vm_compute; lia|].
  split; [vm_compute; reflexivity|].
  apply (isSection_restores_cursor 20 scenario1_lookahead).
  - vm_compute; split; discriminate.
  - vm_compute; lia.
Defined.

(** ** The section-level registry *)

Lemma bind_eq {St A B} (m : M St A) (f : A -> M St B) s a s1 :
  m s = (Ok a, s1) -> bind m f s = f a s1.
Proof. intros H. unfold bind. rewrite H. reflexivity. Qed.

Lemma load_section_eq (a : addr) (t : Tree) (s : SectionNode) :
  heap t !! a = Some (SectionCell s) -> load_section a t = (Ok s, t).
Proof.
  intros H. unfold load_section, bind, gets. rewrite H. reflexivity.
Qed.

Lemma FindByRune_from_eq (s : list addr) (r : Z) (t : Tree) :
  (forall a, In a s -> exists sec, heap t !! a = Some (SectionCell sec)) ->
  FindByRune_from s r t = (Ok (fst <$> find_rune (heap t) s r), t).
Proof.
  induction s as [|a s IH]; intros Hreg; [reflexivity|].
  destruct (Hreg a (or_introl eq_refl)) as [sec Hsec].
  cbn [FindByRune_from find_rune].
  rewrite (bind_eq _ _ _ _ _ (load_section_eq _ _ _ Hsec)), Hsec.
  destruct (Rune (UnderLine sec) =? r); [reflexivity|].
  apply IH. intros b Hb. apply Hreg. right. exact Hb.
Qed.

Lemma FindByRune_eq (r : Z) (t : Tree) :
  registered t ->
  FindByRune r t
  = (Ok (fst <$> find_rune (heap t) (sectionLevels t) r), t).
Proof.
  intros Hreg. unfold FindByRune.
  rewrite (bind_eq (gets sectionLevels) _ t (sectionLevels t) t eq_refl).
  apply FindByRune_from_eq, Hreg.
Qed.

Lemma find_rune_Some (h : list cell) (s : list addr) (r : Z) b sec :
  find_rune h s r = Some (b, sec) ->
  In b s /\ h !! b = Some (SectionCell sec) /\ Rune (UnderLine sec) = r.
Proof.
  induction s as [|a s IH]; [discriminate|]. cbn [find_rune].
  destruct (h !! a) as [[sa|]|] eqn:Ha; try discriminate.
  destruct (Z.eqb_spec (Rune (UnderLine sa)) r) as [E|_].
  - intros [= <- <-]. split; [left; reflexivity|]. split; assumption.
  - intros H. destruct (IH H) as (? & ? & ?). split; [right|]; auto.
Qed.

(** What [Add] does with a section just built, by the first registered
    section with the same underline rune. *)
Lemma Add_eq (t : Tree) (a : addr) (new : SectionNode) :
  heap t !! a = Some (SectionCell new) ->
  registered t ->
  match find_rune (heap t) (sectionLevels t) (Rune (UnderLine new)) with
  | None =>
      Add a t
      = (Ok (false, None),
         register a new (Z.of_nat (length (sectionLevels t)) + 1) t)
  | Some (b, sec) =>
      if String.eqb (Text sec) (Text new)
      then Add a t = (Ok (true, Some b), t)
      else Add a t = (Ok (false, Some b), register a new (Level sec) t)
  end.
Proof.
  intros Ha Hreg. unfold Add.
  rewrite (bind_eq _ _ _ _ _ (load_section_eq _ _ _ Ha)).
  rewrite (bind_eq _ _ _ _ _ (FindByRune_eq _ _ Hreg)).
  destruct (find_rune (heap t) (sectionLevels t) (Rune (UnderLine new)))
    as [[b sec]|] eqn:Hfind; cbn [fmap option_fmap option_map fst].
  - destruct (find_rune_Some _ _ _ _ _ Hfind) as (_ & Hb & _).
    rewrite (bind_eq _ _ _ _ _ (load_section_eq _ _ _ Hb)).
    destruct (String.eqb (Text sec) (Text new)); reflexivity.
  - reflexivity.
Qed.

Lemma registered_runes_length (t : Tree) :
  registered t -> length (registered_runes t) = length (sectionLevels t).
Proof.
  unfold registered, registered_runes. generalize (sectionLevels t) as s.
  induction s as [|a s IH]; intros Hreg; [reflexivity|].
  destruct (Hreg a (or_introl eq_refl)) as [sec Hsec].
  cbn [omap list_omap]. rewrite Hsec. cbn [length]. f_equal.
  apply IH. intros b Hb. apply Hreg. right. exact Hb.
Qed.

(** C1.  [Add] numbers a rune it has not seen by the number of sections
    registered so far plus one (the length of the registry plus one), not by
    the number of
    distinct runes seen.  On
    ["AAA\n===\n\nBBB\n---\n\nCCC\n---\n\nDDD\n~~~\n"], a text
    without a repeated title that parses without a diagnostic, the
    sections underlined with '=', '-', '-' and '~' get the levels 1, 2, 2
    and 4: the third distinct rune is given level 4, where numbering by
    first use gives 3. *)
Theorem new_rune_numbered_by_sections
    (NFC : normalizer) (name : string) (fuel : nat) :
  IsNormalString NFC four_sections = true ->
  (20 <= fuel)%nat ->
  fst (Parse NFC fuel name four_sections) = Ok [] /\
  map (fun s => Rune (UnderLine s))
    (sections_of (heap (snd (Parse NFC fuel name four_sections))))
  = [61; 45; 45; 126] /\
  map Level (sections_of (heap (snd (Parse NFC fuel name four_sections))))
  = [1; 2; 2; 4] /\
  first_use_levels [] [61; 45; 45; 126] = [1; 2; 2; 3] /\
  (forall t a new,
     heap t !! a = Some (SectionCell new) ->
     registered t ->
     find_rune (heap t) (sectionLevels t) (Rune (UnderLine new)) = None ->
     Add a t
     = (Ok (false, None),
        register a new (Z.of_nat (length (sectionLevels t)) + 1) t)).
Proof.
  intros HN Hf. destruct (fuel_from _ _ Hf) as [n ->].
  rewrite (Parse_normal _ _ _ _ HN).
  split; [vm_compute; reflexivity|].
  split; [vm_compute; reflexivity|].
  split; [vm_compute; reflexivity|].
  split; [reflexivity|].
  intros t a new Ha Hreg Hfind.
  pose proof (Add_eq t a new Ha Hreg) as H. rewrite Hfind in H. exact H.
Qed.

Lemma new_rune_numbered_by_sections_witness :
  IsNormalString NFC_model four_sections = true /\ (20 <= 30)%nat /\
  map Level (sections_of (heap (snd (Parse NFC_model 30 "doc" four_sections))))
  = [1; 2; 2; 4].
Proof.
  split; [vm_compute; reflexivity|]. split; [lia|].
  apply (new_rune_numbered_by_sections NFC_model "doc" 30%nat);
    [vm_compute; reflexivity|lia].
Defined.

(** In ["AAA\n===\n\nAAA\n===\n"] the second section repeats rune and
    title of the first: [Add] returns before it has assigned a level, the
    section is not registered and keeps level 0. *)
Lemma same_title_level_unassigned : ~ levels_by_first_use.
Proof.
  intros H.
  specialize (H 30%nat "doc" same_title_twice).
  destruct (Tree_Parse 30 same_title_twice
              (set_text same_title_twice (New "doc"))) as [o t] eqn:E.
  vm_compute in E. injection E as <- <-.
  specialize (H _ _ eq_refl). vm_compute in H. discriminate.
Qed.

(* ===================================================================== *)
(** * Further properties of the lexer and the parser *)
(* ===================================================================== *)

(** ** Runes and the cursor *)

(** X1.  The table of section adornments is the ASCII punctuation, all 32
    characters of it and nothing else: no letter, digit, space or control
    character, no rune above 126, neither [eof] nor [RuneError]. *)
Theorem isSectionAdornment_punctuation (r : Z) :
  isSectionAdornment r = true <-> ascii_punctuation r.
Proof.
  unfold ascii_punctuation. split.
  - unfold isSectionAdornment, sectionAdornments. cbn [existsb].
    rewrite !orb_true_iff, !Z.eqb_eq. lia.
  - intros H.
    assert (E : r = 33 \/ r = 34 \/ r = 35 \/ r = 36 \/ r = 37 \/ r = 38 \/
                r = 39 \/ r = 40 \/ r = 41 \/ r = 42 \/ r = 43 \/ r = 44 \/
                r = 45 \/ r = 46 \/ r = 47 \/ r = 58 \/ r = 59 \/ r = 60 \/
                r = 61 \/ r = 62 \/ r = 63 \/ r = 64 \/ r = 91 \/ r = 92 \/
                r = 93 \/ r = 94 \/ r = 95 \/ r = 96 \/ r = 123 \/ r = 124 \/
                r = 125 \/ r = 126) by lia.
    repeat (destruct E as [-> | E]; [reflexivity|]). subst r. reflexivity.
Qed.

Lemma decode_width_le_4 (s : string) : snd (DecodeRuneInString s) <= 4.
Proof.
  unfold DecodeRuneInString.
  repeat (case_match; cbn [snd]; try lia).
Qed.

(** What [next] does with the cursor within the input. *)
Lemma next_in_input (l : lexer) :
  0 <= pos l <= len (input l) ->
  exists r w,
    next l = (Ok r, set_width w (set_pos (pos l + w) l)) /\
    pos l + w <= len (input l) /\
    ((pos l < len (input l) /\ 1 <= w <= 4 /\ 0 <= r) \/
     (pos l = len (input l) /\ w = 0 /\ r = eof)).
Proof.
  intros Hr. unfold next, bind at 1, gets at 1, bind at 1, gets at 1.
  destruct (Z.leb_spec (len (input l)) (pos l)) as [Hge|Hlt].
  - exists eof, 0. replace (pos l + 0) with (pos l) by lia.
    split; [destruct l; reflexivity|]. split; [lia|]. right. lia.
  - destruct (slice_suffix _ _ Hr) as (v & Hv & Hlen).
    unfold bind at 1, input_slice. rewrite Hv.
    destruct v as [|c v]; [change (len "") with 0 in Hlen; lia|].
    pose proof (decode_width c v) as Hw.
    pose proof (decode_width_le_4 (String c v)) as Hw4.
    pose proof (decode_nonneg (String c v)) as Hn.
    destruct (DecodeRuneInString (String c v)) as [r w]. cbn [fst snd] in *.
    exists r, w. split; [reflexivity|]. split; [lia|]. left. lia.
Qed.

(** X2.  With the cursor within the input, [next] returns and never moves
    the cursor past the end: inside the input it steps over one rune of
    one to four bytes; at the end it returns [eof], sets the width to 0 and
    stays where it is. *)
Theorem next_stays_in_input (l : lexer) :
  0 <= pos l <= len (input l) ->
  exists r w,
    next l = (Ok r, set_width w (set_pos (pos l + w) l)) /\
    pos l + w <= len (input l) /\
    ((pos l < len (input l) /\ 1 <= w <= 4 /\ 0 <= r) \/
     (pos l = len (input l) /\ w = 0 /\ r = eof)).
Proof. exact (next_in_input l). Qed.

Lemma next_stays_in_input_witness :
  0 <= pos scenario1_lookahead <= len (input scenario1_lookahead) /\
  exists r w,
    next scenario1_lookahead
    = (Ok r, set_width w (set_pos (pos scenario1_lookahead + w)
                            scenario1_lookahead)) /\
    pos scenario1_lookahead + w <= len (input scenario1_lookahead).
Proof.
  assert (H : 0 <= pos scenario1_lookahead <= len (input scenario1_lookahead))
    by (vm_compute; split; discriminate).
  split; [exact H|].
  destruct (next_stays_in_input scenario1_lookahead H) as (r & w & E & Hw & _).
  exists r, w. split; [exact E|exact Hw].
Defined.


(** X3.  [peek] is [next] without the move: it returns the rune [next]
    returns and leaves the lexer as it was, the width of that rune apart. *)
Theorem peek_returns_next_rune (l : lexer) :
  0 <= pos l <= len (input l) ->
  exists r w, peek l = (Ok r, set_width w l) /\ fst (next l) = Ok r.
Proof.
  intros Hr. destruct (next_in_input l Hr) as (r & w & E & _).
  exists r, w. split; [|rewrite E; reflexivity].
  unfold peek. rewrite (bind_eq _ _ _ _ _ E).
  unfold backup, bind, gets, modify, ret. cbn [pos width set_width set_pos].
  destruct l. unfold set_width, set_pos. cbn. do 2 f_equal. lia.
Qed.

Lemma peek_returns_next_rune_witness :
  0 <= pos scenario1_lookahead <= len (input scenario1_lookahead) /\
  exists r w,
    peek scenario1_lookahead = (Ok r, set_width w scenario1_lookahead) /\
    fst (next scenario1_lookahead) = Ok r.
Proof.
  assert (H : 0 <= pos scenario1_lookahead <= len (input scenario1_lookahead))
    by (vm_compute; split; discriminate).
  split; [exact H|]. apply (peek_returns_next_rune scenario1_lookahead H).
Defined.

(** X4.  [current] never returns [eof]: at the end of the input it returns
    [RuneError] (U+FFFD), elsewhere a rune that is not negative; it leaves
    the lexer as it is.  With the cursor outside the input it panics. *)
Theorem current_is_never_eof (l : lexer) :
  (0 <= pos l <= len (input l) ->
   exists c, current l = (Ok c, l) /\ c <> eof /\
             (pos l = len (input l) -> c = RuneError)) /\
  (~ 0 <= pos l <= len (input l) -> current l = (Panic, l)).
Proof.
  split.
  - intros Hr.
    destruct (wp_returns _ _ _ (current_spec l Hr)) as (c & l' & E & -> & Hc & He).
    exists c. split; [exact E|]. split; [unfold eof; lia|exact He].
  - intros Hr. unfold current, bind at 1, gets at 1, bind at 1, gets at 1.
    unfold bind at 1, input_slice. rewrite (slice_out_of_range _ _ Hr).
    reflexivity.
Qed.

Lemma current_is_never_eof_witness :
  0 <= pos scenario1_lookahead <= len (input scenario1_lookahead) /\
  exists c, current scenario1_lookahead = (Ok c, scenario1_lookahead) /\
            c <> eof.
Proof.
  assert (H : 0 <= pos scenario1_lookahead <= len (input scenario1_lookahead))
    by (vm_compute; split; discriminate).
  split; [exact H|].
  destruct (proj1 (current_is_never_eof scenario1_lookahead) H)
    as (c & E & Hc & _).
  exists c. split; [exact E|exact Hc].
Defined.

Lemma moved_same (l : lexer) : in_range l -> moved l l.
Proof.
  intros H. exists (pos l), (width l). split; [destruct l; reflexivity|].
  unfold in_range in H. lia.
Qed.

(** X5.  [advance(to)] returns once it has looked at most at every rune
    left: it always steps over one rune first, so that the cursor is
    further on unless it was at the end, and it stops at the end of the
    input or in front of a rune [to]. *)
Theorem advance_stops_at_rune_or_end (fuel : nat) (to : Z) (l : lexer) :
  0 <= pos l <= len (input l) ->
  (String.length (input l) < fuel)%nat ->
  exists l',
    advance fuel to l = (Ok tt, l') /\
    moved l l' /\
    (pos l < len (input l) -> pos l < pos l') /\
    (pos l' = len (input l) \/ current l' = (Ok to, l')).
Proof.
  intros Hr Hfuel.
  assert (H : wp False (advance fuel to)
                (fun _ l' => moved l l' /\
                             (pos l < len (input l) -> pos l < pos l') /\
                             (pos l' = len (input l) \/
                              current l' = (Ok to, l'))) l).
  { unfold advance.
    apply (wp_loop_total (fun _ l' => moved l l')
             (fun _ l' => Z.to_nat (len (input l') - pos l')));
      [|apply moved_same; exact Hr
       |unfold in_range, len in *; lia].
    intros _ l1 Hm. destruct (moved_range _ _ Hm Hr) as (Hr1 & Hin & Hle).
    wp_step.
    destruct (next_in_input l1 Hr1) as (r & w & E & Hw & Hcase).
    eapply wp_eq; [exact E|].
    assert (Hm2 : moved l (set_width w (set_pos (pos l1 + w) l1))).
    { eapply moved_trans; [exact Hm|]. exists (pos l1 + w), w.
      split; [reflexivity|]. unfold in_range in Hr1. lia. }
    destruct (Z.eqb_spec r eof) as [Er|Er].
    - wp_step. split; [exact Hm2|]. cbn [pos set_width set_pos].
      destruct Hcase as [(_ & _ & ?)|(? & ? & _)]; [unfold eof in *; lia|].
      rewrite <- Hin. split; [lia|left; lia].
    - destruct Hcase as [(Hlt & Hw1 & _)|(_ & _ & ?)]; [|contradiction].
      wp_step.
      destruct (moved_range _ _ Hm2 Hr) as (Hr2 & Hin2 & _).
      destruct (wp_returns _ _ _ (current_spec _ Hr2))
        as (c & l3 & Ec & -> & _ & _).
      eapply wp_eq; [exact Ec|].
      destruct (Z.eqb_spec to c) as [<-|_]; wp_step.
      + split; [exact Hm2|]. cbn [pos set_width set_pos] in *.
        split; [lia|right; exact Ec].
      + split; [exact Hm2|]. cbn [pos input set_width set_pos]. lia. }
  destruct (wp_returns _ _ _ H) as ([] & l' & E & HQ).
  exists l'. split; [exact E|exact HQ].
Qed.

Lemma advance_stops_at_rune_or_end_witness :
  0 <= pos scenario1_lookahead <= len (input scenario1_lookahead) /\
  (String.length (input scenario1_lookahead) < 20)%nat /\
  exists l',
    advance 20 LF scenario1_lookahead = (Ok tt, l') /\
    moved scenario1_lookahead l'.
Proof.
  assert (H : 0 <= pos scenario1_lookahead <= len (input scenario1_lookahead))
    by (vm_compute; split; discriminate).
  assert (Hf : (String.length (input scenario1_lookahead) < 20)%nat)
    by (vm_compute; lia).
  split; [exact H|]. split; [exact Hf|].
  destruct (advance_stops_at_rune_or_end 20 LF scenario1_lookahead H Hf)
    as (l' & E & Hm & _).
  exists l'. split; [exact E|exact Hm].
Defined.


(** ** The stream of tokens *)

(** As [keeps_with], with [known] tried first at every step; [known] may
    leave computations to go on with. *)
Ltac keeps_first known side :=
  repeat
    (intros;
     first
       [ progress known
       | lazymatch goal with
         | |- keeps _ (bind _ _) => apply keeps_bind
         | |- keeps _ (ret _) => apply keeps_ret
         | |- keeps _ (gets _) => apply keeps_gets
         | |- keeps _ panic => apply keeps_panic
         | |- keeps _ (deref _) => apply keeps_deref
         | |- keeps _ (fun s => (_, s)) => apply keeps_const
         | |- keeps _ (modify _) => apply keeps_modify; solve [side]
         | |- keeps _ (loop _ _ _) => apply keeps_loop
         | |- keeps _ (for_count _ _ _ _) => apply keeps_for_count
         | |- keeps _ (if ?b then _ else _) => destruct b eqn:?
         | |- keeps _ (match ?x with _ => _ end) => destruct x eqn:?
         | |- keeps _ ?m => let h := head_of m in unfold h
         end ]).

(** [l.start += 1], alone and before more. *)
Lemma keeps_bump_start (I : lexer -> Prop) :
  (forall l, I l -> I (set_start (start l + 1) l)) ->
  keeps I (st <- gets start ;; modify (set_start (st + 1))).
Proof. intros H l Hl. apply H, Hl. Qed.

Lemma keeps_bump_start_then {A} (I : lexer -> Prop) (rest : LexM A) :
  (forall l, I l -> I (set_start (start l + 1) l)) ->
  keeps I rest ->
  keeps I (st <- gets start ;; modify (set_start (st + 1)) ;; rest).
Proof.
  intros H Hrest l Hl.
  change (I (snd (rest (set_start (start l + 1) l)))).
  apply Hrest, H, Hl.
Qed.

Lemma laid_out_snoc (from : Z) (its : list item) (it : item) :
  laid_out from its ->
  end_of from its <= Position it - 1 ->
  0 <= Length it ->
  laid_out from (its ++ [it]) /\ end_of from (its ++ [it]) = token_end it.
Proof.
  revert from. induction its as [|x its IH]; intros from Hl He Hn; cbn in *.
  - auto.
  - destruct Hl as (H1 & H2 & H3). destruct (IH _ H3 He Hn) as [H4 H5]. auto.
Qed.

Lemma emit_keeps_in_order (t : itemElement) : keeps in_order (emit t).
Proof.
  intros l [Hl He].
  destruct (emit t l) as [o l'] eqn:E. cbn [snd].
  unfold emit, lineNumber, input_slice in E. monad_crush.
  all: try (split; assumption).
  all: unfold in_order; cbn [items start send set_start set_pos] in *.
  all: repeat match goal with
         | H : slice _ _ _ = Some _ |- _ =>
             let H' := fresh in
             pose proof (slice_len _ _ _ _ H) as H'; revert H
         end; intros.
  all: match goal with
       | |- laid_out 0 (?its ++ [?it]) /\ _ =>
           let Ha := fresh "Ha" in
           let Hb := fresh "Hb" in
           destruct (laid_out_snoc 0 its it Hl) as [Ha Hb];
             [cbn [Position]; lia | cbn [Length]; lia |];
             split; [exact Ha|]; rewrite Hb; unfold token_end;
             cbn [Position Length]; lia
       end.
Qed.

Ltac in_order_side :=
  intros ? [? ?]; split;
  cbn [items start set_pos set_width set_start] in *; [assumption|lia].

Lemma run_keeps_in_order (fuel : nat) : keeps in_order (run fuel).
Proof.
  keeps_first
    ltac:(first [ apply emit_keeps_in_order
                | apply input_slice_keeps
                | apply keeps_bump_start; solve [in_order_side]
                | apply keeps_bump_start_then; [solve [in_order_side]|] ])
    in_order_side.
Qed.

(** X6.  The tokens the lexer sends are slices of the input that follow
    one another: each token begins at or behind the end of the token sent
    before it.  The lexer never sends a byte twice and never goes back. *)
Theorem tokens_follow_one_another (fuel : nat) (name txt : string) :
  laid_out 0 (items (snd (lex fuel name txt))).
Proof.
  apply (run_keeps_in_order fuel (mkLexer name txt 0 0 0 [] None)).
  split; cbn; [exact Logic.I|lia].
Qed.

Lemma emit_keeps_empty_at_end (inp : string) (t : itemElement) :
  keeps (fun l => input l = inp /\ Forall (empty_at_end inp) (items l))
        (emit t).
Proof.
  intros l [Hin Hall].
  destruct (emit t l) as [o l'] eqn:E. cbn [snd].
  unfold emit, lineNumber, input_slice in E. monad_crush.
  all: try (split; [reflexivity|assumption]).
  all: split; [reflexivity|]; cbn [items send set_start set_pos input] in *.
  all: apply Forall_app; split; [assumption|]; constructor; [|constructor].
  all: repeat match goal with
         | H : slice _ _ _ = Some _ |- _ =>
             let H' := fresh in
             pose proof (slice_len _ _ _ _ H) as H'; revert H
         end; intros.
  all: unfold empty_at_end; cbn [Position Length]; intros Hz.
  all: repeat match goal with
         | H : _ && _ = true |- _ => apply andb_prop in H as [? ?]
         | H : _ && _ = false |- _ => apply andb_false_iff in H as [?|?]
         end; lia.
Qed.

(** X7.  A token without bytes is sent at the end of the input only:
    wherever input is left, [emit] takes one byte at least. *)
Theorem empty_tokens_only_at_end
    (fuel : nat) (name txt : string) (it : item) :
  In it (items (snd (lex fuel name txt))) ->
  Length it = 0 ->
  Position it = len txt + 1.
Proof.
  intros Hin Hz.
  assert (K : keeps (fun l => input l = txt /\
                             Forall (empty_at_end txt) (items l)) (run fuel)).
  { keeps_with ltac:(first [apply emit_keeps_empty_at_end
                           | apply input_slice_keeps])
               ltac:(intros ? [? ?]; split; cbn; assumption). }
  assert (H : input (snd (lex fuel name txt)) = txt /\
              Forall (empty_at_end txt) (items (snd (lex fuel name txt)))).
  { apply (K (mkLexer name txt 0 0 0 [] None)).
    split; [reflexivity|constructor]. }
  destruct H as [_ H]. rewrite List.Forall_forall in H.
  specialize (H it Hin Hz). lia.
Qed.

Lemma empty_tokens_only_at_end_witness :
  In scenario1_EOF (items (snd (lex 20 "doc" scenario1))) /\
  Length scenario1_EOF = 0 /\
  Position scenario1_EOF = len scenario1 + 1.
Proof.
  assert (H : In scenario1_EOF (items (snd (lex 20 "doc" scenario1))))
    by (vm_compute; auto).
  split; [exact H|]. split; [reflexivity|].
  apply (empty_tokens_only_at_end 20 "doc" scenario1 scenario1_EOF H).
  reflexivity.
Defined.


(** *** The EOF token *)

(** What [emit] does to the tokens sent: it adds one, of the type asked
    for, or it fails and adds none. *)
Lemma emit_items (t : itemElement) (l : lexer) :
  (fst (emit t l) = Ok tt /\
   exists it, items (snd (emit t l)) = items l ++ [it] /\ ElementType it = t)
  \/
  (fst (emit t l) <> Ok tt /\ items (snd (emit t l)) = items l).
Proof.
  destruct (emit t l) as [o l'] eqn:E. cbn [fst snd].
  unfold emit, lineNumber, input_slice in E. monad_crush.
  all: first [ right; split; [discriminate|reflexivity]
             | left; split; [reflexivity|]; eexists; split; reflexivity ].
Qed.

Lemma emit_keeps_no_EOF (t : itemElement) :
  t <> itemEOF -> keeps no_EOF (emit t).
Proof.
  intros Ht l Hl. unfold no_EOF in *.
  destruct (emit_items t l) as [[_ (it & -> & Hit)]|[_ ->]]; [|exact Hl].
  apply Forall_app. split; [exact Hl|].
  constructor; [congruence|constructor].
Qed.

Ltac no_EOF_known :=
  first [ apply emit_keeps_no_EOF; discriminate | apply input_slice_keeps ].

Ltac no_EOF_side := intros ? ?; assumption.

Lemma wp_bind_any {St A B} (m : M St A) (f : A -> M St B)
    (Q : B -> St -> Prop) s :
  (forall a s1, wp True (f a) Q s1) -> wp True (bind m f) Q s.
Proof.
  intros H. unfold wp, bind. destruct (m s) as [[a| | |] s1]; auto.
  apply H.
Qed.

(** The state functions never return [nil], [lexStart] apart. *)
Lemma call_goes_on (f : stateFn) (fuel : nat) (l : lexer) :
  f <> lexStartFn -> fst (call f fuel l) <> Ok None.
Proof.
  intros Hf.
  assert (H : wp True (call f fuel) (fun r _ => r <> None) l).
  { destruct f; [congruence|..]; cbn [call].
    all: unfold lexSpace, lexSection, lexTitle, lexSectionAdornment.
    all: repeat (intros;
                 lazymatch goal with
                 | |- wp True (bind _ _) _ _ => apply wp_bind_any
                 | |- wp True (ret _) _ _ => apply wp_ret; discriminate
                 | |- wp True panic _ _ => exact Logic.I
                 | |- wp True (if ?b then _ else _) _ _ => destruct b
                 | |- wp True (match ?x with _ => _ end) _ _ => destruct x
                 end). }
  unfold wp in H. destruct (call f fuel l) as [[r| | |] l']; cbn; congruence.
Qed.

Lemma call_keeps_no_EOF (f : stateFn) (fuel : nat) :
  f <> lexStartFn -> keeps no_EOF (call f fuel).
Proof.
  intros Hf. destruct f; [congruence|..]; cbn [call].
  all: keeps_with no_EOF_known no_EOF_side.
Qed.

(** The outcome and the state of [bind m f], from those of [m] and [f]. *)
Lemma bind_outcome {St A B} (m : M St A) (f : A -> M St B)
    (P : outcome B -> St -> Prop) (s : St) :
  match m s with
  | (Ok a, s1) => P (fst (f a s1)) (snd (f a s1))
  | (Panic, s1) => P Panic s1
  | (Timeout, s1) => P Timeout s1
  | (Blocked, s1) => P Blocked s1
  end ->
  P (fst (bind m f s)) (snd (bind m f s)).
Proof. unfold bind. destruct (m s) as [[a| | |] s1]; auto. Qed.

(** [lexStart] sends the EOF token last, and only when it returns [nil]. *)
Lemma lexStart_EOF (fuel : nat) (l : lexer) :
  no_EOF l ->
  match fst (lexStart fuel l) with
  | Ok None => ends_with_EOF (snd (lexStart fuel l))
  | _ => no_EOF (snd (lexStart fuel l))
  end.
Proof.
  intros Hl. unfold lexStart.
  assert (K : keeps no_EOF (loop fuel (lexStart_body fuel) tt)).
  { keeps_with no_EOF_known no_EOF_side. }
  specialize (K l Hl).
  apply (bind_outcome _ _
           (fun o s => match o with
                       | Ok None => ends_with_EOF s
                       | _ => no_EOF s
                       end)).
  destruct (loop fuel (lexStart_body fuel) tt l) as [[r| | |] l1];
    cbn [fst snd] in *; try exact K.
  destruct r as [f|]; [exact K|].
  assert (K2 : keeps no_EOF
                 (p <- gets pos ;; st <- gets start ;;
                  (if st <? p then emit itemParagraph else ret tt))).
  { keeps_with no_EOF_known no_EOF_side. }
  specialize (K2 l1 K).
  change ((p <- gets pos;; st <- gets start;;
           (if st <? p then emit itemParagraph else ret tt);;
           emit itemEOF;; ret (@None stateFn)) l1)
    with (((p <- gets pos;; st <- gets start;;
            (if st <? p then emit itemParagraph else ret tt));;
           emit itemEOF;; ret (@None stateFn)) l1).
  apply (bind_outcome _ _
           (fun o s => match o with
                       | Ok None => ends_with_EOF s
                       | _ => no_EOF s
                       end)).
  destruct ((p <- gets pos;; st <- gets start;;
             (if st <? p then emit itemParagraph else ret tt)) l1)
    as [[[]| | |] l2]; cbn [fst snd] in *; try exact K2.
  apply (bind_outcome _ _
           (fun o s => match o with
                       | Ok None => ends_with_EOF s
                       | _ => no_EOF s
                       end)).
  destruct (emit_items itemEOF l2) as [[Ho (it & Hit & Ht)]|[Ho Hit]].
  - destruct (emit itemEOF l2) as [o l3]. cbn [fst snd] in *. subst o.
    cbn. exists (items l2), it. auto.
  - destruct (emit itemEOF l2) as [[[]| | |] l3]; cbn [fst snd] in *;
      try congruence; unfold no_EOF; rewrite Hit; exact K2.
Qed.

Lemma run_EOF (fuel n : nat) (f : stateFn) (l : lexer) :
  no_EOF l ->
  let r := loop n (fun f : stateFn =>
                     r <- call f fuel ;;
                     match r with
                     | Some f' => ret (inl f')
                     | None => ret (inr tt)
                     end) f l in
  match fst r with
  | Ok _ => ends_with_EOF (snd r)
  | _ => no_EOF (snd r)
  end.
Proof.
  revert f l. induction n as [|n IH]; intros f l Hl; [exact Hl|].
  cbn zeta in *. cbn [loop]. unfold bind.
  assert (H : match fst (call f fuel l) with
              | Ok None => ends_with_EOF (snd (call f fuel l))
              | _ => no_EOF (snd (call f fuel l))
              end).
  { assert (Hf : f = lexStartFn \/ f <> lexStartFn)
      by (destruct f; auto; right; discriminate).
    destruct Hf as [->|Hf].
    - apply lexStart_EOF, Hl.
    - pose proof (call_goes_on f fuel l Hf).
      pose proof (call_keeps_no_EOF f fuel Hf l Hl).
      destruct (call f fuel l) as [[[g|]| | |] l']; cbn [fst snd] in *;
        congruence || assumption. }
  destruct (call f fuel l) as [[[g|]| | |] l']; cbn [fst snd ret] in *;
    try exact H.
  exact (IH g l' H).
Qed.

(** X8.  When the lexer finishes, the last token it has sent is an EOF
    token and no token before it is one; when it does not finish (it panics
    or runs out of rounds), it has sent no EOF token. *)
Theorem EOF_token_ends_the_stream (fuel : nat) (name txt : string) :
  match fst (lex fuel name txt) with
  | Ok _ => ends_with_EOF (snd (lex fuel name txt))
  | _ => no_EOF (snd (lex fuel name txt))
  end.
Proof.
  apply (run_EOF fuel fuel lexStartFn (mkLexer name txt 0 0 0 [] None)).
  constructor.
Qed.


(** ** The token window of the parser *)

Ltac open_window t :=
  destruct t as [nm nds tgt errs txt lx bc pc tk lv i iw il hp];
  unfold clean_window in *; cbn [token tokenPeekCount lex_tokens] in *.

(** X9.  [skip(num)] never fails and never receives from the lexer: on the
    seven slots it moves every token [num] places to the left, the tokens
    that leave the window are lost and the slots freed at the right hold
    nil. *)
Theorem skip_shifts_left (num : Z) (t : Tree) :
  length (token t) = 7%nat ->
  skip num t = (Ok tt, set_token (shifted num (token t)) t).
Proof.
  intros Hlen.
  assert (Hone : forall t, length (token t) = 7%nat ->
            (r <- for_count 6 0 (fun x (_ : unit) =>
                    v <- token_get (x + 1) ;;
                    token_set x v ;;
                    keep (token_set (x + 1) None)) tt ;;
             keep (result_of r)) t
            = (Ok (inl tt), set_token (drop 1 (token t) ++ [None]) t)).
  { clear. intros t Hlen.
    destruct t as [nm nds tgt errs txt lx bc pc tk lv i iw il hp].
    cbn [token] in *.
    do 8 (destruct tk as [|? tk]; try discriminate).
    reflexivity. }
  unfold skip, shifted.
  assert (Hall : forall n t, length (token t) = 7%nat ->
            for_count n 0 (fun _ (_ : unit) =>
                r <- for_count 6 0 (fun x (_ : unit) =>
                       v <- token_get (x + 1) ;;
                       token_set x v ;;
                       keep (token_set (x + 1) None)) tt ;;
                keep (result_of r)) tt t
            = (Ok (inl tt),
               set_token (take 7 (drop n (token t) ++ replicate 7 None)) t)).
  { clear - Hone. intros n. generalize 0 at 1. induction n as [|n IH];
      intros z t Hlen.
    - cbn [for_count ret]. f_equal.
      destruct t as [nm nds tgt errs txt lx bc pc tk lv i iw il hp].
      cbn [token] in *.
      do 8 (destruct tk as [|? tk]; try discriminate).
      reflexivity.
    - cbn [for_count]. rewrite (bind_eq _ _ _ _ _ (Hone t Hlen)).
      rewrite IH.
      + f_equal.
        destruct t as [nm nds tgt errs txt lx bc pc tk lv i iw il hp].
        cbn [token] in *. unfold set_token; cbn. f_equal.
        do 8 (destruct tk as [|? tk]; try discriminate).
        destruct n as [|[|[|[|[|[|[|n]]]]]]]; cbn; rewrite ?drop_nil;
          reflexivity.
      + destruct t as [nm nds tgt errs txt lx bc pc tk lv i iw il hp].
        cbn [token] in *. cbn.
        rewrite length_app, length_drop, Hlen. reflexivity. }
  unfold bind. rewrite (Hall _ t Hlen). reflexivity.
Qed.

Lemma skip_shifts_left_witness :
  length (token scenario1_after_title) = 7%nat /\
  skip 2 scenario1_after_title
  = (Ok tt,
     set_token (shifted 2 (token scenario1_after_title))
       scenario1_after_title).
Proof.
  split; [reflexivity|].
  apply (skip_shifts_left 2 scenario1_after_title). reflexivity.
Defined.

(** X10.  A second [peek(1)] does not return the token the first one has
    fetched: the first stores the token in the slot behind [tokenZero]
    and returns it, the second reads slot [tokenZero] and returns the
    current token; it changes nothing and receives nothing. *)
Theorem second_peek_returns_current_token
    (w0 w1 w2 w3 : option item) (x : item) (rest : list item) (e : ending)
    (t : Tree) :
  clean_window w0 w1 w2 w3 (x :: rest) e t ->
  exists t1,
    peek_tok 1 t = (Ok (Some x), t1) /\
    token t1 = [w0; w1; w2; w3; Some x; None; None] /\
    lex_tokens t1 = Some (mkTokens rest e) /\
    peek_tok 1 t1 = (Ok w3, t1).
Proof.
  intros Hw. open_window t. destruct Hw as (-> & -> & ->).
  eexists. split; [vm_compute; reflexivity|].
  repeat split.
Qed.

Lemma second_peek_returns_current_token_witness :
  clean_window None None None (Some title_token)
    [scenario1_adornment; scenario1_EOF] Finished scenario1_after_title /\
  exists t1,
    peek_tok 1 scenario1_after_title = (Ok (Some scenario1_adornment), t1) /\
    peek_tok 1 t1 = (Ok (Some title_token), t1).
Proof.
  assert (H : clean_window None None None (Some title_token)
                [scenario1_adornment; scenario1_EOF] Finished
                scenario1_after_title) by (repeat split).
  split; [exact H|].
  destruct (second_peek_returns_current_token _ _ _ _ _ _ _ _ H)
    as (t1 & E1 & _ & _ & E2).
  exists t1. split; [exact E1|exact E2].
Defined.

(** X11.  [peek(2)] on a clean window stores the second token two slots
    behind the first, with a nil between them; the [next()] that follows
    shifts the window by two and returns that nil, not the first token
    peeked. *)
Theorem next_after_peek_two_returns_nil
    (w0 w1 w2 w3 : option item) (x y : item) (rest : list item) (e : ending)
    (t : Tree) :
  clean_window w0 w1 w2 w3 (x :: y :: rest) e t ->
  exists t1 t2,
    peek_tok 2 t = (Ok (Some y), t1) /\
    token t1 = [w0; w1; w2; w3; Some x; None; Some y] /\
    next_tok t1 = (Ok None, t2) /\
    token t2 = [w2; w3; Some x; None; Some y; None; None] /\
    lex_tokens t2 = Some (mkTokens rest e).
Proof.
  intros Hw. open_window t. destruct Hw as (-> & -> & ->).
  eexists. eexists. split; [vm_compute; reflexivity|].
  split; [reflexivity|]. split; [vm_compute; reflexivity|].
  split; reflexivity.
Qed.

Lemma next_after_peek_two_returns_nil_witness :
  clean_window None None None (Some title_token)
    [scenario1_adornment; scenario1_EOF] Finished scenario1_after_title /\
  exists t1 t2,
    peek_tok 2 scenario1_after_title = (Ok (Some scenario1_EOF), t1) /\
    next_tok t1 = (Ok None, t2).
Proof.
  assert (H : clean_window None None None (Some title_token)
                [scenario1_adornment; scenario1_EOF] Finished
                scenario1_after_title) by (repeat split).
  split; [exact H|].
  destruct (next_after_peek_two_returns_nil _ _ _ _ _ _ _ _ _ H)
    as (t1 & t2 & E1 & _ & E2 & _).
  exists t1, t2. split; [exact E1|exact E2].
Defined.

(** X12.  [peek(pos)] panics for every [pos] below 1, and on a clean
    window for every [pos] above 2: having received two tokens it indexes
    the window behind its last slot. *)
Theorem peek_reaches_two_tokens
    (w0 w1 w2 w3 : option item) (x y : item) (rest : list item) (e : ending)
    (t : Tree) (p : Z) :
  clean_window w0 w1 w2 w3 (x :: y :: rest) e t ->
  p < 1 \/ 2 < p ->
  exists t1,
    peek_tok p t = (Panic, t1) /\
    (p < 1 -> t1 = t) /\
    (2 < p -> lex_tokens t1 = Some (mkTokens rest e)).
Proof.
  intros Hw Hp. open_window t. destruct Hw as (-> & -> & ->).
  unfold peek_tok. destruct (p <? 1) eqn:E.
  - eexists. split; [reflexivity|]. split; [reflexivity|]. lia.
  - assert (H3 : exists n, Z.to_nat p = S (S (S n))).
    { exists (Z.to_nat p - 3)%nat. lia. }
    destruct H3 as [n ->].
    eexists. split; [vm_compute; reflexivity|]. split; [lia|].
    intros _. reflexivity.
Qed.

Lemma peek_reaches_two_tokens_witness :
  clean_window None None None (Some title_token)
    [scenario1_adornment; scenario1_EOF] Finished scenario1_after_title /\
  (3 < 1 \/ 2 < 3) /\
  exists t1, peek_tok 3 scenario1_after_title = (Panic, t1).
Proof.
  assert (H : clean_window None None None (Some title_token)
                [scenario1_adornment; scenario1_EOF] Finished
                scenario1_after_title) by (repeat split).
  assert (Hp : 3 < 1 \/ 2 < 3) by lia.
  split; [exact H|]. split; [exact Hp|].
  destruct (peek_reaches_two_tokens _ _ _ _ _ _ _ _ _ 3 H Hp) as (t1 & E & _).
  exists t1. exact E.
Defined.

(** X13.  [backup()] after [next()] returns the token two places before
    the one [next()] has returned, and the [next()] after it receives a new
    token over the one backed over, which is then in no slot of the
    window: the token is lost. *)
Theorem backup_then_next_loses_token
    (w0 w1 w2 w3 : option item) (x y : item) (rest : list item) (e : ending)
    (t : Tree) :
  clean_window w0 w1 w2 w3 (x :: y :: rest) e t ->
  exists t1 t2 t3,
    next_tok t = (Ok (Some x), t1) /\
    backup_tok t1 = (Ok w2, t2) /\
    token t2 = [None; w1; w2; w3; Some x; None; None] /\
    next_tok t2 = (Ok (Some y), t3) /\
    token t3 = [w1; w2; w3; Some y; None; None; None] /\
    lex_tokens t3 = Some (mkTokens rest e).
Proof.
  intros Hw. open_window t. destruct Hw as (-> & -> & ->).
  do 3 eexists. split; [vm_compute; reflexivity|].
  split; [vm_compute; reflexivity|]. split; [reflexivity|].
  split; [vm_compute; reflexivity|]. split; reflexivity.
Qed.

Lemma backup_then_next_loses_token_witness :
  clean_window None None None (Some title_token)
    [scenario1_adornment; scenario1_EOF] Finished scenario1_after_title /\
  exists t1 t2 t3,
    next_tok scenario1_after_title = (Ok (Some scenario1_adornment), t1) /\
    backup_tok t1 = (Ok None, t2) /\
    next_tok t2 = (Ok (Some scenario1_EOF), t3) /\
    token t3 = [None; None; Some title_token; Some scenario1_EOF;
                None; None; None].
Proof.
  assert (H : clean_window None None None (Some title_token)
                [scenario1_adornment; scenario1_EOF] Finished
                scenario1_after_title) by (repeat split).
  split; [exact H|].
  destruct (backup_then_next_loses_token _ _ _ _ _ _ _ _ _ H)
    as (t1 & t2 & t3 & E1 & E2 & _ & E3 & E4 & _).
  exists t1, t2, t3. repeat split; assumption.
Defined.


(** ** The loop of the parser *)

Section Settles.
Context {St : Type}.

Lemma settles_ret {A} (a : A) : settles (@ret St A a).
Proof. intros s; exact Logic.I. Qed.

Lemma settles_gets {A} (f : St -> A) : settles (gets f).
Proof. intros s; exact Logic.I. Qed.

Lemma settles_modify (f : St -> St) : settles (modify f).
Proof. intros s; exact Logic.I. Qed.

Lemma settles_panic {A} : settles (@panic St A).
Proof. intros s; exact Logic.I. Qed.

Lemma settles_deref {A} (p : option A) : settles (@deref St A p).
Proof. destruct p; intros s; exact Logic.I. Qed.

Lemma settles_bind {A B} (m : M St A) (f : A -> M St B) :
  settles m -> (forall a, settles (f a)) -> settles (bind m f).
Proof.
  intros Hm Hf s. specialize (Hm s). unfold bind.
  destruct (m s) as [[a| | |] s1]; cbn in *; auto. apply Hf.
Qed.

Lemma settles_for_count {A B} (body : Z -> A -> M St (A + B)) n :
  (forall i a, settles (body i a)) ->
  forall i a, settles (for_count n i body a).
Proof.
  intros Hb. induction n as [|n IH]; intros i a; [apply settles_ret|].
  cbn [for_count]. apply settles_bind; [apply Hb|].
  intros [a'|b]; [apply IH | apply settles_ret].
Qed.
End Settles.

Ltac settles_with known :=
  repeat
    (intros;
     lazymatch goal with
     | |- settles (bind _ _) => apply settles_bind
     | |- settles (ret _) => apply settles_ret
     | |- settles (gets _) => apply settles_gets
     | |- settles panic => apply settles_panic
     | |- settles (deref _) => apply settles_deref
     | |- settles (modify _) => apply settles_modify
     | |- settles (for_count _ _ _ _) => apply settles_for_count
     | |- settles (if ?b then _ else _) => destruct b eqn:?
     | |- settles (match ?x with _ => _ end) => destruct x eqn:?
     | |- settles ?m =>
         first [ solve [known]
               | let h := head_of m in unfold h ]
     end).

Lemma FindByRune_from_settles (s : list addr) (r : Z) :
  settles (FindByRune_from s r).
Proof.
  induction s as [|a s IH]; [apply settles_ret|].
  cbn [FindByRune_from]. settles_with ltac:(apply IH).
Qed.

Lemma section_settles (i : item) : settles (section i).
Proof. settles_with ltac:(apply FindByRune_from_settles). Qed.

(** What a round of [parse] does with the token [next()] has returned. *)
Lemma after_next_settles (x : item) :
  settles
    (tk <- deref (Some x) ;;
     match ElementType tk with
     | itemSectionAdornment => n <- section tk ;; parse_append n
     | itemParagraph => n <- newParagraph tk ;; parse_append (Paragraph n)
     | itemSpace =>
         n <- indent tk ;;
         match n with
         | None => ret (inl tt)
         | Some n => parse_append n
         end
     | itemTitle | itemBlankLine => ret (inl tt)
     | itemEOF => ret (inr tt)
     | e => errorf (NotImplemented e) ;; ret (inl tt)
     end).
Proof.
  settles_with ltac:(first [apply section_settles
                           | apply FindByRune_from_settles]).
Qed.

Lemma after_next_goes_on (x : item) (t : Tree) :
  ElementType x <> itemEOF ->
  wp True
    (tk <- deref (Some x) ;;
     match ElementType tk with
     | itemSectionAdornment => n <- section tk ;; parse_append n
     | itemParagraph => n <- newParagraph tk ;; parse_append (Paragraph n)
     | itemSpace =>
         n <- indent tk ;;
         match n with
         | None => ret (inl tt)
         | Some n => parse_append n
         end
     | itemTitle | itemBlankLine => ret (inl tt)
     | itemEOF => ret (inr tt)
     | e => errorf (NotImplemented e) ;; ret (inl tt)
     end)
    (fun r _ => r = inl tt) t.
Proof.
  intros Hx. cbn [deref]. apply wp_bind, wp_ret.
  destruct (ElementType x); try congruence; unfold parse_append.
  all: repeat (intros;
               lazymatch goal with
               | |- wp True (bind _ _) _ _ => apply wp_bind_any
               | |- wp True (ret _) _ _ => apply wp_ret; reflexivity
               | |- wp True (match ?x with _ => _ end) _ _ => destruct x
               end).
Qed.

Lemma peek_one_slots (t : Tree) (w0 w1 w2 w3 : option item)
    (x : item) (rest : list item) (e : ending) :
  token t = [w0; w1; w2; w3; None; None; None] ->
  tokenPeekCount t = 0 ->
  lex_tokens t = Some (mkTokens (x :: rest) e) ->
  peek_tok 1 t
  = (Ok (Some x),
     set_token [w0; w1; w2; w3; Some x; None; None]
       (set_lex (Some (mkTokens rest e)) (set_tokenPeekCount 1 t))).
Proof.
  intros Htk Hpc Hlx.
  destruct t as [nm nds tgt errs txt lx bc pc tk lv i iw il hp].
  cbn [tokenPeekCount lex_tokens token] in *. subst.
  vm_compute; reflexivity.
Qed.

Lemma parse_body_eq (toks : list item) (e : ending) (k : nat) (t : Tree)
    (x : item) :
  window toks e k t ->
  toks !! k = Some x ->
  (is_type itemEOF x = true ->
   exists t1, parse_body tt t = (Ok (inr tt), t1) /\
              lex_tokens t1 = Some (mkTokens (drop (S k) toks) e)) /\
  (is_type itemEOF x = false ->
   exists t2, window toks e (S k) t2 /\
     parse_body tt t
     = (tk <- deref (Some x) ;;
        match ElementType tk with
        | itemSectionAdornment => n <- section tk ;; parse_append n
        | itemParagraph => n <- newParagraph tk ;; parse_append (Paragraph n)
        | itemSpace =>
            n <- indent tk ;;
            match n with
            | None => ret (inl tt)
            | Some n => parse_append n
            end
        | itemTitle | itemBlankLine => ret (inl tt)
        | itemEOF => ret (inr tt)
        | e => errorf (NotImplemented e) ;; ret (inl tt)
        end) t2).
Proof.
  intros Hw Hx.
  destruct (peek_then_next _ _ _ _ _ Hw Hx) as (t1 & t2 & Hp & Hn & Hw2 & _).
  destruct Hw as (Hpc & Hlx & Htk).
  rewrite (drop_S _ _ _ Hx) in Hlx.
  pose proof (peek_one_slots _ _ _ _ _ _ _ _ Htk Hpc Hlx) as Hp'.
  split; intros Hb.
  - eexists. split.
    + unfold parse_body. rewrite (bind_eq _ _ _ _ _ Hp').
      cbn [deref]. unfold bind at 1, ret at 1. rewrite Hb. reflexivity.
    + reflexivity.
  - exists t2. split; [exact Hw2|].
    unfold parse_body. rewrite (bind_eq _ _ _ _ _ Hp).
    cbn [deref]. unfold bind at 1, ret at 1. rewrite Hb.
    rewrite (bind_eq _ _ _ _ _ Hn). reflexivity.
Qed.

Lemma parse_loop_stops (toks : list item) (e : ending) (j : nat)
    (eofi : item) :
  toks !! j = Some eofi ->
  ElementType eofi = itemEOF ->
  (forall i x, (i < j)%nat -> toks !! i = Some x -> ElementType x <> itemEOF) ->
  forall d k n t,
    j = (k + d)%nat -> window toks e k t -> (d < n)%nat ->
    settled (fst (loop n parse_body tt t)) /\
    (fst (loop n parse_body tt t) = Ok tt ->
     lex_tokens (snd (loop n parse_body tt t))
     = Some (mkTokens (drop (S j) toks) e)).
Proof.
  intros Hj He Hbefore. induction d as [|d IH]; intros k n t Hk Hw Hn.
  - assert (k = j) by lia. subst k. destruct n as [|n]; [lia|].
    destruct (parse_body_eq _ _ _ _ _ Hw Hj) as [H1 _].
    destruct H1 as (t1 & Hb & Hlx).
    { unfold is_type. apply bool_decide_eq_true. exact He. }
    cbn [loop]. rewrite Hb. cbn. split; [exact Logic.I|]. intros _. exact Hlx.
  - destruct n as [|n]; [lia|].
    assert (Hlt : (k < length toks)%nat).
    { apply lookup_lt_Some in Hj. lia. }
    destruct (lookup_lt_is_Some_2 toks k Hlt) as [x Hx].
    assert (Hx' : ElementType x <> itemEOF).
    { apply (Hbefore k); [lia|exact Hx]. }
    destruct (parse_body_eq _ _ _ _ _ Hw Hx) as [_ H2].
    destruct H2 as (t2 & Hw2 & Hb).
    { unfold is_type. apply bool_decide_eq_false. exact Hx'. }
    pose proof (after_next_settles x t2) as Hs.
    pose proof (after_next_goes_on x t2 Hx') as Hg.
    unfold wp in Hg. rewrite <- Hb in Hs, Hg.
    cbn [loop].
    destruct (parse_body tt t) as [[[[]|[]]| | |] t'] eqn:Hpb;
      cbn [fst snd] in *; try contradiction; try discriminate.
    + apply (IH (S k)); [lia| |lia].
      eapply parse_round_window; [exact Hw|exact Hpb].
    + split; [exact Logic.I|discriminate].
Qed.

(** X14.  When the lexer sends an EOF token, [parse] comes to an end: with
    more rounds than tokens before the first EOF token it returns or
    panics, it is never left waiting for the lexer; when it returns it
    has received the tokens up to that EOF token and none behind it. *)
Theorem parse_stops_at_EOF
    (before behind_it : list item) (eofi : item) (e : ending)
    (fuel : nat) (t : Tree) :
  token t = replicate 7 None ->
  tokenPeekCount t = 0 ->
  lex_tokens t = Some (mkTokens (before ++ eofi :: behind_it) e) ->
  ElementType eofi = itemEOF ->
  Forall (fun x => ElementType x <> itemEOF) before ->
  (length before < fuel)%nat ->
  settled (fst (parse fuel t)) /\
  (fst (parse fuel t) = Ok tt ->
   lex_tokens (snd (parse fuel t)) = Some (mkTokens behind_it e)).
Proof.
  intros Htk Hpc Hlx He Hall Hfuel.
  assert (Hdrop : drop (S (length before)) (before ++ eofi :: behind_it)
                  = behind_it).
  { replace (S (length before)) with (length (before ++ [eofi]))
      by (rewrite length_app; cbn; lia).
    rewrite (cons_middle eofi before behind_it), app_assoc.
    apply drop_app_length. }
  rewrite <- Hdrop.
  change (parse fuel t)
    with (loop fuel parse_body tt (set_nodeTarget toRoot t)).
  apply (parse_loop_stops (before ++ eofi :: behind_it) e (length before) eofi)
    with (d := length before) (k := 0%nat).
  - rewrite lookup_app_r by lia. rewrite Nat.sub_diag. reflexivity.
  - exact He.
  - intros i x Hi Hx. rewrite lookup_app_l in Hx by exact Hi.
    rewrite Forall_lookup in Hall. exact (Hall i x Hx).
  - reflexivity.
  - repeat split; cbn; assumption.
  - exact Hfuel.
Qed.

Lemma parse_stops_at_EOF_witness :
  token scenario1_start = replicate 7 None /\
  tokenPeekCount scenario1_start = 0 /\
  lex_tokens scenario1_start
  = Some (mkTokens ([title_token; scenario1_adornment] ++ scenario1_EOF :: [])
            Finished) /\
  ElementType scenario1_EOF = itemEOF /\
  Forall (fun x => ElementType x <> itemEOF)
    [title_token; scenario1_adornment] /\
  (length [title_token; scenario1_adornment] < 20)%nat /\
  settled (fst (parse 20 scenario1_start)).
Proof.
  assert (H1 : token scenario1_start = replicate 7 None)
    by (vm_compute; reflexivity).
  assert (H2 : tokenPeekCount scenario1_start = 0)
    by (vm_compute; reflexivity).
  assert (H3 : lex_tokens scenario1_start
               = Some (mkTokens ([title_token; scenario1_adornment]
                                 ++ scenario1_EOF :: []) Finished))
    by (vm_compute; reflexivity).
  assert (H4 : ElementType scenario1_EOF = itemEOF) by reflexivity.
  assert (H5 : Forall (fun x => ElementType x <> itemEOF)
                 [title_token; scenario1_adornment])
    by (repeat constructor; discriminate).
  assert (H6 : (length [title_token; scenario1_adornment] < 20)%nat)
    by (vm_compute; lia).
  split; [exact H1|]. split; [exact H2|]. split; [exact H3|].
  split; [exact H4|]. split; [exact H5|]. split; [exact H6|].
  exact (proj1 (parse_stops_at_EOF [title_token; scenario1_adornment] []
                  scenario1_EOF Finished 20 scenario1_start
                  H1 H2 H3 H4 H5 H6)).
Defined.

(** X15.  A Space token that comes first makes [parse] panic: [indent]
    looks at the token before it, and there is none. *)
Theorem space_token_first_panics
    (x : item) (rest : list item) (e : ending) (fuel : nat) (t : Tree) :
  token t = replicate 7 None ->
  tokenPeekCount t = 0 ->
  lex_tokens t = Some (mkTokens (x :: rest) e) ->
  ElementType x = itemSpace ->
  (1 <= fuel)%nat ->
  fst (parse fuel t) = Panic.
Proof.
  intros Htk Hpc Hlx Hx Hfuel.
  destruct t as [nm nds tgt errs txt lx bc pc tk lv i iw il hp].
  cbn [token tokenPeekCount lex_tokens] in *. subst.
  destruct x as [en et p ln lg v]. cbn [ElementType] in Hx. subst.
  destruct fuel as [|fuel]; [lia|].
  destruct iw; vm_compute; reflexivity.
Qed.

Lemma space_token_first_panics_witness :
  token indented_start = replicate 7 None /\
  tokenPeekCount indented_start = 0 /\
  lex_tokens indented_start
  = Some (mkTokens (indented_space :: indented_rest) Finished) /\
  ElementType indented_space = itemSpace /\
  (1 <= 20)%nat /\
  fst (parse 20 indented_start) = Panic.
Proof.
  assert (Hf : (1 <= 20)%nat) by lia.
  repeat (split; [first [reflexivity | exact Hf]|]).
  apply (space_token_first_panics indented_space indented_rest Finished 20
           indented_start eq_refl eq_refl eq_refl eq_refl Hf).
Defined.


Lemma plain_round (t : Tree) (w0 w1 w2 w3 : option item)
    (x : item) (rest : list item) (e : ending) :
  token t = [w0; w1; w2; w3; None; None; None] ->
  tokenPeekCount t = 0 ->
  nodeTarget t = toRoot ->
  lex_tokens t = Some (mkTokens (x :: rest) e) ->
  plain x = true ->
  exists t2,
    parse_body tt t = (Ok (inl tt), t2) /\
    token t2 = [w1; w2; w3; Some x; None; None; None] /\
    tokenPeekCount t2 = 0 /\
    nodeTarget t2 = toRoot /\
    lex_tokens t2 = Some (mkTokens rest e) /\
    (forall more,
       Nodes t ++ paragraphs_of (id t) (x :: more)
       = Nodes t2 ++ paragraphs_of (id t2) more) /\
    Errors t2 = Errors t /\ heap t2 = heap t /\
    sectionLevels t2 = sectionLevels t.
Proof.
  intros Htk Hpc Htg Hlx Hx.
  destruct t as [nm nds tgt errs txt lx bc pc tk lv i iw il hp].
  cbn [token tokenPeekCount lex_tokens nodeTarget Nodes id Errors heap
       sectionLevels] in *. subst.
  destruct x as [en et p ln lg v]. unfold plain in Hx. cbn in Hx.
  destruct et; try discriminate; destruct v as [v|]; try discriminate.
  all: eexists; split; [vm_compute; reflexivity|].
  all: cbn [token tokenPeekCount lex_tokens nodeTarget Nodes id Errors heap
            sectionLevels paragraphs_of ElementType Value Length Line
            Position].
  all: repeat split.
  intros more. rewrite <- app_assoc. reflexivity.
Qed.

(** X16.  Plain text parses to its paragraphs: when the lexer sends
    Paragraph, Title and BlankLine tokens and then an EOF token, [parse]
    returns, the root list has gained one paragraph node for each
    Paragraph token, in the order of the tokens and numbered from the
    identifier counter on; nothing is reported, no section is built or
    registered. *)
Theorem plain_text_parses_to_paragraphs
    (before behind_it : list item) (eofi : item) (e : ending)
    (fuel : nat) (t : Tree) :
  token t = replicate 7 None ->
  tokenPeekCount t = 0 ->
  lex_tokens t = Some (mkTokens (before ++ eofi :: behind_it) e) ->
  ElementType eofi = itemEOF ->
  Forall (fun x => plain x = true) before ->
  (length before < fuel)%nat ->
  exists t',
    parse fuel t = (Ok tt, t') /\
    Nodes t' = Nodes t ++ paragraphs_of (id t) before /\
    Errors t' = Errors t /\ heap t' = heap t /\
    sectionLevels t' = sectionLevels t.
Proof.
  intros Htk Hpc Hlx He Hall Hfuel.
  change (parse fuel t)
    with (loop fuel parse_body tt (set_nodeTarget toRoot t)).
  assert (Hgen : forall toks n s w0 w1 w2 w3,
            token s = [w0; w1; w2; w3; None; None; None] ->
            tokenPeekCount s = 0 ->
            nodeTarget s = toRoot ->
            lex_tokens s = Some (mkTokens (toks ++ eofi :: behind_it) e) ->
            Forall (fun x => plain x = true) toks ->
            (length toks < n)%nat ->
            exists s',
              loop n parse_body tt s = (Ok tt, s') /\
              Nodes s' = Nodes s ++ paragraphs_of (id s) toks /\
              Errors s' = Errors s /\ heap s' = heap s /\
              sectionLevels s' = sectionLevels s).
  { clear - He. induction toks as [|x toks IH];
      intros n s w0 w1 w2 w3 Htk Hpc Htg Hlx Hall Hn.
    - destruct n as [|n]; [cbn in Hn; lia|].
      cbn [app] in Hlx.
      pose proof (peek_one_slots _ _ _ _ _ _ _ _ Htk Hpc Hlx) as Hp.
      eexists. split.
      + cbn [loop]. unfold parse_body. rewrite (bind_eq _ _ _ _ _ Hp).
        cbn [deref]. unfold bind at 1, ret at 1.
        unfold is_type. rewrite bool_decide_eq_true_2 by exact He.
        reflexivity.
      + cbn [paragraphs_of]. rewrite app_nil_r.
        destruct s; repeat split.
    - destruct n as [|n]; [cbn in Hn; lia|].
      apply Forall_cons_1 in Hall as [Hx Hall].
      cbn [app] in Hlx.
      destruct (plain_round _ _ _ _ _ _ _ _ Htk Hpc Htg Hlx Hx)
        as (s2 & Hb & Htk2 & Hpc2 & Htg2 & Hlx2 & Hnodes & Herr & Hheap & Hlv).
      destruct (IH n s2 _ _ _ _ Htk2 Hpc2 Htg2 Hlx2 Hall)
        as (s' & Hl & Hn' & He' & Hh' & Hl');
        [cbn [length] in Hn; lia|].
      exists s'. split.
      + cbn [loop]. rewrite Hb. exact Hl.
      + rewrite Hnodes, Hn', He', Hh', Hl', Herr, Hheap, Hlv. repeat split. }
  destruct (Hgen before fuel (set_nodeTarget toRoot t) None None None None)
    as (t' & H1 & H2); try assumption; try reflexivity.
  exists t'. split; [exact H1|]. exact H2.
Qed.

Lemma plain_text_parses_to_paragraphs_witness :
  token two_paragraphs_start = replicate 7 None /\
  tokenPeekCount two_paragraphs_start = 0 /\
  lex_tokens two_paragraphs_start
  = Some (mkTokens (two_paragraphs_tokens ++ two_paragraphs_EOF :: [])
            Finished) /\
  ElementType two_paragraphs_EOF = itemEOF /\
  Forall (fun x => plain x = true) two_paragraphs_tokens /\
  (length two_paragraphs_tokens < 20)%nat /\
  exists t',
    parse 20 two_paragraphs_start = (Ok tt, t') /\
    Nodes t' = [Paragraph (mkParagraph 1 "ab" 2 1 1);
                Paragraph (mkParagraph 2 "cd" 2 3 5)].
Proof.
  assert (Hall : Forall (fun x => plain x = true) two_paragraphs_tokens)
    by (repeat constructor).
  assert (Hlen : (length two_paragraphs_tokens < 20)%nat) by (vm_compute; lia).
  repeat (split; [first [reflexivity | exact Hall | exact Hlen]|]).
  destruct (plain_text_parses_to_paragraphs two_paragraphs_tokens []
              two_paragraphs_EOF Finished 20 two_paragraphs_start
              eq_refl eq_refl eq_refl eq_refl Hall Hlen)
    as (t' & E & Hn & _).
  exists t'. split; [exact E|exact Hn].
Defined.


(** ** The registry as the parse goes on *)






Lemma token_get_eq (t : Tree) (i : Z) (v : option item) :
  0 <= i -> token t !! Z.to_nat i = Some v -> token_get i t = (Ok v, t).
Proof.
  intros Hi Hv. unfold token_get, at_index, bind, gets.
  destruct (Z.leb_spec 0 i); [|lia]. rewrite Hv. reflexivity.
Qed.

Lemma find_rune_app (h h' : list cell) (s : list addr) (r : Z) :
  (forall a, In a s -> exists sec, h !! a = Some (SectionCell sec)) ->
  find_rune (h ++ h') s r = find_rune h s r.
Proof.
  induction s as [|a s IH]; intros Hreg; [reflexivity|].
  cbn [find_rune]. destruct (Hreg a (or_introl eq_refl)) as [sec Hsec].
  rewrite (lookup_app_l_Some _ _ _ _ Hsec), Hsec.
  rewrite IH; [reflexivity|]. intros b Hb. apply Hreg. right. exact Hb.
Qed.

Lemma newSection_eq (t : Tree) (title i : item) (txt und : string)
    (c : ascii) :
  Value title = Some txt ->
  Value i = Some (String c und) ->
  exists new t1,
    newSection (Some title) None i t = (Ok (length (heap t)), t1) /\
    heap t1 = heap t ++ [SectionCell new] /\
    sectionLevels t1 = sectionLevels t /\
    Text new = txt /\ Rune (UnderLine new) = byteZ c.
Proof.
  intros Ht Hi.
  destruct t as [nm nds tgt errs tx lx bc pc tk lv n iw il hp].
  destruct title as [en1 et1 p1 ln1 lg1 v1], i as [en2 et2 p2 ln2 lg2 v2].
  cbn [Value] in *. subst.
  eexists. eexists. split; [reflexivity|]. repeat split.
Qed.

(** X18.  A section whose underline rune was first used by a section of
    level 1 with another title makes [section] panic: [Add] gives it
    level 1 as well, and [section] then indexes the registry at
    [sec.Level-2], which is -1.  A second top-level section with the rune
    of the first cannot be parsed. *)
Theorem section_panics_on_rune_of_level_one
    (t : Tree) (title i : item) (w1 : option item) (txt und : string)
    (c : ascii) (b : addr) (sec : SectionNode) :
  token t !! 1%nat = Some w1 ->
  match w1 with
  | Some o => ElementType o <> itemSectionAdornment
  | None => True
  end ->
  token t !! 2%nat = Some (Some title) ->
  ElementType title = itemTitle ->
  Value title = Some txt ->
  ElementType i = itemSectionAdornment ->
  Value i = Some (String c und) ->
  registered t ->
  find_rune (heap t) (sectionLevels t) (byteZ c) = Some (b, sec) ->
  Level sec = 1 ->
  Text sec <> txt ->
  fst (section i t) = Panic.
Proof.
  intros Hw1 Hover Htitle Htt Htv Hit Hiv Hreg Hfind Hlevel Htext.
  assert (Hsp : is_type itemSpace title = false).
  { unfold is_type. rewrite Htt. reflexivity. }
  assert (Hti : is_type itemTitle title = true).
  { unfold is_type. rewrite Htt. reflexivity. }
  assert (Hpb1 : peekBack 1 t = (Ok (Some title), t)).
  { apply token_get_eq; [unfold tokenZero; lia|exact Htitle]. }
  assert (Hpb2 : peekBack 2 t = (Ok w1, t)).
  { apply token_get_eq; [unfold tokenZero; lia|exact Hw1]. }
  assert (Hlook : section_lookback t = (Ok (inl (false, None)), t)).
  { unfold section_lookback. rewrite (bind_eq _ _ _ _ _ Hpb1).
    rewrite Hsp, Hti. rewrite (bind_eq _ _ _ _ _ Hpb2).
    destruct w1 as [o|]; [|reflexivity].
    unfold is_type. rewrite bool_decide_eq_false_2 by exact Hover.
    reflexivity. }
  destruct (newSection_eq t title i txt und c Htv Hiv)
    as (new & t1 & Hnew & Hheap & Hlv & Hntext & Hnrune).
  assert (Ha : heap t1 !! length (heap t) = Some (SectionCell new)).
  { rewrite Hheap. apply list_lookup_middle. reflexivity. }
  assert (Hreg1 : registered t1).
  { intros a Hin. rewrite Hlv in Hin. destruct (Hreg a Hin) as [s Hs].
    exists s. rewrite Hheap. apply lookup_app_l_Some. exact Hs. }
  pose proof (Add_eq t1 _ new Ha Hreg1) as Hadd.
  rewrite Hheap, Hlv, Hnrune, (find_rune_app _ _ _ _ Hreg), Hfind in Hadd.
  rewrite Hntext in Hadd.
  rewrite (proj2 (String.eqb_neq _ _) Htext) in Hadd.
  unfold section. rewrite (bind_eq _ _ _ _ _ Hlook).
  rewrite (bind_eq _ _ _ _ _ Hpb1).
  unfold is_type at 1. rewrite Hit. cbn [bool_decide decide_rel].
  change (bool_decide (itemSectionAdornment = itemSpace)) with false.
  cbv iota.
  rewrite (bind_eq (ret tt) _ t tt t eq_refl).
  rewrite (bind_eq _ _ _ _ _ Hnew).
  rewrite (bind_eq _ _ _ _ _ Hadd).
  assert (Hload : load_section (length (heap t))
                    (register (length (heap t)) new (Level sec) t1)
                  = (Ok (set_Level (Level sec) new),
                     register (length (heap t)) new (Level sec) t1)).
  { apply load_section_eq. unfold register. destruct t1; cbn in *.
    apply list_lookup_insert_eq. subst. rewrite length_app. cbn. lia. }
  unfold bind at 1. unfold bind at 1. rewrite Hload.
  unfold bind at 1, gets at 1. cbn [Level set_Level]. rewrite Hlevel.
  reflexivity.
Qed.

Lemma section_panics_on_rune_of_level_one_witness :
  token two_sections_at_second !! 1%nat = Some (Some blank_line_between) /\
  ElementType blank_line_between <> itemSectionAdornment /\
  token two_sections_at_second !! 2%nat = Some (Some second_title) /\
  ElementType second_title = itemTitle /\
  Value second_title = Some "BBB" /\
  ElementType second_underline = itemSectionAdornment /\
  Value second_underline = Some "===" /\
  registered two_sections_at_second /\
  find_rune (heap two_sections_at_second)
    (sectionLevels two_sections_at_second) 61 = Some (0%nat, first_section) /\
  Level first_section = 1 /\
  Text first_section <> "BBB" /\
  fst (section second_underline two_sections_at_second) = Panic.
Proof.
  assert (H1 : token two_sections_at_second !! 1%nat
               = Some (Some blank_line_between)) by (vm_compute; reflexivity).
  assert (H2 : ElementType blank_line_between <> itemSectionAdornment)
    by discriminate.
  assert (H3 : token two_sections_at_second !! 2%nat
               = Some (Some second_title)) by (vm_compute; reflexivity).
  assert (H4 : ElementType second_title = itemTitle) by reflexivity.
  assert (H5 : Value second_title = Some "BBB") by reflexivity.
  assert (H6 : ElementType second_underline = itemSectionAdornment)
    by reflexivity.
  assert (H7 : Value second_underline = Some "===") by reflexivity.
  assert (H8 : registered two_sections_at_second).
  { intros a Ha. vm_compute in Ha. destruct Ha as [<-|[]].
    eexists. vm_compute. reflexivity. }
  assert (H9 : find_rune (heap two_sections_at_second)
                 (sectionLevels two_sections_at_second) 61
               = Some (0%nat, first_section)) by (vm_compute; reflexivity).
  assert (H10 : Level first_section = 1) by reflexivity.
  assert (H11 : Text first_section <> "BBB") by discriminate.
  split; [exact H1|]. split; [exact H2|]. split; [exact H3|].
  split; [exact H4|]. split; [exact H5|]. split; [exact H6|].
  split; [exact H7|]. split; [exact H8|]. split; [exact H9|].
  split; [exact H10|]. split; [exact H11|].
  exact (section_panics_on_rune_of_level_one two_sections_at_second
           second_title second_underline (Some blank_line_between)
           "BBB" "==" "="%char 0%nat first_section
           H1 H2 H3 H4 H5 H6 H7 H8 H9 H10 H11).
Defined.


Ltac grows_solve :=
  unfold grows in *; cbn in *;
  repeat match goal with
         | H : _ /\ _ |- _ => destruct H
         end;
  repeat split;
  rewrite ?length_insert, ?length_app;
  first [ assumption
        | lia
        | apply prefix_app_r; assumption ].

Ltac grows_side :=
  let s := fresh "s" in let Hs := fresh "Hs" in
  intros s Hs; destruct s; grows_solve.

Section Grows.
Variable t0 : Tree.

Lemma errorf_grows (d : diagnostic) : keeps (grows t0) (errorf d).
Proof. grows_side. Qed.

Lemma fresh_id_grows : keeps (grows t0) fresh_id.
Proof. grows_side. Qed.

Lemma alloc_grows (c : cell) : keeps (grows t0) (alloc c).
Proof. grows_side. Qed.

Lemma store_section_grows (a : addr) (s : SectionNode) :
  keeps (grows t0) (store_section a s).
Proof. grows_side. Qed.

Lemma append_levels_grows {A} (a : addr) (rest : ParseM A) :
  keeps (grows t0) rest ->
  keeps (grows t0)
    (s <- gets sectionLevels ;; modify (set_sectionLevels (s ++ [a])) ;; rest).
Proof.
  intros Hrest s Hs.
  change (grows t0 (snd (rest (set_sectionLevels (sectionLevels s ++ [a]) s)))).
  apply Hrest. revert Hs. clear. destruct s. intros Hs. grows_solve.
Qed.

Lemma register_new_grows (a : addr) (new : SectionNode) :
  keeps (grows t0)
    (s <- gets sectionLevels ;;
     store_section a (set_Level (Z.of_nat (length s) + 1) new) ;;
     modify (set_sectionLevels (s ++ [a])) ;;
     ret (false, @None addr)).
Proof. grows_side. Qed.

Lemma append_to_target_grows (n : Node) :
  keeps (grows t0) (append_to_target n).
Proof.
  intros s Hs. unfold append_to_target.
  destruct s as [nm nds tgt errs tx lx bc pc tk lv i iw il hp].
  destruct tgt as [l| |a]; try solve [grows_solve].
  unfold bind, gets. cbn [nodeTarget heap].
  destruct (hp !! a) as [c|]; grows_solve.
Qed.

Lemma Add_grows (a : addr) : keeps (grows t0) (Add a).
Proof.
  unfold Add.
  keeps_first
    ltac:(first [ apply FindByRune_from_keeps
                | apply store_section_grows
                | apply register_new_grows
                | apply append_levels_grows ])
    grows_side.
Qed.

Lemma parse_grows (fuel : nat) : keeps (grows t0) (parse fuel).
Proof.
  keeps_first
    ltac:(first [ apply FindByRune_from_keeps
                | apply Add_grows
                | apply errorf_grows
                | apply fresh_id_grows
                | apply alloc_grows
                | apply store_section_grows
                | apply append_to_target_grows ])
    grows_side.
Qed.
End Grows.

(** X19.  [parse] only adds: whatever the tokens and however it ends, the
    diagnostics, the root list and the section registry it leaves begin
    with the ones it found, the heap of nodes has not shrunk and the
    identifier counter has not gone back. *)
Theorem parse_only_appends (fuel : nat) (t : Tree) :
  grows t (snd (parse fuel t)).
Proof.
  apply parse_grows. repeat split; reflexivity || lia.
Qed.


(** ** Texts the lexer cannot take *)

Lemma adornment_is_printable (r : Z) :
  isSectionAdornment r = true -> 33 <= r <= 126.
Proof.
  unfold isSectionAdornment, sectionAdornments. cbn [existsb].
  rewrite !orb_true_iff, !Z.eqb_eq. lia.
Qed.

Lemma slice_whole (s : string) : slice s 0 (len s) = Some s.
Proof.
  unfold slice, len. rewrite Z.sub_0_r, Nat2Z.id.
  replace ((0 <=? 0) && (0 <=? Z.of_nat (String.length s))
           && (Z.of_nat (String.length s) <=? Z.of_nat (String.length s)))
    with true by (symmetry; rewrite !andb_true_iff, !Z.leb_le; lia).
  cbn [Z.to_nat]. f_equal.
  induction s as [|c s IH]; [reflexivity|]. cbn. f_equal. exact IH.
Qed.

Lemma slice_tail (c : ascii) (s v : string) (p : Z) :
  slice s p (len s) = Some v ->
  slice (String c s) (p + 1) (len (String c s)) = Some v.
Proof.
  unfold slice, len. cbn [String.length]. intros H.
  destruct ((0 <=? p) && (p <=? Z.of_nat (String.length s))
            && (Z.of_nat (String.length s) <=? Z.of_nat (String.length s)))
    eqn:E; [|discriminate].
  rewrite !andb_true_iff, !Z.leb_le in E.
  replace ((0 <=? p + 1) && (p + 1 <=? Z.of_nat (S (String.length s)))
           && (Z.of_nat (S (String.length s)) <=? Z.of_nat (S (String.length s))))
    with true by (symmetry; rewrite !andb_true_iff, !Z.leb_le; lia).
  rewrite <- H. f_equal.
  replace (Z.to_nat (p + 1)) with (S (Z.to_nat p)) by lia.
  replace (Z.to_nat (Z.of_nat (S (String.length s)) - (p + 1)))
    with (Z.to_nat (Z.of_nat (String.length s) - p)) by lia.
  reflexivity.
Qed.

Lemma current_eq (l : lexer) (v : string) :
  slice (input l) (pos l) (len (input l)) = Some v ->
  current l = (Ok (fst (DecodeRuneInString v)), l).
Proof.
  intros H. unfold current, bind, gets, input_slice. rewrite H. reflexivity.
Qed.

Lemma next_eq (l : lexer) (v : string) :
  pos l < len (input l) ->
  slice (input l) (pos l) (len (input l)) = Some v ->
  next l = (Ok (fst (DecodeRuneInString v)),
            set_pos (pos l + snd (DecodeRuneInString v))
              (set_width (snd (DecodeRuneInString v)) l)).
Proof.
  intros Hlt H. unfold next, bind, gets, input_slice.
  destruct (Z.leb_spec (len (input l)) (pos l)); [lia|].
  rewrite H. destruct (DecodeRuneInString v) as [r w]. reflexivity.
Qed.

Lemma peek_eq (l : lexer) (v : string) :
  pos l < len (input l) ->
  slice (input l) (pos l) (len (input l)) = Some v ->
  peek l = (Ok (fst (DecodeRuneInString v)),
            set_width (snd (DecodeRuneInString v)) l).
Proof.
  intros Hlt H. unfold peek.
  rewrite (bind_eq _ _ _ _ _ (next_eq l v Hlt H)).
  unfold backup, bind, gets, modify, ret. f_equal.
  destruct l. unfold set_pos, set_width. cbn. f_equal. lia.
Qed.

Lemma decode_ascii (c : ascii) (s : string) :
  byteZ c < 128 -> DecodeRuneInString (String c s) = (byteZ c, 1).
Proof.
  intros H. unfold DecodeRuneInString.
  destruct (Z.ltb_spec (byteZ c) 128); [reflexivity|lia].
Qed.

(** X20.  A text that begins with two equal adornment characters, the
    overline of a title or a transition, makes the lexer panic before it
    has sent a token: [lexSection] reads the type of [l.lastItem], which is
    nil as long as nothing has been sent. *)
Theorem doubled_adornment_at_start_panics
    (c : ascii) (rest name : string) (fuel : nat) :
  isSectionAdornment (byteZ c) = true ->
  (2 <= fuel)%nat ->
  fst (lex fuel name (String c (String c rest))) = Panic /\
  items (snd (lex fuel name (String c (String c rest)))) = [].
Proof.
  intros Hc Hfuel.
  pose proof (adornment_is_printable _ Hc) as Hr.
  set (inp := String c (String c rest)).
  set (r := byteZ c) in *.
  set (l0 := mkLexer name inp 0 0 0 [] None).
  set (l1 := mkLexer name inp 1 0 1 [] None).
  set (l2 := mkLexer name inp 2 0 1 [] None).
  assert (Hlen : len inp = len rest + 2).
  { unfold inp, len. cbn [String.length]. lia. }
  assert (Hlen0 : 0 <= len rest) by (unfold len; lia).
  assert (Hd0 : DecodeRuneInString inp = (r, 1)).
  { apply decode_ascii. fold r. lia. }
  assert (Hd1 : DecodeRuneInString (String c rest) = (r, 1)).
  { apply decode_ascii. fold r. lia. }
  assert (Hs0 : slice inp 0 (len inp) = Some inp) by apply slice_whole.
  assert (Hs1 : slice inp 1 (len inp) = Some (String c rest)).
  { apply (slice_tail c (String c rest) _ 0), slice_whole. }
  assert (Hc0 : current l0 = (Ok r, l0)).
  { rewrite (current_eq l0 inp Hs0), Hd0. reflexivity. }
  assert (Hn0 : next l0 = (Ok r, l1)).
  { rewrite (next_eq l0 inp); [|cbn; lia|exact Hs0]. rewrite Hd0.
    reflexivity. }
  assert (Hc1 : current l1 = (Ok r, l1)).
  { rewrite (current_eq l1 (String c rest) Hs1), Hd1. reflexivity. }
  assert (Hp1 : peek l1 = (Ok r, l1)).
  { rewrite (peek_eq l1 (String c rest)); [|cbn; lia|exact Hs1]. rewrite Hd1.
    reflexivity. }
  assert (Hn1 : next l1 = (Ok r, l2)).
  { rewrite (next_eq l1 (String c rest)); [|cbn; lia|exact Hs1]. rewrite Hd1.
    reflexivity. }
  assert (Heol : isEndOfLine r = false).
  { unfold isEndOfLine. rewrite orb_false_iff, !Z.eqb_neq. lia. }
  assert (Hsp : isSpace r = false).
  { unfold isSpace. rewrite !orb_false_iff, !Z.eqb_neq. lia. }
  assert (Heof : (r =? eof) = false).
  { unfold eof. rewrite Z.eqb_neq. lia. }
  destruct fuel as [|[|n]]; [lia|lia|].
  set (fuel := S (S n)).
  assert (Hb0 : lexStart_body fuel tt l0 = (Ok (inl tt), l1)).
  { unfold lexStart_body.
    rewrite (bind_eq (gets pos) _ l0 0 l0 eq_refl).
    rewrite (bind_eq (gets start) _ l0 0 l0 eq_refl).
    rewrite (bind_eq _ _ _ _ _ Hc0).
    cbv zeta. change (0 - 0 =? 1) with false. cbv iota.
    rewrite Heol. rewrite (bind_eq _ _ _ _ _ Hn0). rewrite Heof.
    reflexivity. }
  assert (Hsec : isSection fuel l1 = (Ok true, l1)).
  { unfold isSection.
    rewrite (bind_eq (gets pos) _ l1 1 l1 eq_refl). cbv zeta.
    rewrite (bind_eq _ _ _ _ _ Hc1). rewrite Hc.
    assert (Htwo : (p <- peek ;;
                    if isSectionAdornment p
                    then c0 <- current ;; p0 <- peek ;; ret (c0 =? p0)
                    else ret false) l1 = (Ok true, l1)).
    { rewrite (bind_eq _ _ _ _ _ Hp1). rewrite Hc.
      rewrite (bind_eq _ _ _ _ _ Hc1). rewrite (bind_eq _ _ _ _ _ Hp1).
      unfold ret. rewrite Z.eqb_refl. reflexivity. }
    rewrite (bind_eq _ _ _ _ _ Htwo). reflexivity. }
  assert (Hb1 : lexStart_body fuel tt l1
                = (Ok (inr (Some lexSectionFn)), l1)).
  { unfold lexStart_body.
    rewrite (bind_eq (gets pos) _ l1 1 l1 eq_refl).
    rewrite (bind_eq (gets start) _ l1 0 l1 eq_refl).
    rewrite (bind_eq _ _ _ _ _ Hc1).
    cbv zeta. change (1 - 0 =? 1) with true. cbv iota.
    rewrite Heol, Hsp. rewrite (bind_eq _ _ _ _ _ Hsec). reflexivity. }
  assert (Hstart : lexStart fuel l0 = (Ok (Some lexSectionFn), l1)).
  { unfold lexStart.
    assert (Hloop : loop fuel (lexStart_body fuel) tt l0
                    = (Ok (Some lexSectionFn), l1)).
    { unfold fuel at 1. cbn [loop]. rewrite Hb0, Hb1. reflexivity. }
    rewrite (bind_eq _ _ _ _ _ Hloop). reflexivity. }
  assert (Hsection : lexSection fuel l1 = (Panic, l2)).
  { unfold lexSection. rewrite (bind_eq _ _ _ _ _ Hn1). rewrite Hc.
    reflexivity. }
  assert (Hrun : lex fuel name inp = (Panic, l2)).
  { unfold lex, run. fold l0. unfold fuel at 1. cbn [loop].
    cbn [call]. unfold bind at 1. rewrite Hstart.
    cbn [ret]. unfold bind at 1. cbn [call]. rewrite Hsection.
    reflexivity. }
  rewrite Hrun. split; reflexivity.
Qed.

Lemma doubled_adornment_at_start_panics_witness :
  isSectionAdornment (byteZ "="%char) = true /\
  (2 <= 5)%nat /\
  fst (lex 5 "doc" ("==" ++ nl)) = Panic.
Proof.
  assert (Hf : (2 <= 5)%nat) by lia.
  split; [reflexivity|]. split; [exact Hf|].
  apply (doubled_adornment_at_start_panics "="%char nl "doc" 5 eq_refl Hf).
Defined.

(** X21.  The empty text cannot be parsed: the lexer panics at its first
    token, the EOF token, because [lineNumber] slices the input up to
    [l.pos-1], which is -1; nothing is sent, and [Parse] panics with the
    lexer. *)
Theorem empty_text_panics (NFC : normalizer) (name : string) (fuel : nat) :
  IsNormalString NFC "" = true ->
  (1 <= fuel)%nat ->
  lex fuel name "" = (Panic, mkLexer name "" 0 0 0 [] None) /\
  fst (Parse NFC fuel name "") = Panic.
Proof.
  intros HN Hfuel. rewrite (Parse_normal _ _ _ _ HN).
  destruct (fuel_from _ _ Hfuel) as [n ->].
  split; vm_compute; reflexivity.
Qed.

Lemma empty_text_panics_witness :
  IsNormalString NFC_model EmptyString = true /\
  (1 <= 5)%nat /\
  fst (Parse NFC_model 5 "doc" EmptyString) = Panic.
Proof.
  assert (Hf : (1 <= 5)%nat) by lia.
  split; [reflexivity|]. split; [exact Hf|].
  apply (empty_text_panics NFC_model "doc" 5 eq_refl Hf).
Defined.


(** ** The lexer and the parser together *)

(** X22.  [Parse] comes to an end whenever the lexer does: when the lexer
    has returned from the (normalized) text, having sent no more tokens
    than each loop may make rounds, [Parse] returns or panics; it neither
    waits for a token that never comes nor runs on. *)
Theorem Parse_ends_when_lexer_ends
    (NFC : normalizer) (fuel : nat) (name txt : string) :
  fst (lex fuel name (normalized NFC txt)) = Ok tt ->
  (length (items (snd (lex fuel name (normalized NFC txt)))) <= fuel)%nat ->
  settled (fst (Parse NFC fuel name txt)).
Proof.
  intros Hlex Hlen.
  assert (E : Parse NFC fuel name txt
              = Tree_Parse fuel (normalized NFC txt)
                  (set_text (normalized NFC txt) (New name))).
  { unfold Parse, normalized. destruct (IsNormalString NFC txt); reflexivity. }
  rewrite E. clear E. set (txt' := normalized NFC txt) in *.
  pose proof (run_EOF fuel fuel lexStartFn (mkLexer name txt' 0 0 0 [] None))
    as Hrun.
  cbv zeta in Hrun. fold (run fuel) in Hrun.
  change (run fuel (mkLexer name txt' 0 0 0 [] None))
    with (lex fuel name txt') in Hrun.
  specialize (Hrun (Forall_nil_2 _)). rewrite Hlex in Hrun.
  destruct Hrun as (before & last & Hitems & Hlast & Hbefore).
  set (t1 := set_text txt'
               (set_lex (Some (tokens_of (lex fuel name txt')))
                  (set_text txt' (New name)))).
  change (Tree_Parse fuel txt' (set_text txt' (New name)))
    with ((parse fuel ;; gets Errors) t1).
  assert (Hparse : settled (fst (parse fuel t1))).
  { change (parse fuel t1)
      with (loop fuel parse_body tt (set_nodeTarget toRoot t1)).
    apply (parse_loop_stops (before ++ [last]) Finished (length before) last)
      with (d := length before) (k := 0%nat).
    - rewrite lookup_app_r by lia. rewrite Nat.sub_diag. reflexivity.
    - exact Hlast.
    - intros i x Hi Hx. rewrite lookup_app_l in Hx by exact Hi.
      rewrite Forall_lookup in Hbefore. exact (Hbefore i x Hx).
    - reflexivity.
    - unfold window, t1, tokens_of.
      cbn [tokenPeekCount lex_tokens token set_nodeTarget set_text set_lex
           New drop]. rewrite Hlex, Hitems. repeat split.
    - rewrite Hitems, length_app in Hlen. cbn [length] in Hlen. lia. }
  unfold bind. destruct (parse fuel t1) as [[[]| | |] t2]; cbn in *; auto.
Qed.

Lemma Parse_ends_when_lexer_ends_witness :
  fst (lex 20 "doc" (normalized NFC_model scenario1)) = Ok tt /\
  (length (items (snd (lex 20 "doc" (normalized NFC_model scenario1))))
   <= 20)%nat /\
  settled (fst (Parse NFC_model 20 "doc" scenario1)).
Proof.
  assert (Hl : fst (lex 20 "doc" (normalized NFC_model scenario1)) = Ok tt)
    by (vm_compute; reflexivity).
  assert (Hn : (length (items (snd (lex 20 "doc"
                                      (normalized NFC_model scenario1))))
                <= 20)%nat) by (vm_compute; lia).
  split; [exact Hl|]. split; [exact Hn|].
  apply (Parse_ends_when_lexer_ends NFC_model 20 "doc" scenario1 Hl Hn).
Defined.


Section First.
Context {St : Type} (I : St -> Prop).

Lemma first_bind {A B} (m : M St A) (f : A -> M St B) (s : St) :
  I (snd (m s)) -> (forall a, keeps I (f a)) -> I (snd (bind m f s)).
Proof.
  intros Hm Hf. unfold bind.
  destruct (m s) as [[a| | |] s1]; cbn [snd] in *; auto. apply Hf, Hm.
Qed.

Lemma first_loop {A B} (body : A -> M St (A + B)) (n : nat) (a : A) (s : St) :
  I (snd (body a s)) -> (forall a, keeps I (body a)) ->
  I (snd (loop (S n) body a s)).
Proof.
  intros Hb Hk. cbn [loop].
  destruct (body a s) as [[[a'|b]| | |] s1]; cbn [snd] in *; auto.
  apply keeps_loop; assumption.
Qed.
End First.

Lemma emit_keeps_begins_with (it : item) (t : itemElement) :
  keeps (begins_with it) (emit t).
Proof.
  intros l [more Hl]. unfold begins_with.
  destruct (emit_items t l) as [[_ (x & -> & _)]|[_ ->]].
  - exists (more ++ [x]). rewrite Hl. reflexivity.
  - exists more. exact Hl.
Qed.

Lemma emit_eq (t : itemElement) (l : lexer) (v before : string) :
  (start l =? pos l) = false ->
  slice (input l) (start l) (pos l) = Some v ->
  slice (input l) 0 (pos l - 1) = Some before ->
  emit t l
  = (Ok tt,
     set_start (pos l)
       (send (mkItem (itemElement_String t) t (start l + 1)
                (1 + count_nl before) (len v) (Some v)) l)).
Proof.
  intros Hc Hv Hb. unfold emit.
  rewrite (bind_eq (gets start) _ l (start l) l eq_refl).
  rewrite (bind_eq (gets pos) _ l (pos l) l eq_refl).
  rewrite (bind_eq (gets (fun l => len (input l))) _ l (len (input l)) l
             eq_refl).
  rewrite Hc. cbn [andb].
  rewrite (bind_eq (ret tt) _ l tt l eq_refl).
  rewrite (bind_eq (gets pos) _ l (pos l) l eq_refl).
  assert (H1 : input_slice (start l) (pos l) l = (Ok v, l)).
  { unfold input_slice. rewrite Hv. reflexivity. }
  rewrite (bind_eq _ _ _ _ _ H1).
  assert (H2 : lineNumber l = (Ok (1 + count_nl before), l)).
  { unfold lineNumber. rewrite (bind_eq (gets pos) _ l (pos l) l eq_refl).
    unfold bind, input_slice. rewrite Hb. reflexivity. }
  rewrite (bind_eq _ _ _ _ _ H2). reflexivity.
Qed.

Ltac begins_known :=
  first [ apply emit_keeps_begins_with | apply input_slice_keeps ].

Ltac begins_side := intros ? [? ?]; eexists; cbn; eassumption.

(** X23.  A first line of one character is sent as a blank line: when the
    text begins with an ASCII character other than a line end that is
    followed by a newline, the first token the lexer sends is an
    itemBlankLine whose value is that character. *)
Theorem one_character_first_line_is_blank
    (c : ascii) (rest name : string) (fuel : nat) :
  byteZ c < 128 ->
  isEndOfLine (byteZ c) = false ->
  (2 <= fuel)%nat ->
  begins_with (first_byte_as_blank_line c)
    (snd (lex fuel name (String c (nl ++ rest)))).
Proof.
  intros Hc Heol Hfuel.
  change (nl ++ rest)%string with (String (ascii_of_nat 10) rest).
  set (line := String (ascii_of_nat 10) rest).
  set (inp := String c line).
  set (r := byteZ c) in *.
  set (it := first_byte_as_blank_line c).
  set (l0 := mkLexer name inp 0 0 0 [] None).
  set (l1 := mkLexer name inp 1 0 1 [] None).
  set (l2 := mkLexer name inp 1 1 1 [it] (Some it)).
  assert (Hr : 0 <= r) by apply byteZ_range.
  assert (Hlen : len inp = len rest + 2).
  { unfold inp, line, len. cbn [String.length]. lia. }
  assert (Hlen0 : 0 <= len rest) by (unfold len; lia).
  assert (Hd0 : DecodeRuneInString inp = (r, 1)).
  { apply decode_ascii. exact Hc. }
  assert (Hd1 : DecodeRuneInString line = (LF, 1)) by reflexivity.
  assert (Hs0 : slice inp 0 (len inp) = Some inp) by apply slice_whole.
  assert (Hs1 : slice inp 1 (len inp) = Some line).
  { apply (slice_tail c line _ 0), slice_whole. }
  assert (Hc0 : current l0 = (Ok r, l0)).
  { rewrite (current_eq l0 inp Hs0), Hd0. reflexivity. }
  assert (Hn0 : next l0 = (Ok r, l1)).
  { rewrite (next_eq l0 inp); [|cbn; lia|exact Hs0]. rewrite Hd0.
    reflexivity. }
  assert (Hc1 : current l1 = (Ok LF, l1)).
  { rewrite (current_eq l1 line Hs1), Hd1. reflexivity. }
  assert (Heof : (r =? eof) = false).
  { unfold eof. rewrite Z.eqb_neq. lia. }
  assert (Hemit : emit itemBlankLine l1 = (Ok tt, l2)).
  { assert (Hv : slice inp 0 1 = Some (String c EmptyString)).
    { unfold slice. rewrite Hlen.
      destruct (Z.leb_spec 1 (len rest + 2)); [|lia]. reflexivity. }
    assert (Hz : slice inp 0 (1 - 1) = Some EmptyString).
    { unfold slice. rewrite Hlen.
      destruct (Z.leb_spec (1 - 1) (len rest + 2)); [|lia]. reflexivity. }
    rewrite (emit_eq itemBlankLine l1 _ _ eq_refl Hv Hz). reflexivity. }
  destruct fuel as [|[|n]]; [lia|lia|].
  set (fuel := S (S n)).
  assert (Hkeep : forall f, keeps (begins_with it) (call f fuel)).
  { intros f. destruct f; cbn [call];
      keeps_with begins_known begins_side. }
  assert (Hbody : forall u, keeps (begins_with it) (lexStart_body fuel u)).
  { intros u. keeps_with begins_known begins_side. }
  assert (Hb0 : lexStart_body fuel tt l0 = (Ok (inl tt), l1)).
  { unfold lexStart_body.
    rewrite (bind_eq (gets pos) _ l0 0 l0 eq_refl).
    rewrite (bind_eq (gets start) _ l0 0 l0 eq_refl).
    rewrite (bind_eq _ _ _ _ _ Hc0).
    cbv zeta. change (0 - 0 =? 1) with false. cbv iota.
    fold r. rewrite Heol. rewrite (bind_eq _ _ _ _ _ Hn0). rewrite Heof.
    reflexivity. }
  assert (Hb1 : begins_with it (snd (lexStart_body fuel tt l1))).
  { unfold lexStart_body.
    rewrite (bind_eq (gets pos) _ l1 1 l1 eq_refl).
    rewrite (bind_eq (gets start) _ l1 0 l1 eq_refl).
    rewrite (bind_eq _ _ _ _ _ Hc1).
    cbv zeta. change (1 - 0 =? 1) with true. cbv iota.
    change (isEndOfLine LF) with true. cbv iota.
    apply (first_bind (begins_with it)).
    - rewrite Hemit. exists []. reflexivity.
    - intros _. keeps_with begins_known begins_side. }
  unfold lex, run. fold l0. unfold fuel at 1.
  apply (first_loop (begins_with it)).
  - apply (first_bind (begins_with it)).
    + cbn [call]. unfold lexStart. apply (first_bind (begins_with it)).
      * unfold fuel at 1. cbn [loop]. rewrite Hb0.
        fold (loop (S n) (lexStart_body fuel) tt l1).
        apply (first_loop (begins_with it)); [exact Hb1|exact Hbody].
      * intros a. keeps_with begins_known begins_side.
    + intros a. keeps_with begins_known begins_side.
  - intros f. keeps_with ltac:(first [apply Hkeep | begins_known]) begins_side.
Qed.

Lemma one_character_first_line_is_blank_witness :
  byteZ "A"%char < 128 /\
  isEndOfLine (byteZ "A"%char) = false /\
  (2 <= 5)%nat /\
  begins_with (first_byte_as_blank_line "A"%char)
    (snd (lex 5 "doc" ("A" ++ nl ++ "=" ++ nl))).
Proof.
  assert (Hf : (2 <= 5)%nat) by lia.
  split; [reflexivity|]. split; [reflexivity|]. split; [exact Hf|].
  apply (one_character_first_line_is_blank "A"%char ("=" ++ nl) "doc" 5
           eq_refl eq_refl Hf).
Defined.

